(** * Browser SDK: trace identifiers, request collection and batched transport

    A shallow embedding of three parts of the browser SDK:

    - [TraceIdentifier] (spanCollection.ts): the 8-byte identifier, its
      constructor and its radix conversion [toString];
    - [SpanCollection] and [RequestCollection] (spanCollection.ts,
      requestCollection.ts): header injection, the XHR and fetch wrappers, the
      request observables and the installer [startRequestCollection];
    - [Transport] (core/transport.ts): the [Batch] buffer with [add] and
      [flush].

    JavaScript numbers that the code only ever uses as integers below 2^53 are
    modelled as [Z]; strings are byte strings ([string]); exceptions are
    explicit results; the mutable state of a module or of an object is passed
    explicitly.  What the sources import from files that are not at hand
    ([monitor], [Observable], [normalizeUrl], [computeStackTrace],
    [toStackTraceString], [assign]) is a parameter or a definition marked as
    modelled from the specification. *)

From Stdlib Require Import ZArith Lia Ascii String.
From Stdlib.Strings Require Import Byte.
From stdpp Require Import base tactics option list numbers gmap sorting.

Local Open Scope Z_scope.

(** ** JavaScript arithmetic used by the sources *)

Module JS.

(** [a % b] on integers: the remainder takes the sign of the dividend. *)
Definition rem (a b : Z) : Z := Z.rem a b.

(** [Math.floor(a / b)] for integers [a] and a non-zero integer [b]. *)
Definition floor_div (a b : Z) : Z := a / b.

(** [ToInt32]: the wrap-around of the 32-bit bitwise operators. *)
Definition to_int32 (z : Z) : Z := (z + 2 ^ 31) mod 2 ^ 32 - 2 ^ 31.

(** [a << n] *)
Definition shl (a n : Z) : Z := to_int32 (Z.shiftl (to_int32 a) (n mod 32)).

(** [a & b] *)
Definition band (a b : Z) : Z := to_int32 (Z.land (to_int32 a) (to_int32 b)).

(** The digits of [Number.prototype.toString(radix)]. *)
Definition digits : string := "0123456789abcdefghijklmnopqrstuvwxyz".

Definition digit_char (d : Z) : ascii :=
  match String.get (Z.to_nat d) digits with
  | Some c => c
  | None => "?"%char
  end.

(** Exceptions raised by the modelled code. *)
Inductive exn := RangeError | TypeError.

(** Completion of a call: a normal result or a thrown exception. *)
Inductive completion (A : Type) : Type :=
| Normal (a : A)
| Throw (e : exn).
Arguments Normal {A} a.
Arguments Throw {A} e.

(** Positional digits of a non-negative integer, most significant first. *)
Fixpoint to_radix (fuel : nat) (x radix : Z) (acc : string) : string :=
  match fuel with
  | O => acc
  | S fuel' =>
      let acc' := String (digit_char (x mod radix)) acc in
      if x / radix =? 0 then acc' else to_radix fuel' (x / radix) radix acc'
  end.

(** [x.toString(radix)] for a non-negative integer [x]: a [RangeError]
    unless [2 <= radix <= 36]. *)
Definition Number_toString (x radix : Z) : completion string :=
  if (2 <=? radix) && (radix <=? 36)
  then Normal (to_radix (S (Z.to_nat x)) x radix EmptyString)
  else Throw RangeError.

End JS.

(** ** TraceIdentifier (spanCollection.ts) *)

Module TraceIdentifier.

(** A [Uint8Array]: every element is a byte. *)
Definition Uint8Array := list byte.

(** The element at an index, as a JavaScript number. *)
Definition u8 (b : byte) : Z := Z.of_N (Byte.to_N b).

Definition get (buffer : Uint8Array) (i : nat) : Z :=
  u8 (nth i buffer x00).

(** Storing a number into a [Uint8Array] keeps its low 8 bits. *)
Definition to_u8 (v : Z) : byte :=
  match Byte.of_N (Z.to_N (v mod 256)) with
  | Some b => b
  | None => x00
  end.

Definition set (buffer : Uint8Array) (i : nat) (v : Z) : Uint8Array :=
  <[i := to_u8 v]> buffer.

Record t := { buffer : Uint8Array }.

(** [window.crypto.getRandomValues(buffer)]: every element is overwritten
    with a byte drawn from the random source. *)
Definition getRandomValues (random : nat -> byte) (buffer : Uint8Array)
  : Uint8Array :=
  map random (seq 0 (length buffer)).

(** [constructor ()] *)
Definition new (random : nat -> byte) : t :=
  let buffer0 := replicate 8 x00 in
  let buffer1 := getRandomValues random buffer0 in
  {| buffer := set buffer1 0 (JS.band (get buffer1 0) 127) |}.

(** [readInt32 (offset)] *)
Definition readInt32 (this : t) (offset : nat) : Z :=
  get (buffer this) offset * 16777216
  + JS.shl (get (buffer this) (offset + 1)) 16
  + JS.shl (get (buffer this) (offset + 2)) 8
  + get (buffer this) (offset + 3).

(** Outcome of [toString]: the returned string, a [RangeError] thrown by
    the digit conversion, or a loop that is still running when the fuel is
    spent. *)
Inductive outcome :=
| Returned (str : string)
| Thrown (e : JS.exn)
| Running.

(** The [while (1)] loop of [toString], one iteration per unit of fuel. *)
Fixpoint toString_loop (fuel : nat) (radix high low : Z) (str : string)
  : outcome :=
  match fuel with
  | O => Running
  | S fuel' =>
      let mod_ := JS.rem high radix * 4294967296 + low in
      let high' := JS.floor_div high radix in
      let low' := JS.floor_div mod_ radix in
      match JS.Number_toString (JS.rem mod_ radix) radix with
      | JS.Throw e => Thrown e
      | JS.Normal digit =>
          let str' := String.append digit str in
          if (high' =? 0) && (low' =? 0) then Returned str'
          else toString_loop fuel' radix high' low' str'
      end
  end.

(** [toString (radix)].  The loop is run for at most 64 iterations, which
    is enough for every buffer and every radix (see
    [toString_loop_returns]: it never ends in [Running]). *)
Definition toString (this : t) (radix : Z) : outcome :=
  let high := readInt32 this 0 in
  let low := readInt32 this 4 in
  let str := EmptyString in
  toString_loop 64 radix high low str.

(** The string returned by [toString (radix)] when it returns. *)
Definition toString_value (this : t) (radix : Z) : string :=
  match toString this radix with
  | Returned str => str
  | _ => EmptyString
  end.

(** An identifier holding eight given bytes. *)
Definition of_bytes (content : nat -> byte) : t :=
  {| buffer := map content (seq 0 8) |}.

(** The 64-bit value of the buffer: its two 32-bit halves, big-endian. *)
Definition half (this : t) (offset : nat) : Z :=
  foldl (fun acc b => acc * 256 + u8 b) 0
        (take 4 (drop offset (buffer this))).

Definition value (this : t) : Z := half this 0 * 2 ^ 32 + half this 4.

(** Reading a string of digits in a base, most significant digit first. *)
Definition digit_value (c : ascii) : option Z :=
  let n := Z.of_N (N_of_ascii c) in
  if (48 <=? n) && (n <=? 57) then Some (n - 48)
  else if (97 <=? n) && (n <=? 122) then Some (n - 87)
  else None.

Fixpoint parse_from (radix : Z) (acc : Z) (s : string) : option Z :=
  match s with
  | EmptyString => Some acc
  | String c s' =>
      match digit_value c with
      | Some d => if d <? radix then parse_from radix (acc * radix + d) s'
                  else None
      | None => None
      end
  end.

Definition parse (radix : Z) (s : string) : option Z :=
  match s with
  | EmptyString => None
  | _ => parse_from radix 0 s
  end.

(** [toJSON ()]: [toString ()] with its default radix, 10. *)
Definition toJSON (this : t) : outcome := toString this 10.

End TraceIdentifier.

(** ** Header injection (spanCollection.ts) *)

Module SpanCollection.

(** A URL, resolved: its scheme, host and port make up its origin. *)
Record Url := {
  scheme : string;
  host : string;
  port : string;
  path : string;
}.

Definition url_origin (u : Url) : string * string * string :=
  (scheme u, host u, port u).

(** The serialisation read from [location.origin]. *)
Definition serialize_origin (u : Url) : string :=
  String.append (scheme u)
    (String.append "://"%string
       (String.append (host u)
          (if String.eqb (port u) ""%string then ""%string
           else String.append ":"%string (port u)))).

(** What the code reads from the global object.  [origin] is the global
    variable of that name (the source declares and imports no [origin] of
    its own); [ddtrace] is absent, or its tracer has no active scope, or
    the active scope carries a trace identifier; [name] is the global
    [window.name]. *)
Record Window := {
  origin : string;
  location : Url;
  ddtrace : option (option TraceIdentifier.t);
  name : string;
}.

Definition location_origin (window : Window) : string :=
  serialize_origin (location window).

(** The request object, as far as the wrappers touch it.  [_datadog_xhr]
    is the field written by the wrapped [open]; [requestHeaders] lists the
    [setRequestHeader] calls in order. *)
Record XMLHttpRequest := {
  _datadog_xhr : option (string * Url);
  requestHeaders : list (string * string);
  readyState : Z;
  status : Z;
  response : option string;
}.

(** [XMLHttpRequest.DONE] *)
Definition DONE : Z := 4.

(** [xhr.setRequestHeader (name, value)] on an opened request. *)
Definition setRequestHeader (header value : string) (xhr : XMLHttpRequest)
  : XMLHttpRequest :=
  {| _datadog_xhr := _datadog_xhr xhr;
     requestHeaders := requestHeaders xhr ++ [(header, value)];
     readyState := readyState xhr;
     status := status xhr;
     response := response xhr |}.

(** [traceAndInject (inject)]: the identifier of the active scope of the
    upstream tracer when there is one ([inl], the result of
    [getTraceIdFromTracer ()]), otherwise what [inject] returns for a new
    identifier ([inr]). *)
Definition traceAndInject {A : Type} (window : Window) (random : nat -> byte)
    (inject : TraceIdentifier.t -> A) : TraceIdentifier.t + A :=
  match ddtrace window with
  | Some (Some tracerId) => inl tracerId
  | _ =>
      let traceId := TraceIdentifier.new random in
      inr (inject traceId)
  end.

(** [traceXhr (xhr)]: the returned identifier ([None] for [undefined]) and
    the request with the headers set on it. *)
Definition traceXhr (window : Window) (random : nat -> byte)
    (xhr : XMLHttpRequest) : option TraceIdentifier.t * XMLHttpRequest :=
  match
    traceAndInject window random (fun traceId =>
      if negb (String.eqb (origin window) (location_origin window))
      then (None, xhr)
      else
        let xhr := setRequestHeader "x-datadog-trace-id"%string
                     (TraceIdentifier.toString_value traceId 10) xhr in
        let xhr := setRequestHeader "x-datadog-parent-id"%string
                     (TraceIdentifier.toString_value traceId 10) xhr in
        let xhr := setRequestHeader "x-datadog-origin"%string "rum"%string xhr in
        let xhr := setRequestHeader "x-datadog-sampling-priority"%string "1"%string xhr in
        let xhr := setRequestHeader "x-datadog-sampled"%string "1"%string xhr in
        (Some traceId, xhr))
  with
  | inl tracerId => (Some tracerId, xhr)
  | inr result => result
  end.

(** The five injected headers. *)
Definition datadog_headers : list string :=
  ["x-datadog-trace-id"; "x-datadog-parent-id"; "x-datadog-origin";
   "x-datadog-sampling-priority"; "x-datadog-sampled"]%string.

(** The headers of that list set on a request between two of its states. *)
Definition attached (before after : XMLHttpRequest) : list string :=
  filter (fun h => h ∈ datadog_headers)
         (drop (length (requestHeaders before))
               (map fst (requestHeaders after))).

(** The destination of an opened request and the page have the same
    origin: scheme, host and port are equal. *)
Definition same_origin (window : Window) (xhr : XMLHttpRequest) : Prop :=
  match _datadog_xhr xhr with
  | Some (_, url) => url_origin url = url_origin (location window)
  | None => False
  end.

Definition cross_origin (window : Window) (xhr : XMLHttpRequest) : Prop :=
  match _datadog_xhr xhr with
  | Some (_, url) => url_origin url <> url_origin (location window)
  | None => False
  end.

Section Fetch.

(** The [headers] member of a fetch [init]: a plain object or an object
    with a [set] method; [assign] is the helper of utils.ts and
    [headers_set] the [set] method, neither is part of the sources. *)
Context {Headers : Type}.
Variable empty_headers : Headers.
Variable has_set : Headers -> bool.
Variable headers_set : string -> option string -> Headers -> Headers.
Variable assign : Headers -> list (string * string) -> Headers.

Record RequestInit := {
  init_method : option string;
  init_headers : option Headers;
}.

(** The three shapes [traceFetch] returns: the tracer's identifier, the
    [init] it was given, or the pair [{ init, traceId }]. *)
Inductive TraceFetchResult :=
| TracerId (tracerId : TraceIdentifier.t)
| Init (init : option RequestInit)
| InitAndTraceId (init : RequestInit) (traceId : TraceIdentifier.t).

(** [object[key]] on an object literal: [None] for [undefined]. *)
Fixpoint property (object : list (string * string)) (key : string)
  : option string :=
  match object with
  | [] => None
  | (k, v) :: object' =>
      if String.eqb k key then Some v else property object' key
  end.

(** [Object.keys (name)] on the global string [name]: its indices. *)
Definition keys_of_name (window : Window) : list string :=
  map (fun i : nat => pretty.pretty i) (seq 0 (String.length (name window))).

(** [traceFetch (init)] *)
Definition traceFetch (window : Window) (random : nat -> byte)
    (init : option RequestInit) : TraceFetchResult :=
  match
    traceAndInject window random (fun traceId =>
      if negb (String.eqb (origin window) (location_origin window))
      then Init init
      else
        let init :=
          match init with
          | Some init => init
          | None => {| init_method := None; init_headers := None |}
          end in
        let init_headers0 :=
          match init_headers init with
          | Some h => h
          | None => empty_headers
          end in
        let strId := TraceIdentifier.toString_value traceId 10 in
        let headers :=
          [("x-datadog-origin", "rum"); ("x-datadog-parent-id", strId);
           ("x-datadog-sampled", "1");
           ("x-datadog-sampling-priority", "1");
           ("x-datadog-trace-id", strId)]%string in
        let init_headers1 :=
          if has_set init_headers0
          then foldl (fun h key =>
                        headers_set key (property headers key) h)
                     init_headers0 (keys_of_name window)
          else assign init_headers0 headers in
        InitAndTraceId
          {| init_method := init_method init;
             init_headers := Some init_headers1 |}
          traceId)
  with
  | inl tracerId => TracerId tracerId
  | inr result => result
  end.

End Fetch.

End SpanCollection.

(** ** Request collection (requestCollection.ts) *)

Module RequestCollection.

Inductive RequestType := FETCH | XHR.

Record RequestStartEvent := { start_requestId : Z }.

Record RequestCompleteEvent := {
  requestId : Z;
  type : RequestType;
  method : string;
  url : string;
  status : Z;
  response : option string;
  responseType : option string;
  startTime : Z;
  duration : Z;
  traceId : option TraceIdentifier.t;
}.

(** An [Observable] object, by identity. *)
Definition Observable := nat.

Definition RequestObservables := (Observable * Observable)%type.

(** *** The installer *)

(** A call surface ([XMLHttpRequest.prototype.open], [send],
    [window.fetch]): the platform's own function, or a wrapper that saved
    the surface it replaced and notifies a pair of observables. *)
Inductive Surface :=
| Native
| Wrapped (original : Surface) (observables : RequestObservables).

(** The module variable [requestObservablesSingleton], the call surfaces,
    and the number of [Observable] objects created so far. *)
Record Globals := {
  requestObservablesSingleton : option RequestObservables;
  created : nat;
  XMLHttpRequest_open : Surface;
  XMLHttpRequest_send : Surface;
  window_fetch : option Surface;
}.

(** [new Observable ()] *)
Definition new_Observable (g : Globals) : Observable * Globals :=
  (created g,
   {| requestObservablesSingleton := requestObservablesSingleton g;
      created := S (created g);
      XMLHttpRequest_open := XMLHttpRequest_open g;
      XMLHttpRequest_send := XMLHttpRequest_send g;
      window_fetch := window_fetch g |}).

(** The surface replacements of [trackXhr]: [originalOpen] and
    [originalSend] are saved in the wrappers. *)
Definition trackXhr_install (observables : RequestObservables) (g : Globals)
  : Globals :=
  let originalOpen := XMLHttpRequest_open g in
  let originalSend := XMLHttpRequest_send g in
  {| requestObservablesSingleton := requestObservablesSingleton g;
     created := created g;
     XMLHttpRequest_open := Wrapped originalOpen observables;
     XMLHttpRequest_send := Wrapped originalSend observables;
     window_fetch := window_fetch g |}.

(** The surface replacement of [trackFetch]; nothing when there is no
    [window.fetch]. *)
Definition trackFetch_install (observables : RequestObservables) (g : Globals)
  : Globals :=
  match window_fetch g with
  | None => g
  | Some originalFetch =>
      {| requestObservablesSingleton := requestObservablesSingleton g;
         created := created g;
         XMLHttpRequest_open := XMLHttpRequest_open g;
         XMLHttpRequest_send := XMLHttpRequest_send g;
         window_fetch := Some (Wrapped originalFetch observables) |}
  end.

(** [startRequestCollection ()] *)
Definition startRequestCollection (g : Globals) : RequestObservables * Globals :=
  match requestObservablesSingleton g with
  | Some observables => (observables, g)
  | None =>
      let '(requestStartObservable, g) := new_Observable g in
      let '(requestCompleteObservable, g) := new_Observable g in
      let observables := (requestStartObservable, requestCompleteObservable) in
      let g :=
        {| requestObservablesSingleton := Some observables;
           created := created g;
           XMLHttpRequest_open := XMLHttpRequest_open g;
           XMLHttpRequest_send := XMLHttpRequest_send g;
           window_fetch := window_fetch g |} in
      let g := trackXhr_install observables g in
      let g := trackFetch_install observables g in
      (observables, g)
  end.

(** [n] further calls of the installer after a call that returned [r]:
    the result of the last call. *)
Fixpoint startRequestCollection_again (n : nat)
    (r : RequestObservables * Globals) : RequestObservables * Globals :=
  match n with
  | O => r
  | S n' => startRequestCollection_again n' (startRequestCollection (snd r))
  end.

(** How many wrappers are stacked on a surface: how often an original was
    saved. *)
Fixpoint wrappers (s : Surface) : nat :=
  match s with
  | Native => 0
  | Wrapped original _ => S (wrappers original)
  end.

(** *** The wrapped calls *)

(** The closure created by one call of the wrapped [send]. *)
Record XhrCall := {
  xhr_complete : Observable;
  xhr_requestId : Z;
  xhr_startTime : Z;
  xhr_traceId : option TraceIdentifier.t;
  hasBeenReported : bool;
}.

Inductive PromiseState := Pending | Settled.

(** The closure created by one call of the wrapped [fetch], with the state
    of the promise returned by the original [fetch]. *)
Record FetchCall := {
  fetch_complete : Observable;
  fetch_requestId : Z;
  fetch_startTime : Z;
  fetch_method : string;
  fetch_url : SpanCollection.Url;
  fetch_traceId : option TraceIdentifier.t;
  promise : PromiseState;
}.

(** The module variable [nextRequestId], the closures alive (in creation
    order), and the events notified on the observables so far. *)
Record Requests := {
  nextRequestId : Z;
  xhrCalls : list XhrCall;
  fetchCalls : list FetchCall;
  notifiedStart : list (Observable * RequestStartEvent);
  notifiedComplete : list (Observable * RequestCompleteEvent);
}.

Definition initial : Requests :=
  {| nextRequestId := 1;
     xhrCalls := [];
     fetchCalls := [];
     notifiedStart := [];
     notifiedComplete := [] |}.

(** [getNextRequestId ()] *)
Definition getNextRequestId (s : Requests) : Z * Requests :=
  let result := nextRequestId s in
  (result,
   {| nextRequestId := nextRequestId s + 1;
      xhrCalls := xhrCalls s;
      fetchCalls := fetchCalls s;
      notifiedStart := notifiedStart s;
      notifiedComplete := notifiedComplete s |}).

(** Modelled from the spec: [Observable.notify] (observable.ts is not part
    of the sources), "a minimal one-to-many notification channel" whose
    delivery is synchronous: the event is published to the subscribers of
    the observable, recorded here in publication order. *)
Definition notify_start (o : Observable) (e : RequestStartEvent)
    (s : Requests) : Requests :=
  {| nextRequestId := nextRequestId s;
     xhrCalls := xhrCalls s;
     fetchCalls := fetchCalls s;
     notifiedStart := notifiedStart s ++ [(o, e)];
     notifiedComplete := notifiedComplete s |}.

Definition notify_complete (o : Observable) (e : RequestCompleteEvent)
    (s : Requests) : Requests :=
  {| nextRequestId := nextRequestId s;
     xhrCalls := xhrCalls s;
     fetchCalls := fetchCalls s;
     notifiedStart := notifiedStart s;
     notifiedComplete := notifiedComplete s ++ [(o, e)] |}.

(** Modelled from the spec: [monitor] (internalMonitoring.ts is not part of
    the sources), "all instrumentation callbacks must swallow and
    internally report their own faults": the effects of the callback up to
    the fault stay, the exception does not leave the callback. *)
Definition monitor {S A : Type} (run : S * JS.completion A) : S * option A :=
  match run with
  | (s, JS.Normal a) => (s, Some a)
  | (s, JS.Throw _) => (s, None)
  end.

Definition set_xhrCalls (calls : list XhrCall) (s : Requests) : Requests :=
  {| nextRequestId := nextRequestId s;
     xhrCalls := calls;
     fetchCalls := fetchCalls s;
     notifiedStart := notifiedStart s;
     notifiedComplete := notifiedComplete s |}.

Definition set_fetchCalls (calls : list FetchCall) (s : Requests) : Requests :=
  {| nextRequestId := nextRequestId s;
     xhrCalls := xhrCalls s;
     fetchCalls := calls;
     notifiedStart := notifiedStart s;
     notifiedComplete := notifiedComplete s |}.

Definition set_hasBeenReported (b : bool) (call : XhrCall) : XhrCall :=
  {| xhr_complete := xhr_complete call;
     xhr_requestId := xhr_requestId call;
     xhr_startTime := xhr_startTime call;
     xhr_traceId := xhr_traceId call;
     hasBeenReported := b |}.

Definition set_promise (p : PromiseState) (call : FetchCall) : FetchCall :=
  {| fetch_complete := fetch_complete call;
     fetch_requestId := fetch_requestId call;
     fetch_startTime := fetch_startTime call;
     fetch_method := fetch_method call;
     fetch_url := fetch_url call;
     fetch_traceId := fetch_traceId call;
     promise := p |}.

(** The wrapped [open]: remembers method and url on the request. *)
Definition open (this : SpanCollection.XMLHttpRequest) (method : string)
    (url : SpanCollection.Url) : SpanCollection.XMLHttpRequest :=
  {| SpanCollection._datadog_xhr := Some (method, url);
     SpanCollection.requestHeaders := SpanCollection.requestHeaders this;
     SpanCollection.readyState := SpanCollection.readyState this;
     SpanCollection.status := SpanCollection.status this;
     SpanCollection.response := SpanCollection.response this |}.

Section Calls.

(** External helpers: [normalizeUrl] (urlPolyfill.ts), [computeStackTrace]
    (tracekit.ts) and [toStackTraceString] (errorCollection.ts). *)
Context {Error StackTrace Headers : Type}.
Variable normalizeUrl : SpanCollection.Url -> string.
Variable computeStackTrace : Error -> StackTrace.
Variable toStackTraceString : StackTrace -> string.
Variable empty_headers : Headers.
Variable has_set : Headers -> bool.
Variable headers_set : string -> option string -> Headers -> Headers.
Variable assign : Headers -> list (string * string) -> Headers.

(** The wrapped [send], up to the call of the original [send]: the
    request with its headers, and the new closure as the last element of
    [xhrCalls]. *)
Definition send (observables : RequestObservables)
    (window : SpanCollection.Window) (random : nat -> byte) (now : Z)
    (this : SpanCollection.XMLHttpRequest) (s : Requests)
  : SpanCollection.XMLHttpRequest * Requests :=
  let '(requestStartObservable, requestCompleteObservable) := observables in
  let startTime := now in
  let '(requestId, s) := getNextRequestId s in
  let '(traceId, this) := SpanCollection.traceXhr window random this in
  let s := notify_start requestStartObservable
             {| start_requestId := requestId |} s in
  let call := {| xhr_complete := requestCompleteObservable;
                 xhr_requestId := requestId;
                 xhr_startTime := startTime;
                 xhr_traceId := traceId;
                 hasBeenReported := false |} in
  (this, set_xhrCalls (xhrCalls s ++ [call]) s).

(** [reportXhr] of the closure at index [i], run on the request [this]
    at time [now]. *)
Definition reportXhr (i : nat) (this : SpanCollection.XMLHttpRequest)
    (now : Z) (s : Requests) : Requests * JS.completion unit :=
  match xhrCalls s !! i with
  | None => (s, JS.Normal tt)
  | Some call =>
      if hasBeenReported call then (s, JS.Normal tt)
      else
        let s := set_xhrCalls
                   (<[i := set_hasBeenReported true call]> (xhrCalls s)) s in
        match SpanCollection._datadog_xhr this with
        | None => (s, JS.Throw JS.TypeError)
        | Some (method, url) =>
            (notify_complete (xhr_complete call)
               {| requestId := xhr_requestId call;
                  startTime := xhr_startTime call;
                  duration := now - xhr_startTime call;
                  method := method;
                  response := SpanCollection.response this;
                  responseType := None;
                  status := SpanCollection.status this;
                  traceId := xhr_traceId call;
                  type := XHR;
                  url := normalizeUrl url |} s,
             JS.Normal tt)
        end
  end.

(** The [onreadystatechange] handler set by the wrapped [send]. *)
Definition onreadystatechange (i : nat)
    (this : SpanCollection.XMLHttpRequest) (now : Z) (s : Requests)
  : Requests :=
  if SpanCollection.readyState this =? SpanCollection.DONE
  then fst (monitor (reportXhr i this now s))
  else s.

(** The [loadend] listener added by the wrapped [send]. *)
Definition loadend (i : nat) (this : SpanCollection.XMLHttpRequest)
    (now : Z) (s : Requests) : Requests :=
  fst (monitor (reportXhr i this now s)).

(** The first argument of [fetch]: a url, or a request object. *)
Inductive RequestInfo :=
| UrlString (url : SpanCollection.Url)
| RequestObject (url : SpanCollection.Url) (method : string).

Definition truthy (s : option string) : option string :=
  match s with
  | Some str => if String.eqb str ""%string then None else Some str
  | None => None
  end.

(** The wrapped [fetch], up to the call of the original [fetch]: the
    [init] handed to it and the new closure as the last element of
    [fetchCalls]; or the TypeError of reading a member of [undefined]. *)
Definition fetch (observables : RequestObservables)
    (window : SpanCollection.Window) (random : nat -> byte) (now : Z)
    (input : RequestInfo)
    (init : option (@SpanCollection.RequestInit Headers)) (s : Requests)
  : Requests * JS.completion (option (@SpanCollection.RequestInit Headers)) :=
  let '(requestStartObservable, requestCompleteObservable) := observables in
  let method :=
    match truthy (init ≫= SpanCollection.init_method) with
    | Some m => m
    | None =>
        match input with
        | RequestObject _ m =>
            match truthy (Some m) with
            | Some m => m
            | None => "GET"%string
            end
        | UrlString _ => "GET"%string
        end
    end in
  let startTime := now in
  let '(requestId, s) := getNextRequestId s in
  let traceResult :=
    SpanCollection.traceFetch empty_headers has_set headers_set assign
      window random init in
  match traceResult with
  | SpanCollection.Init None => (s, JS.Throw JS.TypeError)
  | _ =>
      let traceId :=
        match traceResult with
        | SpanCollection.InitAndTraceId _ traceId => Some traceId
        | _ => None
        end in
      let init :=
        match traceResult with
        | SpanCollection.InitAndTraceId init _ => Some init
        | _ => None
        end in
      let s := notify_start requestStartObservable
                 {| start_requestId := requestId |} s in
      let call := {| fetch_complete := requestCompleteObservable;
                     fetch_requestId := requestId;
                     fetch_startTime := startTime;
                     fetch_method := method;
                     fetch_url := match input with
                                  | UrlString url => url
                                  | RequestObject url _ => url
                                  end;
                     fetch_traceId := traceId;
                     promise := Pending |} in
      (set_fetchCalls (fetchCalls s ++ [call]) s, JS.Normal init)
  end.

(** A response, as far as [reportFetch] reads it: [clone ().text ()]
    gives the body ([inl]) or throws a value printed as [inr]. *)
Record Response := {
  response_status : Z;
  response_type : string;
  response_text : string + string;
}.

(** The value a promise settles with: one with a [stack] member or an
    instance of [Error]; otherwise one with a [status] member; or
    neither. *)
Inductive SettledValue :=
| ErrorValue (e : Error)
| ResponseValue (r : Response)
| OtherValue.

(** [reportFetch (response)] of a closure. *)
Definition reportFetch (call : FetchCall) (value : SettledValue) (now : Z)
    (s : Requests) : Requests :=
  let duration := now - fetch_startTime call in
  let url := normalizeUrl (fetch_url call) in
  match value with
  | ErrorValue e =>
      let stackTrace := computeStackTrace e in
      notify_complete (fetch_complete call)
        {| duration := duration;
           method := fetch_method call;
           requestId := fetch_requestId call;
           startTime := fetch_startTime call;
           url := url;
           response := Some (toStackTraceString stackTrace);
           responseType := None;
           status := 0;
           traceId := fetch_traceId call;
           type := FETCH |} s
  | ResponseValue r =>
      let text :=
        match response_text r with
        | inl text => text
        | inr e => String.append "Unable to retrieve response: "%string e
        end in
      notify_complete (fetch_complete call)
        {| duration := duration;
           method := fetch_method call;
           requestId := fetch_requestId call;
           startTime := fetch_startTime call;
           url := url;
           response := Some text;
           responseType := Some (response_type r);
           status := response_status r;
           traceId := fetch_traceId call;
           type := FETCH |} s
  | OtherValue => s
  end.

(** The promise of the closure at index [i] settles, by fulfilment or by
    rejection, with [value]: the handler given to [then] runs, once per
    promise. *)
Definition settle (i : nat) (value : SettledValue) (now : Z) (s : Requests)
  : Requests :=
  match fetchCalls s !! i with
  | Some call =>
      match promise call with
      | Settled => s
      | Pending =>
          let s := set_fetchCalls
                     (<[i := set_promise Settled call]> (fetchCalls s)) s in
          reportFetch call value now s
      end
  | None => s
  end.

(** What happens on a page: calls of the wrapped surfaces and the signals
    of the platform. *)
Inductive Action :=
| Send (observables : RequestObservables) (window : SpanCollection.Window)
       (random : nat -> byte) (now : Z)
       (this : SpanCollection.XMLHttpRequest)
| ReadyStateChange (i : nat) (this : SpanCollection.XMLHttpRequest) (now : Z)
| LoadEnd (i : nat) (this : SpanCollection.XMLHttpRequest) (now : Z)
| Fetch (observables : RequestObservables) (window : SpanCollection.Window)
        (random : nat -> byte) (now : Z) (input : RequestInfo)
        (init : option (@SpanCollection.RequestInit Headers))
| Settle (i : nat) (value : SettledValue) (now : Z).

Definition step (a : Action) (s : Requests) : Requests :=
  match a with
  | Send observables window random now this =>
      snd (send observables window random now this s)
  | ReadyStateChange i this now => onreadystatechange i this now s
  | LoadEnd i this now => loadend i this now s
  | Fetch observables window random now input init =>
      fst (monitor (fetch observables window random now input init s))
  | Settle i value now => settle i value now s
  end.

Definition run (actions : list Action) (s : Requests) : Requests :=
  foldl (fun s a => step a s) s actions.

(** The complete events published for a request id. *)
Definition completed (requestId' : Z) (s : Requests)
  : list RequestCompleteEvent :=
  filter (fun e => requestId e = requestId') (snd <$> notifiedComplete s).

End Calls.

(** [isRejected (request)] *)
Definition isRejected (request : RequestCompleteEvent) : bool :=
  (status request =? 0)
  && negb (bool_decide (responseType request = Some "opaque"%string)).

(** [isServerError (request)] *)
Definition isServerError (request : RequestCompleteEvent) : bool :=
  500 <=? status request.

End RequestCollection.

(** ** Batched transport (core/transport.ts) *)

Module Transport.

(** One call of [HttpRequest.send]: its two arguments, and whether the data
    left through [navigator.sendBeacon] or through a POST request. *)
Inductive Channel := Beacon | Post.

Record Delivery := {
  channel : Channel;
  data : string;
  size : Z;
}.

Record HttpRequest := {
  endpointUrl : string;
  request_bytesLimit : Z;
  sendBeacon : bool;
  deliveries : list Delivery;
}.

(** [HttpRequest.send (data, size)] *)
Definition send (data : string) (size : Z) (this : HttpRequest) : HttpRequest :=
  let channel :=
    if sendBeacon this && (size <? request_bytesLimit this)
    then Beacon else Post in
  {| endpointUrl := endpointUrl this;
     request_bytesLimit := request_bytesLimit this;
     sendBeacon := sendBeacon this;
     deliveries := deliveries this
                   ++ [{| channel := channel; data := data; size := size |}] |}.

(** [sizeInBytes (candidate)]: the number of bytes of the UTF-8 encoding
    (one per escape or character of [encodeURI (candidate)]); strings are
    byte strings here. *)
Definition sizeInBytes (candidate : string) : Z :=
  Z.of_nat (String.length candidate).

Definition newline : string := String (ascii_of_nat 10) EmptyString.

(** [buffer.join (separator)] *)
Fixpoint join (separator : string) (elements : list string) : string :=
  match elements with
  | [] => EmptyString
  | [element] => element
  | element :: rest =>
      String.append element (String.append separator (join separator rest))
  end.

Record Batch := {
  buffer : list string;
  bufferBytesSize : Z;
  request : HttpRequest;
  maxSize : Z;
  bytesLimit : Z;
}.

(** [constructor (request, maxSize, bytesLimit, ...)]: the timer and the
    page listeners it registers call [flush] later. *)
Definition new (request : HttpRequest) (maxSize bytesLimit : Z) : Batch :=
  {| buffer := [];
     bufferBytesSize := 0;
     request := request;
     maxSize := maxSize;
     bytesLimit := bytesLimit |}.

(** [flush ()] *)
Definition flush (this : Batch) : Batch :=
  if negb (Z.of_nat (length (buffer this)) =? 0)
  then
    {| buffer := [];
       bufferBytesSize := 0;
       request := send (join newline (buffer this))
                    (bufferBytesSize this
                     + Z.of_nat (length (buffer this)) - 1)
                    (request this);
       maxSize := maxSize this;
       bytesLimit := bytesLimit this |}
  else this.

(** [push (processedMessage, messageBytesSize)] *)
Definition push (processedMessage : string) (messageBytesSize : Z)
    (this : Batch) : Batch :=
  {| buffer := buffer this ++ [processedMessage];
     bufferBytesSize := bufferBytesSize this + messageBytesSize;
     request := request this;
     maxSize := maxSize this;
     bytesLimit := bytesLimit this |}.

(** [willReachedBytesLimitWith (messageBytesSize)] *)
Definition willReachedBytesLimitWith (messageBytesSize : Z) (this : Batch)
  : bool :=
  let separatorsBytesSize := Z.of_nat (length (buffer this)) in
  bytesLimit this
  <=? bufferBytesSize this + messageBytesSize + separatorsBytesSize.

(** [isFull ()] *)
Definition isFull (this : Batch) : bool :=
  (Z.of_nat (length (buffer this)) =? maxSize this)
  || (bytesLimit this <=? bufferBytesSize this).

Section Messages.

(** [JSON.stringify ({ ...message, ...context })] for the context the
    provider returns at the call. *)
Context {Message Context_ : Type}.
Variable stringify : Message -> Context_ -> string.

(** [process (message)] *)
Definition process (context : Context_) (message : Message) : string * Z :=
  let processedMessage := stringify message context in
  let messageBytesSize := sizeInBytes processedMessage in
  (processedMessage, messageBytesSize).

(** [add (message)] *)
Definition add (context : Context_) (message : Message) (this : Batch)
  : Batch :=
  let '(processedMessage, messageBytesSize) := process context message in
  let this :=
    if willReachedBytesLimitWith messageBytesSize this
    then flush this else this in
  let this := push processedMessage messageBytesSize this in
  if isFull this then flush this else this.

(** The calls a batch receives: [add] from its owner, [flush] from the
    timer and the page listeners. *)
Inductive Call :=
| Add (context : Context_) (message : Message)
| Flush.

Definition call (c : Call) (this : Batch) : Batch :=
  match c with
  | Add context message => add context message this
  | Flush => flush this
  end.

Definition calls (cs : list Call) (this : Batch) : Batch :=
  foldl (fun this c => call c this) this cs.

End Messages.

(** The sum of the byte sizes of the records. *)
Definition total_bytes (records : list string) : Z :=
  foldr (fun record acc => sizeInBytes record + acc) 0 records.

End Transport.

(** ** Properties of the models *)

(** The bounds kept by [add] and [flush]. *)
Definition within_limits (this : Transport.Batch) : Prop :=
  (Z.of_nat (length (Transport.buffer this)) < Transport.maxSize this
   /\ Transport.bufferBytesSize this < Transport.bytesLimit this)
  \/ (Transport.buffer this = [] /\ Transport.bufferBytesSize this = 0).

(** The byte accumulator is the sum of the sizes of the buffered records. *)
Definition accounted (this : Transport.Batch) : Prop :=
  Transport.bufferBytesSize this
  = Transport.total_bytes (Transport.buffer this).

(** The delivery [flush] makes of a group of records through a request. *)
Definition delivery_of (request : Transport.HttpRequest)
    (records : list string) : Transport.Delivery :=
  let size :=
    Transport.total_bytes records + Z.of_nat (length records) - 1 in
  {| Transport.channel :=
       if Transport.sendBeacon request
          && (size <? Transport.request_bytesLimit request)
       then Transport.Beacon else Transport.Post;
     Transport.data := Transport.join Transport.newline records;
     Transport.size := size |}.

(** What [flush] would deliver from a batch: its buffer, unless empty. *)
Definition flushed (this : Transport.Batch) : list (list string) :=
  match Transport.buffer this with
  | [] => []
  | _ :: _ => [Transport.buffer this]
  end.

(** The deliveries a batch has made since it was created on [request]. *)
Definition sent (request : Transport.HttpRequest) (this : Transport.Batch)
  : list Transport.Delivery :=
  drop (length (Transport.deliveries request))
       (Transport.deliveries (Transport.request this)).

(** A batch built on [request] that has delivered the groups [chunks] and
    has received the records [records]: every record is in a delivered group
    or in the buffer, in the order received. *)
Record batched (request : Transport.HttpRequest) (maxSize bytesLimit : Z)
    (this : Transport.Batch) (chunks : list (list string))
    (records : list string) : Prop := {
  batched_request :
    Transport.request this
    = {| Transport.endpointUrl := Transport.endpointUrl request;
         Transport.request_bytesLimit := Transport.request_bytesLimit request;
         Transport.sendBeacon := Transport.sendBeacon request;
         Transport.deliveries :=
           Transport.deliveries request ++ (delivery_of request <$> chunks) |};
  batched_limits :
    Transport.maxSize this = maxSize /\ Transport.bytesLimit this = bytesLimit;
  batched_records : concat chunks ++ Transport.buffer this = records;
  batched_accounted : accounted this;
  batched_nonempty : Forall (fun chunk => chunk <> []) chunks;
}.

(** The size of the payload of a group of records, separators included. *)
Definition payload_size (records : list string) : Z :=
  Transport.total_bytes records + Z.of_nat (length records) - 1.

(** The bounds of the delivered groups and of the buffer. *)
Record bounded (this : Transport.Batch) (chunks : list (list string))
  : Prop := {
  bounded_buffer :
    Transport.buffer this = []
    \/ payload_size (Transport.buffer this) < Transport.bytesLimit this;
  bounded_bytes :
    Forall (fun chunk => payload_size chunk < Transport.bytesLimit this
                         \/ length chunk = 1%nat) chunks;
  bounded_count :
    1 <= Transport.maxSize this ->
    Z.of_nat (length (Transport.buffer this)) < Transport.maxSize this
    /\ Forall (fun chunk => Z.of_nat (length chunk) <= Transport.maxSize this)
              chunks;
}.

Section BatchProperties.

Context {Message Context_ : Type}.
Variable stringify : Message -> Context_ -> string.

(** The records a sequence of calls adds, in order. *)
Fixpoint added (cs : list (Transport.Call (Message := Message)
                                          (Context_ := Context_)))
  : list string :=
  match cs with
  | [] => []
  | Transport.Add context message :: cs' =>
      stringify message context :: added cs'
  | Transport.Flush :: cs' => added cs'
  end.

(** The groups a call of [add] delivers: the buffer when the record would
    reach the byte limit, then the buffer with the record when it is full. *)
Definition add_flushed (context : Context_) (message : Message)
    (this : Transport.Batch) : list (list string) :=
  let record := stringify message context in
  let size := Transport.sizeInBytes record in
  let this1 :=
    if Transport.willReachedBytesLimitWith size this
    then Transport.flush this else this in
  let this2 := Transport.push record size this1 in
  (if Transport.willReachedBytesLimitWith size this then flushed this else [])
  ++ (if Transport.isFull this2 then flushed this2 else []).

End BatchProperties.

Section RequestProperties.

Context {Error Headers : Type}.

Local Abbreviation Action :=
  (RequestCollection.Action (Error := Error) (Headers := Headers)).

(** The action is a completion signal for the XHR closure [i]. *)
Definition completes (i : nat) (a : Action) : bool :=
  match a with
  | RequestCollection.ReadyStateChange j this _ =>
      bool_decide (j = i)
      && (SpanCollection.readyState this =? SpanCollection.DONE)
  | RequestCollection.LoadEnd j _ _ => bool_decide (j = i)
  | _ => false
  end.

(** The action settles the promise of the fetch closure [i]. *)
Definition settles (i : nat) (a : Action) : bool :=
  match a with
  | RequestCollection.Settle j _ _ => bool_decide (j = i)
  | _ => false
  end.

(** What one action does to the state. *)
Inductive effect (a : Action) (s : RequestCollection.Requests)
  : RequestCollection.Requests -> Prop :=
| effect_none : effect a s s
| effect_id :
    effect a s (RequestCollection.getNextRequestId s).2
| effect_send o e call :
    RequestCollection.xhr_requestId call = RequestCollection.nextRequestId s ->
    RequestCollection.hasBeenReported call = false ->
    effect a s
      (let s := RequestCollection.notify_start o e
                  (RequestCollection.getNextRequestId s).2 in
       RequestCollection.set_xhrCalls
         (RequestCollection.xhrCalls s ++ [call]) s)
| effect_fetch o e call :
    RequestCollection.fetch_requestId call = RequestCollection.nextRequestId s ->
    RequestCollection.promise call = RequestCollection.Pending ->
    effect a s
      (let s := RequestCollection.notify_start o e
                  (RequestCollection.getNextRequestId s).2 in
       RequestCollection.set_fetchCalls
         (RequestCollection.fetchCalls s ++ [call]) s)
| effect_latch j call :
    completes j a = true ->
    RequestCollection.xhrCalls s !! j = Some call ->
    RequestCollection.hasBeenReported call = false ->
    effect a s
      (RequestCollection.set_xhrCalls
         (<[j := RequestCollection.set_hasBeenReported true call]>
            (RequestCollection.xhrCalls s)) s)
| effect_report j call e :
    completes j a = true ->
    RequestCollection.xhrCalls s !! j = Some call ->
    RequestCollection.hasBeenReported call = false ->
    RequestCollection.requestId e = RequestCollection.xhr_requestId call ->
    effect a s
      (RequestCollection.notify_complete
         (RequestCollection.xhr_complete call) e
         (RequestCollection.set_xhrCalls
            (<[j := RequestCollection.set_hasBeenReported true call]>
               (RequestCollection.xhrCalls s)) s))
| effect_settle j call :
    settles j a = true ->
    RequestCollection.fetchCalls s !! j = Some call ->
    RequestCollection.promise call = RequestCollection.Pending ->
    effect a s
      (RequestCollection.set_fetchCalls
         (<[j := RequestCollection.set_promise RequestCollection.Settled call]>
            (RequestCollection.fetchCalls s)) s)
| effect_settle_report j call e :
    settles j a = true ->
    RequestCollection.fetchCalls s !! j = Some call ->
    RequestCollection.promise call = RequestCollection.Pending ->
    RequestCollection.requestId e = RequestCollection.fetch_requestId call ->
    effect a s
      (RequestCollection.notify_complete
         (RequestCollection.fetch_complete call) e
         (RequestCollection.set_fetchCalls
            (<[j := RequestCollection.set_promise RequestCollection.Settled call]>
               (RequestCollection.fetchCalls s)) s)).

(** The signal is raised on a request that went through the wrapped
    [open]. *)
Definition opened (a : Action) : Prop :=
  match a with
  | RequestCollection.ReadyStateChange _ this _
  | RequestCollection.LoadEnd _ this _ =>
      SpanCollection._datadog_xhr this <> None
  | _ => True
  end.

End RequestProperties.

Definition xhr_ids (s : RequestCollection.Requests) : list Z :=
  RequestCollection.xhr_requestId <$> RequestCollection.xhrCalls s.

Definition fetch_ids (s : RequestCollection.Requests) : list Z :=
  RequestCollection.fetch_requestId <$> RequestCollection.fetchCalls s.

Definition log_ids (s : RequestCollection.Requests) : list Z :=
  (fun oe => RequestCollection.requestId oe.2)
    <$> RequestCollection.notifiedComplete s.

(** Every closure has its own request id, and every id in use, by a
    closure or by a published event, is below [nextRequestId]. *)
Record consistent (s : RequestCollection.Requests) : Prop := {
  ids_nodup : NoDup (xhr_ids s ++ fetch_ids s);
  ids_below :
    Forall (fun x => x < RequestCollection.nextRequestId s)
           (xhr_ids s ++ fetch_ids s);
  log_below :
    Forall (fun x => x < RequestCollection.nextRequestId s) (log_ids s);
}.

Definition start_ids (s : RequestCollection.Requests) : list Z :=
  (fun oe => RequestCollection.start_requestId oe.2)
    <$> RequestCollection.notifiedStart s.

(** No request id is published twice: the published ids are distinct, they
    belong to closures, and a closure whose latch is open, or whose promise is
    pending, has not been reported yet. *)
Record reported_once (s : RequestCollection.Requests) : Prop := {
  log_nodup : NoDup (log_ids s);
  log_owned : forall x, x ∈ log_ids s -> x ∈ xhr_ids s ++ fetch_ids s;
  latch_open :
    forall j call,
      RequestCollection.xhrCalls s !! j = Some call ->
      RequestCollection.hasBeenReported call = false ->
      RequestCollection.xhr_requestId call ∉ log_ids s;
  promise_pending :
    forall j call,
      RequestCollection.fetchCalls s !! j = Some call ->
      RequestCollection.promise call = RequestCollection.Pending ->
      RequestCollection.fetch_requestId call ∉ log_ids s;
}.

(** One start event per closure, with increasing request ids. *)
Record started (s : RequestCollection.Requests) : Prop := {
  next_positive : 1 <= RequestCollection.nextRequestId s;
  start_sorted : StronglySorted Z.lt (start_ids s);
  start_below :
    Forall (fun x => 1 <= x < RequestCollection.nextRequestId s) (start_ids s);
  start_calls : start_ids s ≡ₚ xhr_ids s ++ fetch_ids s;
}.

Section SignalProperties.

Context {Error Headers : Type}.

(** The request and the time of a signal of the platform. *)
Definition signal_of
    (a : RequestCollection.Action (Error := Error) (Headers := Headers))
  : option (SpanCollection.XMLHttpRequest * Z) :=
  match a with
  | RequestCollection.ReadyStateChange _ this now
  | RequestCollection.LoadEnd _ this now => Some (this, now)
  | _ => None
  end.

End SignalProperties.

(** ** Concrete pages and helpers for the examples *)

(** A page, a request to its own origin and a request to another origin. *)
Definition example_page : SpanCollection.Url :=
  {| SpanCollection.scheme := "https";
     SpanCollection.host := "app.example.com";
     SpanCollection.port := "";
     SpanCollection.path := "/" |}.

Definition example_window (ddtrace : option (option TraceIdentifier.t))
  : SpanCollection.Window :=
  {| SpanCollection.origin := "https://app.example.com";
     SpanCollection.location := example_page;
     SpanCollection.ddtrace := ddtrace;
     SpanCollection.name := "" |}.

Definition example_xhr (host : string) : SpanCollection.XMLHttpRequest :=
  {| SpanCollection._datadog_xhr :=
       Some ("GET"%string,
             {| SpanCollection.scheme := "https";
                SpanCollection.host := host;
                SpanCollection.port := "";
                SpanCollection.path := "/api/items" |});
     SpanCollection.requestHeaders := [];
     SpanCollection.readyState := 1;
     SpanCollection.status := 0;
     SpanCollection.response := None |}.

Definition example_random (i : nat) : byte :=
  if decide (i = 7)%nat then x2a else xff.

Definition example_normalizeUrl (u : SpanCollection.Url) : string :=
  String.append (SpanCollection.serialize_origin u) (SpanCollection.path u).

Definition example_toStackTraceString (stackTrace : string) : string :=
  String.append "Error: " stackTrace.

Definition example_assign (target source : list (string * string))
  : list (string * string) := target ++ source.

Definition example_headers_set (key : string) (value : option string)
    (target : list (string * string)) : list (string * string) :=
  target ++ [(key, default "undefined"%string value)].

Definition example_run :=
  RequestCollection.run (Error := string) example_normalizeUrl
    (fun e : string => e) example_toStackTraceString
    [] (fun _ => false) example_headers_set example_assign.

Definition example_done : SpanCollection.XMLHttpRequest :=
  {| SpanCollection._datadog_xhr :=
       SpanCollection._datadog_xhr (example_xhr "app.example.com");
     SpanCollection.requestHeaders := [];
     SpanCollection.readyState := SpanCollection.DONE;
     SpanCollection.status := 200;
     SpanCollection.response := Some "ok"%string |}.

(** A finished request that did not go through the wrapped [open]. *)
Definition example_unopened : SpanCollection.XMLHttpRequest :=
  {| SpanCollection._datadog_xhr := None;
     SpanCollection.requestHeaders := [];
     SpanCollection.readyState := SpanCollection.DONE;
     SpanCollection.status := 200;
     SpanCollection.response := Some "ok"%string |}.

Definition example_response : RequestCollection.Response :=
  {| RequestCollection.response_status := 200;
     RequestCollection.response_type := "basic";
     RequestCollection.response_text := inl "ok"%string |}.

Definition example_fetch :=
  RequestCollection.fetch [] (fun _ => false)
    example_headers_set example_assign (0%nat, 1%nat) (example_window None)
    example_random 10 (RequestCollection.UrlString example_page) None
    RequestCollection.initial.

Definition example_endpoint : Transport.HttpRequest :=
  {| Transport.endpointUrl := "https://example.org/v1/input";
     Transport.request_bytesLimit := 100;
     Transport.sendBeacon := true;
     Transport.deliveries := [] |}.

Definition example_stringify (message : string) (_ : unit) : string := message.

(** * Proofs *)

Example toString_dec :
  TraceIdentifier.toString
    (TraceIdentifier.of_bytes (fun i => if decide (i = 7)%nat then xff else x01)) 10
  = TraceIdentifier.Returned "72340172838076927".
Proof. vm_compute. reflexivity. Qed.

(** ** Bytes and 32-bit operators *)

Lemma u8_range (b : byte) : 0 <= TraceIdentifier.u8 b < 256.
Proof.
  unfold TraceIdentifier.u8. pose proof (Byte.to_N_bounded b). lia.
Qed.

Lemma to_int32_small (z : Z) : - 2 ^ 31 <= z < 2 ^ 31 -> JS.to_int32 z = z.
Proof.
  intros Hz. unfold JS.to_int32. rewrite Z.mod_small; lia.
Qed.

Lemma shl_byte (z n : Z) :
  0 <= z < 256 -> 0 <= n <= 16 -> JS.shl z n = z * 2 ^ n.
Proof.
  intros Hz Hn. unfold JS.shl.
  rewrite (to_int32_small z) by lia.
  rewrite (Z.mod_small n 32) by lia.
  rewrite Z.shiftl_mul_pow2 by lia.
  apply to_int32_small.
  assert (0 < 2 ^ n) by (apply Z.pow_pos_nonneg; lia).
  assert (2 ^ n <= 2 ^ 16) by (apply Z.pow_le_mono_r; lia).
  nia.
Qed.

Lemma to_u8_band_127 (b : byte) :
  TraceIdentifier.u8 (TraceIdentifier.to_u8 (JS.band (TraceIdentifier.u8 b) 127))
  = Z.land (TraceIdentifier.u8 b) 127
  /\ 0 <= Z.land (TraceIdentifier.u8 b) 127 < 128
  /\ Z.testbit (Z.land (TraceIdentifier.u8 b) 127) 7 = false.
Proof. destruct b; vm_compute; repeat split; congruence. Qed.

(** ** readInt32 *)

Lemma readInt32_eq (this : TraceIdentifier.t) (offset : nat) :
  TraceIdentifier.readInt32 this offset
  = TraceIdentifier.get (TraceIdentifier.buffer this) offset * 2 ^ 24
    + TraceIdentifier.get (TraceIdentifier.buffer this) (offset + 1) * 2 ^ 16
    + TraceIdentifier.get (TraceIdentifier.buffer this) (offset + 2) * 2 ^ 8
    + TraceIdentifier.get (TraceIdentifier.buffer this) (offset + 3).
Proof.
  unfold TraceIdentifier.readInt32, TraceIdentifier.get.
  rewrite !shl_byte by (first [apply u8_range | lia]). lia.
Qed.

Lemma readInt32_range (this : TraceIdentifier.t) (offset : nat) :
  0 <= TraceIdentifier.readInt32 this offset < 2 ^ 32.
Proof.
  rewrite readInt32_eq. unfold TraceIdentifier.get.
  pose proof (u8_range (nth offset (TraceIdentifier.buffer this) x00)).
  pose proof (u8_range (nth (offset + 1) (TraceIdentifier.buffer this) x00)).
  pose proof (u8_range (nth (offset + 2) (TraceIdentifier.buffer this) x00)).
  pose proof (u8_range (nth (offset + 3) (TraceIdentifier.buffer this) x00)).
  lia.
Qed.

(** On an 8-byte buffer the two words read by [readInt32] are the two
    big-endian halves of the buffer. *)
Lemma readInt32_half (b0 b1 b2 b3 b4 b5 b6 b7 : byte) :
  let this := {| TraceIdentifier.buffer := [b0; b1; b2; b3; b4; b5; b6; b7] |} in
  TraceIdentifier.readInt32 this 0 = TraceIdentifier.half this 0
  /\ TraceIdentifier.readInt32 this 4 = TraceIdentifier.half this 4.
Proof.
  intros this. rewrite !readInt32_eq.
  unfold TraceIdentifier.half, TraceIdentifier.get, this. simpl. lia.
Qed.

Lemma value_of_bytes (content : nat -> byte) :
  let this := TraceIdentifier.of_bytes content in
  TraceIdentifier.value this
  = TraceIdentifier.readInt32 this 0 * 2 ^ 32 + TraceIdentifier.readInt32 this 4.
Proof.
  intros this. unfold TraceIdentifier.value.
  destruct (readInt32_half (content 0%nat) (content 1%nat) (content 2%nat)
              (content 3%nat) (content 4%nat) (content 5%nat) (content 6%nat)
              (content 7%nat)) as [H0 H4].
  unfold this, TraceIdentifier.of_bytes. simpl seq. simpl map.
  rewrite H0, H4. reflexivity.
Qed.

(** ** The digit conversion *)

Lemma Number_toString_digit (d radix : Z) :
  2 <= radix <= 36 -> 0 <= d < radix ->
  JS.Number_toString d radix
  = JS.Normal (String (JS.digit_char d) EmptyString).
Proof.
  intros Hr Hd. unfold JS.Number_toString.
  replace ((2 <=? radix) && (radix <=? 36)) with true
    by (symmetry; apply andb_true_intro; split; lia).
  cbn [JS.to_radix].
  rewrite (Z.div_small d radix) by lia.
  rewrite (Z.mod_small d radix) by lia. reflexivity.
Qed.

Lemma Number_toString_invalid (d radix : Z) :
  radix < 2 \/ 36 < radix ->
  JS.Number_toString d radix = JS.Throw JS.RangeError.
Proof.
  intros Hr. unfold JS.Number_toString.
  replace ((2 <=? radix) && (radix <=? 36)) with false; [reflexivity|].
  symmetry. apply andb_false_iff. lia.
Qed.

Lemma digit_value_char (d : Z) :
  0 <= d < 36 -> TraceIdentifier.digit_value (JS.digit_char d) = Some d.
Proof.
  intros Hd. rewrite <- (Z2Nat.id d) by lia.
  assert (Hn : (Z.to_nat d < 36)%nat) by lia.
  generalize dependent (Z.to_nat d). clear Hd d. intros n Hn.
  do 36 (destruct n as [|n]; [vm_compute; reflexivity|]). lia.
Qed.

(** ** Strings *)

Lemma string_append_cons (c : ascii) (s t : string) :
  String.append (String c s) t = String c (String.append s t).
Proof. reflexivity. Qed.

Lemma string_append_empty_l (t : string) : String.append EmptyString t = t.
Proof. reflexivity. Qed.

Lemma string_append_assoc (s t u : string) :
  String.append (String.append s t) u = String.append s (String.append t u).
Proof.
  induction s as [|c s IH]; [reflexivity|].
  rewrite !string_append_cons. congruence.
Qed.

Lemma string_append_empty_r (s : string) : String.append s EmptyString = s.
Proof.
  induction s as [|c s IH]; [reflexivity|].
  rewrite string_append_cons. congruence.
Qed.

Lemma parse_from_app (radix acc : Z) (s t : string) :
  TraceIdentifier.parse_from radix acc (String.append s t)
  = match TraceIdentifier.parse_from radix acc s with
    | Some a => TraceIdentifier.parse_from radix a t
    | None => None
    end.
Proof.
  revert acc. induction s as [|c s IH]; intros acc; [reflexivity|].
  rewrite string_append_cons. simpl.
  destruct (TraceIdentifier.digit_value c) as [d|]; [|reflexivity].
  destruct (d <? radix); [apply IH | reflexivity].
Qed.

(** ** The division loop of toString *)

(** One iteration divides the 64-bit value [high * 2^32 + low] by the radix
    and produces its last digit. *)
Lemma toString_step (radix high low : Z) :
  2 <= radix -> 0 <= high -> 0 <= low ->
  let mod_ := JS.rem high radix * 4294967296 + low in
  let v := high * 2 ^ 32 + low in
  0 <= JS.floor_div high radix
  /\ 0 <= JS.floor_div mod_ radix
  /\ JS.floor_div high radix * 2 ^ 32 + JS.floor_div mod_ radix = v / radix
  /\ JS.rem mod_ radix = v mod radix.
Proof.
  intros Hr Hh Hl mod_ v. unfold JS.floor_div, JS.rem in *.
  assert (Hrem : Z.rem high radix = high mod radix)
    by (apply Z.rem_mod_nonneg; lia).
  pose proof (Z.mod_pos_bound high radix ltac:(lia)) as Hm.
  assert (Hmod : 0 <= mod_) by (unfold mod_; rewrite Hrem; lia).
  assert (Hv : v = high / radix * 2 ^ 32 * radix + mod_).
  { unfold v, mod_. rewrite Hrem.
    pose proof (Z.div_mod high radix ltac:(lia)). nia. }
  repeat split.
  - apply Z.div_pos; lia.
  - apply Z.div_pos; lia.
  - rewrite Hv, Z.div_add_l by lia. reflexivity.
  - rewrite Z.rem_mod_nonneg by lia.
    rewrite Hv, Z.add_comm, Z.mod_add by lia. reflexivity.
Qed.

(** One iteration of the loop, in terms of the 64-bit value. *)
Lemma toString_loop_unfold (fuel : nat) (radix high low : Z) (str : string) :
  2 <= radix <= 36 -> 0 <= high -> 0 <= low ->
  let v := high * 2 ^ 32 + low in
  let mod_ := JS.rem high radix * 4294967296 + low in
  let str' := String (JS.digit_char (v mod radix)) str in
  TraceIdentifier.toString_loop (S fuel) radix high low str
  = if v / radix =? 0 then TraceIdentifier.Returned str'
    else TraceIdentifier.toString_loop fuel radix (JS.floor_div high radix)
           (JS.floor_div mod_ radix) str'.
Proof.
  intros Hr Hh Hl v mod_ str'.
  destruct (toString_step radix high low ltac:(lia) Hh Hl)
    as (Hh' & Hl' & Hdiv & Hdig).
  fold v mod_ in Hh', Hl', Hdiv, Hdig.
  pose proof (Z.mod_pos_bound v radix ltac:(lia)) as Hd.
  cbn [TraceIdentifier.toString_loop]. fold mod_.
  rewrite Hdig, (Number_toString_digit (v mod radix) radix) by lia.
  rewrite string_append_cons, string_append_empty_l. fold str'.
  rewrite <- Hdiv.
  destruct (Z.eqb_spec (JS.floor_div high radix) 0) as [E1|E1];
    destruct (Z.eqb_spec (JS.floor_div mod_ radix) 0) as [E2|E2]; simpl;
    destruct (Z.eqb_spec
                (JS.floor_div high radix * 2 ^ 32 + JS.floor_div mod_ radix) 0);
    first [reflexivity | lia].
Qed.

Lemma parse_last_digit (radix v : Z) :
  2 <= radix <= 36 -> 0 <= v ->
  TraceIdentifier.parse_from radix (v / radix)
    (String (JS.digit_char (v mod radix)) EmptyString) = Some v.
Proof.
  intros Hr Hv. pose proof (Z.mod_pos_bound v radix ltac:(lia)) as Hd.
  simpl. rewrite digit_value_char by lia.
  replace (v mod radix <? radix) with true by (symmetry; lia).
  f_equal. pose proof (Z.div_mod v radix ltac:(lia)). lia.
Qed.

(** The loop returns within [S fuel] iterations when the value is below
    [2 ^ S fuel]; the digits it prepends read back as the value. *)
Lemma toString_loop_returns (fuel : nat) :
  forall (radix high low : Z) (str : string),
    2 <= radix <= 36 -> 0 <= high -> 0 <= low ->
    high * 2 ^ 32 + low < 2 ^ Z.of_nat (S fuel) ->
    exists digits : string,
      TraceIdentifier.toString_loop (S fuel) radix high low str
      = TraceIdentifier.Returned (String.append digits str)
      /\ digits <> EmptyString
      /\ TraceIdentifier.parse_from radix 0 digits
         = Some (high * 2 ^ 32 + low).
Proof.
  induction fuel as [|fuel IH]; intros radix high low str Hr Hh Hl Hv;
    rewrite toString_loop_unfold by assumption;
    set (v := high * 2 ^ 32 + low) in *;
    set (c := JS.digit_char (v mod radix));
    pose proof (parse_last_digit radix v Hr ltac:(unfold v; lia)) as Hc;
    fold c in Hc;
    assert (Hq : 0 <= v / radix /\ 2 * (v / radix) <= v)
      by (pose proof (Z.div_mod v radix ltac:(lia));
          pose proof (Z.mod_pos_bound v radix ltac:(lia));
          assert (0 <= v / radix) by (apply Z.div_pos; unfold v; lia); nia);
    destruct (Z.eqb_spec (v / radix) 0) as [E|E].
  - exists (String c EmptyString). rewrite E in Hc. by repeat split.
  - change (2 ^ Z.of_nat 1) with 2 in Hv. lia.
  - exists (String c EmptyString). rewrite E in Hc. by repeat split.
  - rewrite Nat2Z.inj_succ, Z.pow_succ_r in Hv by lia.
    destruct (toString_step radix high low ltac:(lia) Hh Hl)
      as (Hh' & Hl' & Hdiv & _).
    fold v in Hdiv.
    destruct (IH radix _ _ (String c str) Hr Hh' Hl' ltac:(lia))
      as (digits & Hrun & _ & Hparse).
    exists (String.append digits (String c EmptyString)). repeat split.
    + rewrite Hrun, string_append_assoc. reflexivity.
    + destruct digits; discriminate.
    + rewrite parse_from_app, Hparse, Hdiv. exact Hc.
Qed.

Lemma toString_returns (this : TraceIdentifier.t) (radix : Z) :
  2 <= radix <= 36 ->
  exists str : string,
    TraceIdentifier.toString this radix = TraceIdentifier.Returned str
    /\ str <> EmptyString
    /\ TraceIdentifier.parse radix str
       = Some (TraceIdentifier.readInt32 this 0 * 2 ^ 32
               + TraceIdentifier.readInt32 this 4).
Proof.
  intros Hr. unfold TraceIdentifier.toString.
  pose proof (readInt32_range this 0) as H0.
  pose proof (readInt32_range this 4) as H4.
  destruct (toString_loop_returns 63 radix _ _ EmptyString Hr
              (proj1 H0) (proj1 H4)) as (digits & Hrun & Hne & Hparse).
  { change (2 ^ Z.of_nat 64) with (2 ^ 32 * 2 ^ 32). nia. }
  change (S 63) with 64%nat in Hrun.
  exists digits. rewrite string_append_empty_r in Hrun.
  repeat split; [exact Hrun | exact Hne |].
  unfold TraceIdentifier.parse. destruct digits; [congruence | exact Hparse].
Qed.

(** The numbers of one iteration stay integers below 2^53, where the
    arithmetic of JavaScript numbers is exact, and the two words stay below
    2^32. *)
Lemma toString_step_safe (radix high low : Z) :
  2 <= radix <= 36 -> 0 <= high < 2 ^ 32 -> 0 <= low < 2 ^ 32 ->
  let mod_ := JS.rem high radix * 4294967296 + low in
  0 <= mod_ < 2 ^ 53
  /\ 0 <= JS.floor_div high radix < 2 ^ 32
  /\ 0 <= JS.floor_div mod_ radix < 2 ^ 32.
Proof.
  intros Hr Hh Hl mod_. unfold JS.floor_div, JS.rem in *.
  assert (Hrem : Z.rem high radix = high mod radix)
    by (apply Z.rem_mod_nonneg; lia).
  pose proof (Z.mod_pos_bound high radix ltac:(lia)) as Hm.
  assert (Hmod : 0 <= mod_ < radix * 2 ^ 32) by (unfold mod_; rewrite Hrem; lia).
  split; [lia|]. split; split.
  - apply Z.div_pos; lia.
  - apply Z.div_lt_upper_bound; nia.
  - apply Z.div_pos; lia.
  - apply Z.div_lt_upper_bound; lia.
Qed.

(** Outside the radices accepted by the digit conversion, the first iteration
    throws. *)
Lemma toString_invalid_radix (this : TraceIdentifier.t) (radix : Z) :
  radix < 2 \/ 36 < radix ->
  TraceIdentifier.toString this radix = TraceIdentifier.Thrown JS.RangeError.
Proof.
  intros Hr. unfold TraceIdentifier.toString.
  cbn [TraceIdentifier.toString_loop].
  rewrite Number_toString_invalid by exact Hr. reflexivity.
Qed.

(** [toString] always ends within its 64 iterations. *)
Lemma toString_total (this : TraceIdentifier.t) (radix : Z) :
  TraceIdentifier.toString this radix <> TraceIdentifier.Running.
Proof.
  destruct (Z_lt_le_dec radix 2) as [Hlow|Hlow];
    [rewrite toString_invalid_radix by lia; discriminate|].
  destruct (Z_lt_le_dec 36 radix) as [Hhigh|Hhigh];
    [rewrite toString_invalid_radix by lia; discriminate|].
  destruct (toString_returns this radix ltac:(lia)) as (str & -> & _).
  discriminate.
Qed.

(** C9: every identifier built by the constructor holds a value below 2^63,
    whatever bytes the random source delivers: bit 7 of byte 0 is cleared. *)
Theorem constructor_63_bit (random : nat -> byte) :
  let this := TraceIdentifier.new random in
  0 <= TraceIdentifier.value this < 2 ^ 63
  /\ TraceIdentifier.value this
     = TraceIdentifier.readInt32 this 0 * 2 ^ 32
       + TraceIdentifier.readInt32 this 4
  /\ Z.testbit (TraceIdentifier.get (TraceIdentifier.buffer this) 0) 7 = false.
Proof.
  intros this.
  destruct (to_u8_band_127 (random 0%nat)) as (Hb & Hrange & Hbit).
  assert (Hbuf : TraceIdentifier.buffer this
                 = [TraceIdentifier.to_u8
                      (JS.band (TraceIdentifier.u8 (random 0%nat)) 127);
                    random 1%nat; random 2%nat; random 3%nat; random 4%nat;
                    random 5%nat; random 6%nat; random 7%nat]) by reflexivity.
  destruct (readInt32_half
              (TraceIdentifier.to_u8
                 (JS.band (TraceIdentifier.u8 (random 0%nat)) 127))
              (random 1%nat) (random 2%nat) (random 3%nat) (random 4%nat)
              (random 5%nat) (random 6%nat) (random 7%nat)) as [H0 H4].
  assert (Hthis : this = {| TraceIdentifier.buffer := TraceIdentifier.buffer this |})
    by (destruct this; reflexivity).
  rewrite Hbuf in Hthis. rewrite <- Hthis in H0, H4.
  assert (Hval : TraceIdentifier.value this
                 = TraceIdentifier.readInt32 this 0 * 2 ^ 32
                   + TraceIdentifier.readInt32 this 4).
  { unfold TraceIdentifier.value. rewrite H0, H4. reflexivity. }
  split; [|split; [exact Hval|]].
  - rewrite Hval. pose proof (readInt32_range this 4) as R4.
    assert (R0 : 0 <= TraceIdentifier.readInt32 this 0 < 2 ^ 31).
    { rewrite readInt32_eq, Hbuf. unfold TraceIdentifier.get. simpl nth.
      rewrite Hb.
      pose proof (u8_range (random 1%nat)). pose proof (u8_range (random 2%nat)).
      pose proof (u8_range (random 3%nat)). lia. }
    change (2 ^ 63) with (2 ^ 31 * 2 ^ 32). nia.
  - rewrite Hbuf. unfold TraceIdentifier.get. simpl nth. rewrite Hb. exact Hbit.
Qed.

(** C2: for every content of the 8-byte buffer and every radix from 2 to 36
    (the radices the digit conversion accepts), [toString] returns a string
    which, read back in that radix, is the 64-bit value of the buffer. *)
Theorem toString_roundtrip (content : nat -> byte) (radix : Z) :
  2 <= radix <= 36 ->
  exists str : string,
    TraceIdentifier.toString (TraceIdentifier.of_bytes content) radix
    = TraceIdentifier.Returned str
    /\ TraceIdentifier.parse radix str
       = Some (TraceIdentifier.value (TraceIdentifier.of_bytes content)).
Proof.
  intros Hr.
  destruct (toString_returns (TraceIdentifier.of_bytes content) radix Hr)
    as (str & Hrun & _ & Hparse).
  exists str. split; [exact Hrun|].
  rewrite Hparse. f_equal. symmetry. apply value_of_bytes.
Qed.

Lemma toString_roundtrip_witness :
  2 <= 16 <= 36
  /\ exists str : string,
       TraceIdentifier.toString
         (TraceIdentifier.of_bytes (fun i => if decide (i = 7)%nat then xff else x01))
         16
       = TraceIdentifier.Returned str
       /\ TraceIdentifier.parse 16 str
          = Some (TraceIdentifier.value
                    (TraceIdentifier.of_bytes
                       (fun i => if decide (i = 7)%nat then xff else x01))).
Proof.
  split; [lia|]. apply toString_roundtrip. lia.
Defined.

(** C10: for every content of the 8-byte buffer and every radix from 2 to
    36, [toString] returns a string that is not empty; the all-zero
    identifier gives the single digit 0, the loop body running once before
    the exit test. *)
Theorem toString_nonempty (content : nat -> byte) (radix : Z) :
  2 <= radix <= 36 ->
  (exists str : string,
     TraceIdentifier.toString (TraceIdentifier.of_bytes content) radix
     = TraceIdentifier.Returned str
     /\ str <> EmptyString)
  /\ TraceIdentifier.toString (TraceIdentifier.of_bytes (fun _ => x00)) radix
     = TraceIdentifier.Returned "0"
  /\ TraceIdentifier.toString_loop 1 radix 0 0 EmptyString
     = TraceIdentifier.Returned "0".
Proof.
  intros Hr. split; [|split].
  - destruct (toString_returns (TraceIdentifier.of_bytes content) radix Hr)
      as (str & Hrun & Hne & _).
    exists str. by split.
  - unfold TraceIdentifier.toString.
    change (TraceIdentifier.readInt32 (TraceIdentifier.of_bytes (fun _ => x00)) 0)
      with 0.
    change (TraceIdentifier.readInt32 (TraceIdentifier.of_bytes (fun _ => x00)) 4)
      with 0.
    rewrite toString_loop_unfold by lia.
    rewrite Z.div_small, Z.mod_small by lia. reflexivity.
  - rewrite toString_loop_unfold by lia.
    rewrite Z.div_small, Z.mod_small by lia. reflexivity.
Qed.

Lemma toString_nonempty_witness :
  2 <= 10 <= 36
  /\ TraceIdentifier.toString (TraceIdentifier.of_bytes (fun _ => x00)) 10
     = TraceIdentifier.Returned "0".
Proof.
  split; [lia|]. apply (toString_nonempty (fun _ => x00) 10). lia.
Defined.

(** ** The batch *)

Section BatchProofs.

Context {Message Context_ : Type}.
Variable stringify : Message -> Context_ -> string.

Lemma flush_nonempty (this : Transport.Batch) :
  Transport.buffer this <> [] ->
  Transport.flush this
  = {| Transport.buffer := [];
       Transport.bufferBytesSize := 0;
       Transport.request :=
         Transport.send
           (Transport.join Transport.newline (Transport.buffer this))
           (Transport.bufferBytesSize this
            + Z.of_nat (length (Transport.buffer this)) - 1)
           (Transport.request this);
       Transport.maxSize := Transport.maxSize this;
       Transport.bytesLimit := Transport.bytesLimit this |}.
Proof.
  intros Hne. unfold Transport.flush.
  destruct (Transport.buffer this) as [|record rest]; [congruence|].
  reflexivity.
Qed.

Lemma flush_empty (this : Transport.Batch) :
  Transport.buffer this = [] -> Transport.flush this = this.
Proof. intros He. unfold Transport.flush. rewrite He. reflexivity. Qed.

Lemma flush_limits (this : Transport.Batch) :
  Transport.maxSize (Transport.flush this) = Transport.maxSize this
  /\ Transport.bytesLimit (Transport.flush this) = Transport.bytesLimit this.
Proof.
  unfold Transport.flush.
  destruct (negb (Z.of_nat (length (Transport.buffer this)) =? 0)); auto.
Qed.

Lemma flush_buffer (this : Transport.Batch) :
  Transport.buffer (Transport.flush this) = [].
Proof.
  destruct (Transport.buffer this) as [|record rest] eqn:Hb.
  - rewrite flush_empty; assumption.
  - rewrite flush_nonempty; [reflexivity | congruence].
Qed.

Lemma within_limits_flush (this : Transport.Batch) :
  within_limits this -> within_limits (Transport.flush this).
Proof.
  intros Hthis.
  destruct (Transport.buffer this) as [|record rest] eqn:Hb.
  - rewrite flush_empty; assumption.
  - rewrite flush_nonempty by congruence. right. auto.
Qed.

Lemma within_limits_add (context : Context_) (message : Message)
    (this : Transport.Batch) :
  1 <= Transport.maxSize this ->
  within_limits this ->
  within_limits (Transport.add stringify context message this).
Proof.
  intros Hmax Hthis. unfold Transport.add, Transport.process.
  set (m := Transport.sizeInBytes (stringify message context)).
  set (this1 := if Transport.willReachedBytesLimitWith m this
                then Transport.flush this else this).
  assert (H1 : within_limits this1 /\ 1 <= Transport.maxSize this1).
  { unfold this1.
    destruct (Transport.willReachedBytesLimitWith m this).
    - split; [by apply within_limits_flush|].
      by rewrite (proj1 (flush_limits this)).
    - by split. }
  destruct H1 as [H1 Hmax1].
  set (this2 := Transport.push (stringify message context) m this1).
  assert (Hlen : Z.of_nat (length (Transport.buffer this2))
                 <= Transport.maxSize this2).
  { unfold this2, Transport.push. cbn. rewrite length_app. cbn.
    destruct H1 as [[Hl _]|[He _]]; [lia | rewrite He; cbn; lia]. }
  destruct (Transport.isFull this2) eqn:Hfull.
  - right. rewrite flush_nonempty.
    + auto.
    + unfold this2, Transport.push. cbn.
      destruct (Transport.buffer this1); discriminate.
  - left. unfold Transport.isFull in Hfull.
    apply orb_false_elim in Hfull as [Hn Hb]. lia.
Qed.

Lemma calls_cons (c : Transport.Call (Message := Message))
    (cs : list Transport.Call) (this : Transport.Batch) :
  Transport.calls stringify (c :: cs) this
  = Transport.calls stringify cs (Transport.call stringify c this).
Proof. reflexivity. Qed.

Lemma calls_limits (cs : list (Transport.Call (Message := Message)))
    (this : Transport.Batch) :
  Transport.maxSize (Transport.calls stringify cs this)
  = Transport.maxSize this
  /\ Transport.bytesLimit (Transport.calls stringify cs this)
     = Transport.bytesLimit this.
Proof.
  revert this. induction cs as [|c cs IH]; intros this; [by split|].
  rewrite calls_cons.
  destruct (IH (Transport.call stringify c this)) as [-> ->].
  destruct c as [context message|]; cbn [Transport.call].
  - unfold Transport.add, Transport.process.
    set (m := Transport.sizeInBytes (stringify message context)).
    destruct (Transport.willReachedBytesLimitWith m this);
      match goal with
      | |- context [if Transport.isFull ?b then _ else _] =>
          destruct (Transport.isFull b)
      end;
      rewrite ?(proj1 (flush_limits _)), ?(proj2 (flush_limits _)); cbn;
      rewrite ?(proj1 (flush_limits _)), ?(proj2 (flush_limits _)); auto.
  - apply flush_limits.
Qed.

Lemma within_limits_calls (cs : list (Transport.Call (Message := Message)))
    (this : Transport.Batch) :
  1 <= Transport.maxSize this ->
  within_limits this ->
  within_limits (Transport.calls stringify cs this).
Proof.
  revert this. induction cs as [|c cs IH]; intros this Hmax Hthis; [done|].
  rewrite calls_cons. apply IH.
  - destruct (calls_limits [c] this) as [E _].
    rewrite calls_cons in E. change (Transport.calls stringify [] ?b) with b in E.
    by rewrite E.
  - destruct c as [context message|]; cbn [Transport.call].
    + by apply within_limits_add.
    + by apply within_limits_flush.
Qed.

End BatchProofs.

Section BatchAccounting.

Context {Message Context_ : Type}.
Variable stringify : Message -> Context_ -> string.

Lemma total_bytes_snoc (records : list string) (record : string) :
  Transport.total_bytes (records ++ [record])
  = Transport.total_bytes records + Transport.sizeInBytes record.
Proof.
  induction records as [|r records IH]; cbn [app]; [cbn; lia|].
  change (Transport.total_bytes (r :: ?l))
    with (Transport.sizeInBytes r + Transport.total_bytes l).
  lia.
Qed.

Lemma accounted_flush (this : Transport.Batch) :
  accounted this -> accounted (Transport.flush this).
Proof.
  intros Hthis. destruct (Transport.buffer this) as [|record rest] eqn:Hb.
  - rewrite flush_empty; assumption.
  - rewrite flush_nonempty by congruence. reflexivity.
Qed.

Lemma accounted_push (record : string) (this : Transport.Batch) :
  accounted this ->
  accounted (Transport.push record (Transport.sizeInBytes record) this).
Proof.
  unfold accounted, Transport.push. cbn. intros ->.
  by rewrite total_bytes_snoc.
Qed.

Lemma accounted_add (context : Context_) (message : Message)
    (this : Transport.Batch) :
  accounted this -> accounted (Transport.add stringify context message this).
Proof.
  intros Hthis. unfold Transport.add, Transport.process.
  destruct (Transport.willReachedBytesLimitWith _ this);
    match goal with
    | |- context [if Transport.isFull ?b then _ else _] =>
        destruct (Transport.isFull b)
    end;
    auto using accounted_flush, accounted_push.
Qed.

Lemma accounted_calls (cs : list (Transport.Call (Message := Message)))
    (this : Transport.Batch) :
  accounted this -> accounted (Transport.calls stringify cs this).
Proof.
  revert this. induction cs as [|c cs IH]; intros this Hthis; [done|].
  rewrite calls_cons. apply IH.
  destruct c; cbn [Transport.call]; auto using accounted_flush, accounted_add.
Qed.

Lemma string_length_append (s t : string) :
  String.length (String.append s t)
  = (String.length s + String.length t)%nat.
Proof.
  induction s as [|c s IH]; [reflexivity|].
  rewrite string_append_cons. cbn. by rewrite IH.
Qed.

(** The joined payload has one separator byte per boundary. *)
Lemma join_size (records : list string) :
  records <> [] ->
  Transport.sizeInBytes (Transport.join Transport.newline records)
  = Transport.total_bytes records + Z.of_nat (length records) - 1.
Proof.
  induction records as [|r records IH]; [congruence|]. intros _.
  destruct records as [|r' records].
  - cbn. lia.
  - specialize (IH ltac:(discriminate)).
    change (Transport.join Transport.newline (r :: r' :: records))
      with (String.append r (String.append Transport.newline
              (Transport.join Transport.newline (r' :: records)))).
    unfold Transport.sizeInBytes in *.
    rewrite !string_length_append.
    change (Transport.total_bytes (r :: r' :: records))
      with (Z.of_nat (String.length r)
            + Transport.total_bytes (r' :: records)).
    change (String.length Transport.newline) with 1%nat.
    change (length (r :: r' :: records)) with (S (length (r' :: records))).
    lia.
Qed.

(** Adding a record that neither reaches the byte limit nor fills the
    buffer only appends it. *)
Lemma add_appends (context : Context_) (message : Message)
    (this : Transport.Batch) :
  let record := stringify message context in
  Transport.bufferBytesSize this + Transport.sizeInBytes record
  + Z.of_nat (length (Transport.buffer this)) < Transport.bytesLimit this ->
  Z.of_nat (length (Transport.buffer this)) + 1 <> Transport.maxSize this ->
  Transport.add stringify context message this
  = Transport.push record (Transport.sizeInBytes record) this.
Proof.
  intros record Hbytes Hcount. unfold Transport.add, Transport.process.
  fold record. unfold Transport.willReachedBytesLimitWith.
  destruct (Z.leb_spec (Transport.bytesLimit this)
              (Transport.bufferBytesSize this + Transport.sizeInBytes record
               + Z.of_nat (length (Transport.buffer this)))); [lia|].
  unfold Transport.isFull, Transport.push. cbn. rewrite length_app. cbn.
  destruct (Z.eqb_spec (Z.of_nat (length (Transport.buffer this) + 1))
              (Transport.maxSize this)); [lia|].
  destruct (Z.leb_spec (Transport.bytesLimit this)
              (Transport.bufferBytesSize this + Transport.sizeInBytes record));
    [lia | reflexivity].
Qed.

(** Five-byte records appended to a batch of limits 10 and 100, while it
    holds at most nine of them afterwards. *)
Lemma add_five_byte_records (adds : list (Context_ * Message))
    (this : Transport.Batch) :
  Transport.maxSize this = 10 ->
  Transport.bytesLimit this = 100 ->
  Transport.bufferBytesSize this
  = 5 * Z.of_nat (length (Transport.buffer this)) ->
  Forall (fun cm => Transport.sizeInBytes (stringify cm.2 cm.1) = 5) adds ->
  (length (Transport.buffer this) + length adds <= 9)%nat ->
  Transport.calls stringify
    (map (fun cm => Transport.Add cm.1 cm.2) adds) this
  = {| Transport.buffer :=
         Transport.buffer this ++ map (fun cm => stringify cm.2 cm.1) adds;
       Transport.bufferBytesSize :=
         Transport.bufferBytesSize this + 5 * Z.of_nat (length adds);
       Transport.request := Transport.request this;
       Transport.maxSize := 10;
       Transport.bytesLimit := 100 |}.
Proof.
  revert this.
  induction adds as [|[context message] adds IH];
    intros this Hmax Hlimit Hbytes Hsizes Hlen.
  - cbn. rewrite app_nil_r, Z.add_0_r. destruct this; cbn in *. congruence.
  - apply Forall_cons in Hsizes as [Hsize Hsizes]. cbn in Hsize, Hlen.
    cbn [map]. rewrite calls_cons. cbn [Transport.call fst snd].
    rewrite add_appends by (rewrite ?Hsize, ?Hmax, ?Hlimit, ?Hbytes; lia).
    rewrite IH; cbn; rewrite ?length_app; cbn; try assumption; try lia.
    rewrite <- app_assoc. cbn. rewrite Hsize. f_equal. lia.
Qed.

End BatchAccounting.

(** C4: after every [add], whatever calls of [add] and [flush] came before
    and whatever the size of the message, the batch holds at most [maxSize]
    records and at most [bytesLimit] bytes. *)
Theorem add_within_limits {Message Context_ : Type}
    (stringify : Message -> Context_ -> string)
    (request : Transport.HttpRequest) (maxSize bytesLimit : Z)
    (cs : list (Transport.Call (Message := Message)))
    (context : Context_) (message : Message) :
  1 <= maxSize -> 0 <= bytesLimit ->
  let this :=
    Transport.add stringify context message
      (Transport.calls stringify cs (Transport.new request maxSize bytesLimit)) in
  Z.of_nat (length (Transport.buffer this)) <= maxSize
  /\ Transport.bufferBytesSize this <= bytesLimit.
Proof.
  intros Hmax Hlimit this.
  set (before := Transport.calls stringify cs
                   (Transport.new request maxSize bytesLimit)).
  destruct (calls_limits stringify cs
              (Transport.new request maxSize bytesLimit)) as [Em El].
  fold before in Em, El. cbn in Em, El.
  assert (Hbefore : within_limits before).
  { apply within_limits_calls; [cbn; lia | right; by split]. }
  assert (Hthis : within_limits this).
  { apply within_limits_add; [fold before; lia | exact Hbefore]. }
  destruct (calls_limits stringify [Transport.Add context message] before)
    as [Em' El'].
  change (Transport.calls stringify [Transport.Add context message] before)
    with this in Em', El'.
  rewrite Em in Em'. rewrite El in El'.
  destruct Hthis as [[Hn Hb]|[He Hb]].
  - lia.
  - rewrite He, Hb. cbn. lia.
Qed.

Lemma add_within_limits_witness :
  let stringify := fun (message : string) (_ : unit) => message in
  let request := {| Transport.endpointUrl := "https://example.org/v1/input";
                    Transport.request_bytesLimit := 4;
                    Transport.sendBeacon := true;
                    Transport.deliveries := [] |}%string in
  (1 <= 2 /\ 0 <= 4)
  /\ let this :=
       Transport.add stringify tt "a message of more than four bytes"%string
         (Transport.calls stringify
            [Transport.Add tt "a"%string; Transport.Flush;
             Transport.Add tt "b"%string]
            (Transport.new request 2 4)) in
     Z.of_nat (length (Transport.buffer this)) <= 2
     /\ Transport.bufferBytesSize this <= 4.
Proof.
  intros stringify request. split; [lia|].
  apply (add_within_limits stringify request 2 4); lia.
Defined.

(** C5: with a limit of 100 bytes and 10 records, nine records of 5 bytes
    are buffered without any delivery (45 bytes); a tenth record of 60 bytes
    makes the batch deliver the nine buffered records, once, before it is
    appended, and is then the only record in the buffer. *)
Theorem nine_records_then_a_large_one {Message Context_ : Type}
    (stringify : Message -> Context_ -> string)
    (request : Transport.HttpRequest)
    (adds : list (Context_ * Message))
    (context : Context_) (message : Message) :
  length adds = 9%nat ->
  Forall (fun cm => Transport.sizeInBytes (stringify cm.2 cm.1) = 5) adds ->
  Transport.sizeInBytes (stringify message context) = 60 ->
  let records := map (fun cm => stringify cm.2 cm.1) adds in
  let nine :=
    Transport.calls stringify (map (fun cm => Transport.Add cm.1 cm.2) adds)
      (Transport.new request 10 100) in
  let ten := Transport.add stringify context message nine in
  (Transport.deliveries (Transport.request nine) = Transport.deliveries request
   /\ Transport.buffer nine = records
   /\ Transport.bufferBytesSize nine = 45)
  /\ (exists channel,
        Transport.deliveries (Transport.request ten)
        = Transport.deliveries request
          ++ [{| Transport.channel := channel;
                 Transport.data := Transport.join Transport.newline records;
                 Transport.size := 53 |}])
  /\ Transport.buffer ten = [stringify message context]
  /\ Transport.bufferBytesSize ten = 60.
Proof.
  intros Hlen Hsizes Hsize records nine ten.
  assert (Hnine : nine
                  = {| Transport.buffer := records;
                       Transport.bufferBytesSize := 45;
                       Transport.request := request;
                       Transport.maxSize := 10;
                       Transport.bytesLimit := 100 |}).
  { unfold nine. rewrite add_five_byte_records; cbn; try done; try lia.
    by rewrite Hlen. }
  assert (Hrecords : length records = 9%nat)
    by (unfold records; by rewrite length_map).
  assert (Hne : records <> []) by (destruct records; [discriminate | done]).
  split; [by rewrite Hnine|].
  unfold ten, Transport.add, Transport.process. rewrite Hsize, Hnine.
  unfold Transport.willReachedBytesLimitWith. cbn [Transport.bytesLimit
    Transport.bufferBytesSize Transport.buffer]. rewrite Hrecords.
  change (100 <=? 45 + 60 + Z.of_nat 9) with true. cbn match.
  rewrite flush_nonempty by exact Hne.
  cbn [Transport.bytesLimit Transport.bufferBytesSize Transport.buffer
       Transport.maxSize Transport.request]. rewrite Hrecords.
  unfold Transport.push, Transport.isFull. cbn. repeat split.
  eexists. reflexivity.
Qed.

Lemma nine_records_then_a_large_one_witness :
  let stringify := fun (message : string) (_ : unit) => message in
  let request := {| Transport.endpointUrl := "https://example.org/v1/input";
                    Transport.request_bytesLimit := 100;
                    Transport.sendBeacon := true;
                    Transport.deliveries := [] |}%string in
  let adds := replicate 9 (tt, "12345"%string) in
  let large :=
    "123456789012345678901234567890123456789012345678901234567890"%string in
  let nine :=
    Transport.calls stringify (map (fun cm => Transport.Add cm.1 cm.2) adds)
      (Transport.new request 10 100) in
  let ten := Transport.add stringify tt large nine in
  Transport.buffer nine = replicate 9 "12345"%string
  /\ Transport.deliveries (Transport.request nine) = []
  /\ length (Transport.deliveries (Transport.request ten)) = 1%nat
  /\ Transport.buffer ten = [large].
Proof.
  intros stringify request adds large nine ten.
  assert (Hsizes : Forall (fun cm : unit * string =>
                             Transport.sizeInBytes (stringify cm.2 cm.1) = 5)
                          adds) by (repeat constructor).
  destruct (nine_records_then_a_large_one stringify request adds tt large
              eq_refl Hsizes eq_refl)
    as ((Hd & Hb & _) & (channel & Hten) & Hb' & _).
  split; [exact Hb|]. split; [exact Hd|]. split; [|exact Hb'].
  fold nine ten in Hten. rewrite Hten. reflexivity.
Defined.

(** C6: on a batch that holds [n > 0] records, [flush] makes one call of the
    transport, with the records joined by newlines in buffer order and with
    the sum of their byte sizes plus [n - 1] as the size (which is the byte
    size of the payload), and empties the buffer; on an empty batch it
    changes nothing and delivers nothing. *)
Theorem flush_delivers_buffer {Message Context_ : Type}
    (stringify : Message -> Context_ -> string)
    (request : Transport.HttpRequest) (maxSize bytesLimit : Z)
    (cs : list (Transport.Call (Message := Message))) :
  let this :=
    Transport.calls stringify cs (Transport.new request maxSize bytesLimit) in
  let records := Transport.buffer this in
  let n := Z.of_nat (length records) in
  match records with
  | [] =>
      Transport.flush this = this /\ Transport.bufferBytesSize this = 0
  | _ :: _ =>
      (exists channel,
         Transport.deliveries (Transport.request (Transport.flush this))
         = Transport.deliveries (Transport.request this)
           ++ [{| Transport.channel := channel;
                  Transport.data := Transport.join Transport.newline records;
                  Transport.size := Transport.total_bytes records + n - 1 |}])
      /\ Transport.sizeInBytes (Transport.join Transport.newline records)
         = Transport.total_bytes records + n - 1
      /\ Transport.buffer (Transport.flush this) = []
      /\ Transport.bufferBytesSize (Transport.flush this) = 0
  end.
Proof.
  intros this records n.
  assert (Hacc : accounted this).
  { apply accounted_calls. reflexivity. }
  unfold accounted in Hacc. fold records in Hacc.
  destruct records as [|record rest] eqn:Hrecords.
  - split; [by apply flush_empty | exact Hacc].
  - assert (Hne : Transport.buffer this <> [])
      by (unfold records in Hrecords; congruence).
    rewrite flush_nonempty by exact Hne.
    cbn [Transport.request Transport.buffer Transport.bufferBytesSize].
    unfold records in Hrecords. rewrite Hrecords, Hacc.
    repeat split.
    + eexists. unfold Transport.send. cbn [Transport.deliveries]. reflexivity.
    + apply join_size. discriminate.
Qed.

(** ** Header injection *)

Section TraceXhr.

Variable window : SpanCollection.Window.
Variable random : nat -> byte.
Variable xhr : SpanCollection.XMLHttpRequest.

(** With an active scope of the upstream tracer, the request is left as it
    is and the tracer's identifier is returned. *)
Lemma traceXhr_tracer (tracerId : TraceIdentifier.t) :
  SpanCollection.ddtrace window = Some (Some tracerId) ->
  SpanCollection.traceXhr window random xhr = (Some tracerId, xhr).
Proof.
  intros Htracer.
  unfold SpanCollection.traceXhr, SpanCollection.traceAndInject.
  rewrite Htracer. reflexivity.
Qed.

(** Without one, the guard compares the global [origin] with the origin of
    the page; when they are equal the five headers are set. *)
Lemma traceXhr_injects :
  (SpanCollection.ddtrace window = None
   \/ SpanCollection.ddtrace window = Some None) ->
  SpanCollection.origin window = SpanCollection.location_origin window ->
  let traceId := TraceIdentifier.new random in
  let strId := TraceIdentifier.toString_value traceId 10 in
  (SpanCollection.traceXhr window random xhr).1 = Some traceId
  /\ SpanCollection.requestHeaders
       (SpanCollection.traceXhr window random xhr).2
     = SpanCollection.requestHeaders xhr
       ++ [("x-datadog-trace-id", strId); ("x-datadog-parent-id", strId);
           ("x-datadog-origin", "rum"); ("x-datadog-sampling-priority", "1");
           ("x-datadog-sampled", "1")]%string.
Proof.
  intros Htracer Horigin traceId strId.
  unfold SpanCollection.traceXhr, SpanCollection.traceAndInject.
  rewrite Horigin, String.eqb_refl.
  destruct Htracer as [-> | ->]; cbn; rewrite <- !app_assoc; by split.
Qed.

Lemma traceXhr_guarded :
  (SpanCollection.ddtrace window = None
   \/ SpanCollection.ddtrace window = Some None) ->
  SpanCollection.origin window <> SpanCollection.location_origin window ->
  SpanCollection.traceXhr window random xhr = (None, xhr).
Proof.
  intros Htracer Horigin.
  unfold SpanCollection.traceXhr, SpanCollection.traceAndInject.
  apply String.eqb_neq in Horigin. rewrite Horigin.
  by destruct Htracer as [-> | ->].
Qed.

Lemma attached_nothing : SpanCollection.attached xhr xhr = [].
Proof.
  unfold SpanCollection.attached.
  rewrite <- (length_map fst), drop_all. reflexivity.
Qed.

Lemma attached_suffix (after : SpanCollection.XMLHttpRequest)
    (headers : list (string * string)) :
  SpanCollection.requestHeaders after
  = SpanCollection.requestHeaders xhr ++ headers ->
  SpanCollection.attached xhr after
  = filter (fun h => h ∈ SpanCollection.datadog_headers) (map fst headers).
Proof.
  intros Hafter. unfold SpanCollection.attached.
  rewrite Hafter, map_app, <- (length_map fst), drop_app_length.
  reflexivity.
Qed.

End TraceXhr.

(** The decimal string of an identifier exists: [toString (10)] returns. *)
Lemma toString_10 (this : TraceIdentifier.t) :
  TraceIdentifier.toString this 10
  = TraceIdentifier.Returned (TraceIdentifier.toString_value this 10)
  /\ TraceIdentifier.toString_value this 10 <> EmptyString.
Proof.
  destruct (toString_returns this 10 ltac:(lia)) as (str & Hrun & Hne & _).
  unfold TraceIdentifier.toString_value. rewrite Hrun. by split.
Qed.

(** C3, as amended: for a request to the page's own origin, [traceXhr]
    attaches none of the five headers and returns the tracer's identifier
    when the upstream tracer has an active scope; when it has none and the
    global [origin] is the origin of the page, it attaches all five, in the
    order trace id, parent id, origin, sampling priority, sampled. *)
Theorem traceXhr_same_origin (window : SpanCollection.Window)
    (random : nat -> byte) (xhr : SpanCollection.XMLHttpRequest) :
  SpanCollection.same_origin window xhr ->
  match SpanCollection.ddtrace window with
  | Some (Some tracerId) =>
      SpanCollection.traceXhr window random xhr = (Some tracerId, xhr)
      /\ SpanCollection.attached xhr
           (SpanCollection.traceXhr window random xhr).2 = []
  | _ =>
      SpanCollection.origin window = SpanCollection.location_origin window ->
      SpanCollection.attached xhr (SpanCollection.traceXhr window random xhr).2
      = SpanCollection.datadog_headers
      /\ (SpanCollection.traceXhr window random xhr).1
         = Some (TraceIdentifier.new random)
  end.
Proof.
  intros _.
  destruct (SpanCollection.ddtrace window) as [[tracerId|]|] eqn:Htracer.
  - rewrite (traceXhr_tracer window random xhr tracerId Htracer).
    split; [reflexivity | apply attached_nothing].
  - intros Horigin.
    destruct (traceXhr_injects window random xhr (or_intror Htracer) Horigin)
      as [Hid Hheaders].
    split; [|exact Hid].
    rewrite (attached_suffix xhr _ _ Hheaders). reflexivity.
  - intros Horigin.
    destruct (traceXhr_injects window random xhr (or_introl Htracer) Horigin)
      as [Hid Hheaders].
    split; [|exact Hid].
    rewrite (attached_suffix xhr _ _ Hheaders). reflexivity.
Qed.

Lemma traceXhr_same_origin_witness :
  let window := example_window None in
  let xhr := example_xhr "app.example.com" in
  SpanCollection.same_origin window xhr
  /\ SpanCollection.attached xhr
       (SpanCollection.traceXhr window example_random xhr).2
     = SpanCollection.datadog_headers.
Proof.
  intros window xhr.
  assert (Hsame : SpanCollection.same_origin window xhr) by reflexivity.
  split; [exact Hsame|].
  exact (proj1 (traceXhr_same_origin window example_random xhr Hsame eq_refl)).
Defined.

(** C3, as stated, fails on a request to the page's own origin while the
    upstream tracer has an active scope: none of the five headers is set. *)
Lemma traceXhr_same_origin_tracer_active :
  let window := example_window (Some (Some (TraceIdentifier.of_bytes (fun _ => x01)))) in
  let xhr := example_xhr "app.example.com" in
  SpanCollection.same_origin window xhr
  /\ SpanCollection.attached xhr
       (SpanCollection.traceXhr window example_random xhr).2 = []
  /\ SpanCollection.attached xhr
       (SpanCollection.traceXhr window example_random xhr).2
     <> SpanCollection.datadog_headers.
Proof.
  intros window xhr. split; [reflexivity|]. split; [reflexivity|].
  discriminate.
Qed.

(** The guard of [traceXhr] does not read the destination of the request: a
    request to another origin gets the same five headers. *)
Example traceXhr_other_origin :
  let window := example_window None in
  let xhr := example_xhr "api.other.org" in
  SpanCollection.cross_origin window xhr
  /\ SpanCollection.attached xhr
       (SpanCollection.traceXhr window example_random xhr).2
     = SpanCollection.datadog_headers.
Proof.
  intros window xhr. split; [|reflexivity].
  unfold SpanCollection.cross_origin, xhr, example_xhr. cbn. discriminate.
Qed.

(** ** The installer *)

Lemma startRequestCollection_sets_singleton (g : RequestCollection.Globals) :
  RequestCollection.requestObservablesSingleton
    (RequestCollection.startRequestCollection g).2
  = Some (RequestCollection.startRequestCollection g).1.
Proof.
  unfold RequestCollection.startRequestCollection.
  destruct (RequestCollection.requestObservablesSingleton g) eqn:Hg;
    [exact Hg|].
  cbn. unfold RequestCollection.trackFetch_install. cbn.
  destruct (RequestCollection.window_fetch g); reflexivity.
Qed.

Lemma startRequestCollection_installed (g : RequestCollection.Globals)
    (observables : RequestCollection.RequestObservables) :
  RequestCollection.requestObservablesSingleton g = Some observables ->
  RequestCollection.startRequestCollection g = (observables, g).
Proof.
  intros Hg. unfold RequestCollection.startRequestCollection.
  rewrite Hg. reflexivity.
Qed.

(** C7: after a first call of [startRequestCollection], any number of
    further calls return the same pair of observables and leave the call
    surfaces as the first call left them: each surface wraps the surface
    found by the first call, saved once. *)
Theorem startRequestCollection_idempotent (g : RequestCollection.Globals)
    (n : nat) :
  let first := RequestCollection.startRequestCollection g in
  let last := RequestCollection.startRequestCollection_again n first in
  last = first
  /\ match RequestCollection.requestObservablesSingleton g with
     | Some observables => last = (observables, g)
     | None =>
         RequestCollection.XMLHttpRequest_open last.2
         = RequestCollection.Wrapped
             (RequestCollection.XMLHttpRequest_open g) first.1
         /\ RequestCollection.XMLHttpRequest_send last.2
            = RequestCollection.Wrapped
                (RequestCollection.XMLHttpRequest_send g) first.1
         /\ RequestCollection.window_fetch last.2
            = (fun originalFetch =>
                 RequestCollection.Wrapped originalFetch first.1)
              <$> RequestCollection.window_fetch g
     end.
Proof.
  intros first last.
  assert (Hlast : last = first).
  { unfold last. induction n as [|n IH]; [reflexivity|].
    cbn [RequestCollection.startRequestCollection_again].
    rewrite (startRequestCollection_installed first.2 first.1)
      by apply startRequestCollection_sets_singleton.
    destruct first; exact IH. }
  split; [exact Hlast|]. rewrite Hlast. unfold first.
  unfold RequestCollection.startRequestCollection.
  destruct (RequestCollection.requestObservablesSingleton g) eqn:Hg;
    [reflexivity|].
  cbn. unfold RequestCollection.trackFetch_install. cbn.
  destruct (RequestCollection.window_fetch g); by repeat split.
Qed.

(** On a page where nothing is installed yet, every surface carries exactly
    one wrapper after any number of calls. *)
Corollary startRequestCollection_wraps_once (n : nat) :
  let g := {| RequestCollection.requestObservablesSingleton := None;
              RequestCollection.created := 0;
              RequestCollection.XMLHttpRequest_open := RequestCollection.Native;
              RequestCollection.XMLHttpRequest_send := RequestCollection.Native;
              RequestCollection.window_fetch := Some RequestCollection.Native |} in
  let last := RequestCollection.startRequestCollection_again n
                (RequestCollection.startRequestCollection g) in
  RequestCollection.wrappers (RequestCollection.XMLHttpRequest_open last.2) = 1%nat
  /\ RequestCollection.wrappers (RequestCollection.XMLHttpRequest_send last.2) = 1%nat
  /\ (RequestCollection.wrappers <$> RequestCollection.window_fetch last.2) = Some 1%nat
  /\ RequestCollection.created last.2 = 2%nat.
Proof.
  intros g last.
  assert (Hlast : last = RequestCollection.startRequestCollection g).
  { unfold last. induction n as [|n IH]; [reflexivity|].
    cbn [RequestCollection.startRequestCollection_again]. exact IH. }
  rewrite Hlast. by repeat split.
Qed.

(** ** Request ids and completion reports *)

Section RequestProofs.

Context {Error StackTrace Headers : Type}.
Variable normalizeUrl : SpanCollection.Url -> string.
Variable computeStackTrace : Error -> StackTrace.
Variable toStackTraceString : StackTrace -> string.
Variable empty_headers : Headers.
Variable has_set : Headers -> bool.
Variable headers_set : string -> option string -> Headers -> Headers.
Variable assign : Headers -> list (string * string) -> Headers.

Local Abbreviation Action :=
  (RequestCollection.Action (Error := Error) (Headers := Headers)).
Local Abbreviation step :=
  (RequestCollection.step normalizeUrl computeStackTrace toStackTraceString
     empty_headers has_set headers_set assign).
Local Abbreviation run :=
  (RequestCollection.run normalizeUrl computeStackTrace toStackTraceString
     empty_headers has_set headers_set assign).

Lemma reportXhr_effect (a : Action) (i : nat)
    (this : SpanCollection.XMLHttpRequest) (now : Z)
    (s : RequestCollection.Requests) :
  completes i a = true ->
  effect a s
    (RequestCollection.monitor
       (RequestCollection.reportXhr normalizeUrl i this now s)).1.
Proof.
  intros Ha. unfold RequestCollection.reportXhr.
  destruct (RequestCollection.xhrCalls s !! i) as [call|] eqn:Hcall;
    [|constructor].
  destruct (RequestCollection.hasBeenReported call) eqn:Hlatch;
    [constructor|].
  destruct (SpanCollection._datadog_xhr this) as [[method url]|]; cbn.
  - by apply effect_report.
  - by apply effect_latch.
Qed.

Lemma step_effect (a : Action) (s : RequestCollection.Requests) :
  effect a s (step a s).
Proof.
  destruct a as [[o1 o2] window random now this | i this now | i this now
                | [o1 o2] window random now input init | i value now].
  - cbn. destruct (SpanCollection.traceXhr window random this) as [t x].
    cbn. by apply (effect_send _ s o1).
  - cbn. unfold RequestCollection.onreadystatechange.
    destruct (Z.eqb_spec (SpanCollection.readyState this) SpanCollection.DONE)
      as [Hdone|]; [|constructor].
    apply reportXhr_effect. cbn. rewrite Hdone.
    by rewrite bool_decide_eq_true_2.
  - cbn. unfold RequestCollection.loadend.
    apply reportXhr_effect. cbn. by rewrite bool_decide_eq_true_2.
  - cbn. unfold RequestCollection.fetch. cbn.
    destruct (SpanCollection.traceFetch _ _ _ _ window random init)
      as [tracerId | [init'|] | init' traceId]; cbn;
      first [ by apply (effect_fetch _ s o1) | apply effect_id ].
  - cbn. unfold RequestCollection.settle.
    destruct (RequestCollection.fetchCalls s !! i) as [call|] eqn:Hcall;
      [|constructor].
    destruct (RequestCollection.promise call) eqn:Hpromise; [|constructor].
    destruct value as [e | r |]; cbn.
    + apply effect_settle_report; cbn; try done.
      by rewrite bool_decide_eq_true_2.
    + apply effect_settle_report; cbn; try done.
      by rewrite bool_decide_eq_true_2.
    + apply effect_settle; cbn; try done.
      by rewrite bool_decide_eq_true_2.
Qed.

(** *** Request ids are unique *)

Lemma consistent_initial : consistent RequestCollection.initial.
Proof. split; cbn; constructor. Qed.

Lemma xhr_ids_latch (l : list RequestCollection.XhrCall) (j : nat)
    (call : RequestCollection.XhrCall) (b : bool) :
  l !! j = Some call ->
  RequestCollection.xhr_requestId
    <$> <[j := RequestCollection.set_hasBeenReported b call]> l
  = RequestCollection.xhr_requestId <$> l.
Proof.
  intros Hj. rewrite list_fmap_insert. cbn.
  apply list_insert_id. by rewrite list_lookup_fmap, Hj.
Qed.

Lemma fetch_ids_settle (l : list RequestCollection.FetchCall) (j : nat)
    (call : RequestCollection.FetchCall) (p : RequestCollection.PromiseState) :
  l !! j = Some call ->
  RequestCollection.fetch_requestId
    <$> <[j := RequestCollection.set_promise p call]> l
  = RequestCollection.fetch_requestId <$> l.
Proof.
  intros Hj. rewrite list_fmap_insert. cbn.
  apply list_insert_id. by rewrite list_lookup_fmap, Hj.
Qed.

Lemma below_fresh (n : Z) (l : list Z) :
  Forall (fun x => x < n) l -> n ∉ l.
Proof.
  intros Hl Hn. rewrite Forall_forall in Hl. specialize (Hl n Hn). lia.
Qed.

Lemma below_succ (n : Z) (l : list Z) :
  Forall (fun x => x < n) l -> Forall (fun x => x < n + 1) l.
Proof. intros Hl. eapply Forall_impl; [exact Hl|]. intros x Hx. cbn in *. lia. Qed.

Lemma consistent_effect (a : Action) (s s' : RequestCollection.Requests) :
  consistent s -> effect a s s' -> consistent s'.
Proof.
  intros [Hnodup Hids Hlog] Heffect.
  destruct Heffect as [ | | o e call Hid Hlatch | o e call Hid Hpromise
                      | j call Ha Hj Hlatch | j call e Ha Hj Hlatch He
                      | j call Ha Hj Hpromise | j call e Ha Hj Hpromise He].
  - by split.
  - split; cbn; [done | by apply below_succ | by apply below_succ].
  - split; unfold xhr_ids, fetch_ids, log_ids in *; cbn;
      rewrite ?fmap_app; cbn.
    + rewrite <- app_assoc. cbn. rewrite <- Permutation_middle.
      apply NoDup_cons. split; [|done]. rewrite Hid. by apply below_fresh.
    + rewrite <- app_assoc. cbn. rewrite <- Permutation_middle.
      apply Forall_cons. split; [lia | by apply below_succ].
    + by apply below_succ.
  - split; unfold xhr_ids, fetch_ids, log_ids in *; cbn;
      rewrite ?fmap_app; cbn.
    + rewrite app_assoc, <- Permutation_cons_append.
      apply NoDup_cons. split; [|done]. rewrite Hid. by apply below_fresh.
    + rewrite app_assoc, <- Permutation_cons_append.
      apply Forall_cons. split; [lia | by apply below_succ].
    + by apply below_succ.
  - split; unfold xhr_ids, fetch_ids, log_ids in *; cbn;
      rewrite ?(xhr_ids_latch _ _ _ _ Hj); done.
  - split; unfold xhr_ids, fetch_ids, log_ids in *; cbn;
      rewrite ?(xhr_ids_latch _ _ _ _ Hj); try done.
    rewrite fmap_app. cbn. apply Forall_app. split; [done|].
    apply Forall_singleton. rewrite He.
    rewrite Forall_forall in Hids. apply Hids.
    apply elem_of_app. left. apply list_elem_of_fmap.
    exists call. split; [done|]. by eapply list_elem_of_lookup_2.
  - split; unfold xhr_ids, fetch_ids, log_ids in *; cbn;
      rewrite ?(fetch_ids_settle _ _ _ _ Hj); done.
  - split; unfold xhr_ids, fetch_ids, log_ids in *; cbn;
      rewrite ?(fetch_ids_settle _ _ _ _ Hj); try done.
    rewrite fmap_app. cbn. apply Forall_app. split; [done|].
    apply Forall_singleton. rewrite He.
    rewrite Forall_forall in Hids. apply Hids.
    apply elem_of_app. right. apply list_elem_of_fmap.
    exists call. split; [done|]. by eapply list_elem_of_lookup_2.
Qed.

Lemma run_cons (a : Action) (actions : list Action)
    (s : RequestCollection.Requests) :
  run (a :: actions) s = run actions (step a s).
Proof. reflexivity. Qed.

Lemma run_app (before after : list Action) (s : RequestCollection.Requests) :
  run (before ++ after) s = run after (run before s).
Proof. apply foldl_app. Qed.

Lemma consistent_run (actions : list Action) (s : RequestCollection.Requests) :
  consistent s -> consistent (run actions s).
Proof.
  revert s. induction actions as [|a actions IH]; intros s Hs; [done|].
  rewrite run_cons. apply IH.
  eapply consistent_effect; [exact Hs | apply step_effect].
Qed.

(** *** One closure among the others *)

Lemma completed_notify (r : Z) (o : RequestCollection.Observable)
    (e : RequestCollection.RequestCompleteEvent)
    (s : RequestCollection.Requests) :
  RequestCollection.completed r (RequestCollection.notify_complete o e s)
  = RequestCollection.completed r s
    ++ (if decide (RequestCollection.requestId e = r) then [e] else []).
Proof.
  unfold RequestCollection.completed. cbn.
  rewrite fmap_app, filter_app. reflexivity.
Qed.

Lemma xhr_id_unique (s : RequestCollection.Requests) (i j : nat)
    (c d : RequestCollection.XhrCall) :
  consistent s ->
  RequestCollection.xhrCalls s !! i = Some c ->
  RequestCollection.xhrCalls s !! j = Some d ->
  RequestCollection.xhr_requestId c = RequestCollection.xhr_requestId d ->
  i = j.
Proof.
  intros [Hnodup _ _] Hi Hj Hid.
  apply NoDup_app in Hnodup as (Hx & _ & _).
  eapply NoDup_lookup; [exact Hx | |]; unfold xhr_ids;
    rewrite list_lookup_fmap.
  - rewrite Hi. reflexivity.
  - rewrite Hj. cbn. by rewrite Hid.
Qed.

Lemma fetch_id_unique (s : RequestCollection.Requests) (i j : nat)
    (c d : RequestCollection.FetchCall) :
  consistent s ->
  RequestCollection.fetchCalls s !! i = Some c ->
  RequestCollection.fetchCalls s !! j = Some d ->
  RequestCollection.fetch_requestId c = RequestCollection.fetch_requestId d ->
  i = j.
Proof.
  intros [Hnodup _ _] Hi Hj Hid.
  apply NoDup_app in Hnodup as (_ & _ & Hf).
  eapply NoDup_lookup; [exact Hf | |]; unfold fetch_ids;
    rewrite list_lookup_fmap.
  - rewrite Hi. reflexivity.
  - rewrite Hj. cbn. by rewrite Hid.
Qed.

Lemma xhr_fetch_id_apart (s : RequestCollection.Requests) (i j : nat)
    (c : RequestCollection.XhrCall) (d : RequestCollection.FetchCall) :
  consistent s ->
  RequestCollection.xhrCalls s !! i = Some c ->
  RequestCollection.fetchCalls s !! j = Some d ->
  RequestCollection.xhr_requestId c <> RequestCollection.fetch_requestId d.
Proof.
  intros [Hnodup _ _] Hi Hj Hid.
  apply NoDup_app in Hnodup as (_ & Hapart & _).
  apply (Hapart (RequestCollection.xhr_requestId c)).
  - apply list_elem_of_fmap. exists c. split; [done|].
    by eapply list_elem_of_lookup_2.
  - rewrite Hid. apply list_elem_of_fmap. exists d. split; [done|].
    by eapply list_elem_of_lookup_2.
Qed.

(** The closure of an XHR call changes only by its latch, set by one of
    its own completion signals. *)
Lemma effect_xhr_call (a : Action) (s s' : RequestCollection.Requests)
    (i : nat) (call : RequestCollection.XhrCall) :
  effect a s s' ->
  RequestCollection.xhrCalls s !! i = Some call ->
  RequestCollection.xhrCalls s' !! i = Some call
  \/ (completes i a = true
      /\ RequestCollection.hasBeenReported call = false
      /\ RequestCollection.xhrCalls s' !! i
         = Some (RequestCollection.set_hasBeenReported true call)).
Proof.
  intros Heffect Hi.
  destruct Heffect as [ | | o e call' Hid Hlatch | o e call' Hid Hpromise
                      | j call' Ha Hj Hlatch | j call' e Ha Hj Hlatch He
                      | j call' Ha Hj Hpromise | j call' e Ha Hj Hpromise He];
    cbn; try (left; exact Hi).
  - left. rewrite lookup_app_l; [exact Hi|]. by eapply lookup_lt_Some.
  - destruct (decide (j = i)) as [->|Hne].
    + right. rewrite Hi in Hj. injection Hj as <-.
      repeat split; try done.
      apply list_lookup_insert_eq. by eapply lookup_lt_Some.
    + left. by rewrite list_lookup_insert_ne.
  - destruct (decide (j = i)) as [->|Hne].
    + right. rewrite Hi in Hj. injection Hj as <-.
      repeat split; try done.
      apply list_lookup_insert_eq. by eapply lookup_lt_Some.
    + left. by rewrite list_lookup_insert_ne.
Qed.

(** The events published for the id of an XHR call grow only by a report
    of that call, on one of its completion signals, while its latch is
    open. *)
Lemma effect_xhr_completed (a : Action) (s s' : RequestCollection.Requests)
    (i : nat) (call : RequestCollection.XhrCall) :
  consistent s ->
  effect a s s' ->
  RequestCollection.xhrCalls s !! i = Some call ->
  let r := RequestCollection.xhr_requestId call in
  RequestCollection.completed r s' = RequestCollection.completed r s
  \/ (completes i a = true
      /\ RequestCollection.hasBeenReported call = false
      /\ exists e, RequestCollection.completed r s'
                   = RequestCollection.completed r s ++ [e]).
Proof.
  intros Hs Heffect Hi r. subst r.
  destruct Heffect as [ | | o e call' Hid Hlatch | o e call' Hid Hpromise
                      | j call' Ha Hj Hlatch | j call' e Ha Hj Hlatch He
                      | j call' Ha Hj Hpromise | j call' e Ha Hj Hpromise He];
    try (left; reflexivity).
  - rewrite completed_notify.
    destruct (decide (RequestCollection.requestId e = _)) as [Hr|Hr].
    + assert (j = i) as -> by (eapply xhr_id_unique; eauto; congruence).
      rewrite Hi in Hj. injection Hj as <-. right. eauto.
    + left. by rewrite app_nil_r.
  - rewrite completed_notify.
    destruct (decide (RequestCollection.requestId e = _)) as [Hr|Hr].
    + exfalso. eapply xhr_fetch_id_apart; eauto. congruence.
    + left. by rewrite app_nil_r.
Qed.

Lemma effect_fetch_call (a : Action) (s s' : RequestCollection.Requests)
    (i : nat) (call : RequestCollection.FetchCall) :
  effect a s s' ->
  RequestCollection.fetchCalls s !! i = Some call ->
  RequestCollection.fetchCalls s' !! i = Some call
  \/ (settles i a = true
      /\ RequestCollection.promise call = RequestCollection.Pending
      /\ RequestCollection.fetchCalls s' !! i
         = Some (RequestCollection.set_promise RequestCollection.Settled call)).
Proof.
  intros Heffect Hi.
  destruct Heffect as [ | | o e call' Hid Hlatch | o e call' Hid Hpromise
                      | j call' Ha Hj Hlatch | j call' e Ha Hj Hlatch He
                      | j call' Ha Hj Hpromise | j call' e Ha Hj Hpromise He];
    cbn; try (left; exact Hi).
  - left. rewrite lookup_app_l; [exact Hi|]. by eapply lookup_lt_Some.
  - destruct (decide (j = i)) as [->|Hne].
    + right. rewrite Hi in Hj. injection Hj as <-.
      repeat split; try done.
      apply list_lookup_insert_eq. by eapply lookup_lt_Some.
    + left. by rewrite list_lookup_insert_ne.
  - destruct (decide (j = i)) as [->|Hne].
    + right. rewrite Hi in Hj. injection Hj as <-.
      repeat split; try done.
      apply list_lookup_insert_eq. by eapply lookup_lt_Some.
    + left. by rewrite list_lookup_insert_ne.
Qed.

Lemma effect_fetch_completed (a : Action) (s s' : RequestCollection.Requests)
    (i : nat) (call : RequestCollection.FetchCall) :
  consistent s ->
  effect a s s' ->
  RequestCollection.fetchCalls s !! i = Some call ->
  let r := RequestCollection.fetch_requestId call in
  RequestCollection.completed r s' = RequestCollection.completed r s
  \/ (settles i a = true
      /\ RequestCollection.promise call = RequestCollection.Pending
      /\ exists e, RequestCollection.completed r s'
                   = RequestCollection.completed r s ++ [e]).
Proof.
  intros Hs Heffect Hi r. subst r.
  destruct Heffect as [ | | o e call' Hid Hlatch | o e call' Hid Hpromise
                      | j call' Ha Hj Hlatch | j call' e Ha Hj Hlatch He
                      | j call' Ha Hj Hpromise | j call' e Ha Hj Hpromise He];
    try (left; reflexivity).
  - rewrite completed_notify.
    destruct (decide (RequestCollection.requestId e = _)) as [Hr|Hr].
    + exfalso. eapply xhr_fetch_id_apart; eauto. congruence.
    + left. by rewrite app_nil_r.
  - rewrite completed_notify.
    destruct (decide (RequestCollection.requestId e = _)) as [Hr|Hr].
    + assert (j = i) as -> by (eapply fetch_id_unique; eauto; congruence).
      rewrite Hi in Hj. injection Hj as <-. right. eauto.
    + left. by rewrite app_nil_r.
Qed.

(** *** The latch of an XHR call *)

Lemma fresh_id_not_completed (s : RequestCollection.Requests) (r : Z) :
  consistent s -> RequestCollection.nextRequestId s <= r ->
  RequestCollection.completed r s = [].
Proof.
  intros [_ _ Hlog] Hr. unfold RequestCollection.completed, log_ids in *.
  induction (RequestCollection.notifiedComplete s) as [|[o e] l IH];
    [reflexivity|].
  rewrite fmap_cons in *. apply Forall_cons in Hlog as [He Hl].
  cbn in He. rewrite filter_cons_False by (cbn; lia). by apply IH.
Qed.

(** A completion signal that finds the latch open publishes one event. *)
Lemma report_publishes (a : Action) (i : nat)
    (s : RequestCollection.Requests) (call : RequestCollection.XhrCall) :
  completes i a = true -> opened a ->
  RequestCollection.xhrCalls s !! i = Some call ->
  RequestCollection.hasBeenReported call = false ->
  exists e,
    step a s
    = RequestCollection.notify_complete
        (RequestCollection.xhr_complete call) e
        (RequestCollection.set_xhrCalls
           (<[i := RequestCollection.set_hasBeenReported true call]>
              (RequestCollection.xhrCalls s)) s)
    /\ RequestCollection.requestId e = RequestCollection.xhr_requestId call
    /\ RequestCollection.type e = RequestCollection.XHR
    /\ RequestCollection.traceId e = RequestCollection.xhr_traceId call.
Proof.
  intros Ha Hopened Hi Hlatch.
  destruct a as [observables window random now this | j this now
                | j this now | observables window random now input init
                | j value now]; try discriminate Ha; cbn in Ha, Hopened.
  - apply andb_prop in Ha as [Hj Hdone].
    apply bool_decide_eq_true in Hj as ->.
    cbn. unfold RequestCollection.onreadystatechange. rewrite Hdone.
    unfold RequestCollection.reportXhr. rewrite Hi, Hlatch.
    destruct (SpanCollection._datadog_xhr this) as [[method url]|];
      [|done].
    cbn. eexists. split; [reflexivity|]. by cbn.
  - apply bool_decide_eq_true in Ha as ->.
    cbn. unfold RequestCollection.loadend, RequestCollection.reportXhr.
    rewrite Hi, Hlatch.
    destruct (SpanCollection._datadog_xhr this) as [[method url]|];
      [|done].
    cbn. eexists. split; [reflexivity|]. by cbn.
Qed.

(** Once the latch is set, nothing more is published for the call. *)
Lemma latched_stays (i : nat) (after : list Action) :
  forall (s : RequestCollection.Requests) (call : RequestCollection.XhrCall),
    consistent s ->
    RequestCollection.xhrCalls s !! i = Some call ->
    RequestCollection.hasBeenReported call = true ->
    RequestCollection.completed (RequestCollection.xhr_requestId call)
      (run after s)
    = RequestCollection.completed (RequestCollection.xhr_requestId call) s.
Proof.
  induction after as [|a after IH]; intros s call Hs Hi Hlatch; [done|].
  rewrite run_cons.
  pose proof (step_effect a s) as Heffect.
  destruct (effect_xhr_call a s _ i call Heffect Hi)
    as [Hi' | (_ & Hopen & _)]; [|congruence].
  destruct (effect_xhr_completed a s _ i call Hs Heffect Hi)
    as [Hsame | (_ & Hopen & _)]; [|congruence].
  cbn in Hsame. rewrite <- Hsame.
  apply IH; [|done..]. by eapply consistent_effect.
Qed.

(** While the latch is open, the first completion signal publishes the one
    event of the call. *)
Lemma pending_reports (i : nat) (after : list Action) :
  forall (s : RequestCollection.Requests) (call : RequestCollection.XhrCall),
    consistent s ->
    RequestCollection.xhrCalls s !! i = Some call ->
    RequestCollection.hasBeenReported call = false ->
    RequestCollection.completed (RequestCollection.xhr_requestId call) s = [] ->
    Forall (fun a => completes i a = true -> opened a) after ->
    Exists (fun a => completes i a = true) after ->
    exists e,
      RequestCollection.completed (RequestCollection.xhr_requestId call)
        (run after s) = [e]
      /\ RequestCollection.requestId e = RequestCollection.xhr_requestId call
      /\ RequestCollection.type e = RequestCollection.XHR
      /\ RequestCollection.traceId e = RequestCollection.xhr_traceId call.
Proof.
  induction after as [|a after IH];
    intros s call Hs Hi Hlatch Hnone Hopened Hsignal.
  { by apply Exists_nil in Hsignal. }
  rewrite run_cons. apply Forall_cons in Hopened as [Ha Hopened].
  pose proof (step_effect a s) as Heffect.
  pose proof (consistent_effect a s _ Hs Heffect) as Hs'.
  destruct (completes i a) eqn:Hcompletes.
  - destruct (report_publishes a i s call Hcompletes (Ha eq_refl) Hi Hlatch)
      as (e & Hstep & Hid & Htype & Htrace).
    exists e. repeat split; try done.
    assert (Hi' : RequestCollection.xhrCalls (step a s) !! i
                  = Some (RequestCollection.set_hasBeenReported true call)).
    { rewrite Hstep. cbn. apply list_lookup_insert_eq.
      by eapply lookup_lt_Some. }
    pose proof (latched_stays i after (step a s) _ Hs' Hi' eq_refl) as Hstay.
    change (RequestCollection.xhr_requestId
              (RequestCollection.set_hasBeenReported true call))
      with (RequestCollection.xhr_requestId call) in Hstay.
    rewrite Hstay, Hstep, completed_notify.
    change (RequestCollection.completed ?r (RequestCollection.set_xhrCalls ?l s))
      with (RequestCollection.completed r s).
    rewrite Hnone, decide_True by done. reflexivity.
  - apply Exists_cons in Hsignal as [Hhead|Htail]; [congruence|].
    destruct (effect_xhr_call a s _ i call Heffect Hi)
      as [Hi' | (Hc & _)]; [|congruence].
    destruct (effect_xhr_completed a s _ i call Hs Heffect Hi)
      as [Hsame | (Hc & _)]; [|congruence].
    cbn in Hsame. apply IH; try done. by rewrite Hsame.
Qed.

(** The wrapped [send] creates a closure with a fresh id and an open
    latch. *)
Lemma send_creates (observables : RequestCollection.RequestObservables)
    (window : SpanCollection.Window) (random : nat -> byte) (now : Z)
    (this : SpanCollection.XMLHttpRequest) (s : RequestCollection.Requests) :
  let s' := (RequestCollection.send observables window random now this s).2 in
  exists call,
    RequestCollection.xhrCalls s' !! length (RequestCollection.xhrCalls s)
    = Some call
    /\ RequestCollection.xhr_requestId call = RequestCollection.nextRequestId s
    /\ RequestCollection.hasBeenReported call = false
    /\ RequestCollection.xhr_traceId call
       = (SpanCollection.traceXhr window random this).1
    /\ RequestCollection.notifiedStart s'
       = RequestCollection.notifiedStart s
         ++ [(observables.1,
              {| RequestCollection.start_requestId :=
                   RequestCollection.nextRequestId s |})]
    /\ RequestCollection.notifiedComplete s'
       = RequestCollection.notifiedComplete s.
Proof.
  destruct observables as [o1 o2]. unfold RequestCollection.send. cbn.
  destruct (SpanCollection.traceXhr window random this) as [t x]. cbn.
  eexists. split; [apply list_lookup_middle; reflexivity|]. by cbn.
Qed.

(** *** The promise of a fetch call *)

(** The settlement of a pending promise with an error publishes one event
    with status 0 and the formatted stack trace. *)
Lemma rejection_publishes (i : nat) (err : Error) (now : Z)
    (s : RequestCollection.Requests) (call : RequestCollection.FetchCall) :
  RequestCollection.fetchCalls s !! i = Some call ->
  RequestCollection.promise call = RequestCollection.Pending ->
  exists e,
    step (RequestCollection.Settle i (RequestCollection.ErrorValue err) now) s
    = RequestCollection.notify_complete
        (RequestCollection.fetch_complete call) e
        (RequestCollection.set_fetchCalls
           (<[i := RequestCollection.set_promise RequestCollection.Settled call]>
              (RequestCollection.fetchCalls s)) s)
    /\ RequestCollection.requestId e = RequestCollection.fetch_requestId call
    /\ RequestCollection.type e = RequestCollection.FETCH
    /\ RequestCollection.status e = 0
    /\ RequestCollection.response e
       = Some (toStackTraceString (computeStackTrace err))
    /\ RequestCollection.traceId e = RequestCollection.fetch_traceId call.
Proof.
  intros Hi Hpromise. cbn. unfold RequestCollection.settle.
  rewrite Hi, Hpromise. cbn. eexists. split; [reflexivity|]. by cbn.
Qed.

Lemma settled_stays (i : nat) (after : list Action) :
  forall (s : RequestCollection.Requests) (call : RequestCollection.FetchCall),
    consistent s ->
    RequestCollection.fetchCalls s !! i = Some call ->
    RequestCollection.promise call = RequestCollection.Settled ->
    RequestCollection.completed (RequestCollection.fetch_requestId call)
      (run after s)
    = RequestCollection.completed (RequestCollection.fetch_requestId call) s.
Proof.
  induction after as [|a after IH]; intros s call Hs Hi Hpromise; [done|].
  rewrite run_cons.
  pose proof (step_effect a s) as Heffect.
  destruct (effect_fetch_call a s _ i call Heffect Hi)
    as [Hi' | (_ & Hpending & _)]; [|congruence].
  destruct (effect_fetch_completed a s _ i call Hs Heffect Hi)
    as [Hsame | (_ & Hpending & _)]; [|congruence].
  cbn in Hsame. rewrite <- Hsame.
  apply IH; [|done..]. by eapply consistent_effect.
Qed.

Lemma pending_stays (i : nat) (after : list Action) :
  forall (s : RequestCollection.Requests) (call : RequestCollection.FetchCall),
    consistent s ->
    RequestCollection.fetchCalls s !! i = Some call ->
    Forall (fun a => settles i a = false) after ->
    RequestCollection.fetchCalls (run after s) !! i = Some call
    /\ RequestCollection.completed (RequestCollection.fetch_requestId call)
         (run after s)
       = RequestCollection.completed (RequestCollection.fetch_requestId call) s.
Proof.
  induction after as [|a after IH]; intros s call Hs Hi Hafter; [done|].
  rewrite run_cons. apply Forall_cons in Hafter as [Ha Hafter].
  pose proof (step_effect a s) as Heffect.
  destruct (effect_fetch_call a s _ i call Heffect Hi)
    as [Hi' | (Hsettles & _)]; [|congruence].
  destruct (effect_fetch_completed a s _ i call Hs Heffect Hi)
    as [Hsame | (Hsettles & _)]; [|congruence].
  cbn in Hsame. rewrite <- Hsame.
  apply IH; [|done..]. by eapply consistent_effect.
Qed.

(** A call of the wrapped [fetch] that reaches the original [fetch] creates
    a closure with a fresh id and a pending promise. *)
Lemma fetch_creates (observables : RequestCollection.RequestObservables)
    (window : SpanCollection.Window) (random : nat -> byte) (now : Z)
    (input : RequestCollection.RequestInfo)
    (init init' : option (SpanCollection.RequestInit (Headers := Headers)))
    (s s' : RequestCollection.Requests) :
  RequestCollection.fetch empty_headers has_set headers_set assign
    observables window random now input init s = (s', JS.Normal init') ->
  exists call,
    RequestCollection.fetchCalls s' !! length (RequestCollection.fetchCalls s)
    = Some call
    /\ RequestCollection.fetch_requestId call
       = RequestCollection.nextRequestId s
    /\ RequestCollection.promise call = RequestCollection.Pending
    /\ RequestCollection.notifiedComplete s'
       = RequestCollection.notifiedComplete s.
Proof.
  destruct observables as [o1 o2]. unfold RequestCollection.fetch. cbn.
  destruct (SpanCollection.traceFetch _ _ _ _ window random init)
    as [tracerId | [init0|] | init0 traceId]; cbn; intros [= <- _];
    (eexists; split; [apply list_lookup_middle; reflexivity | by cbn]).
Qed.

End RequestProofs.

Section RequestClaims.

Context {Error StackTrace Headers : Type}.
Variable normalizeUrl : SpanCollection.Url -> string.
Variable computeStackTrace : Error -> StackTrace.
Variable toStackTraceString : StackTrace -> string.
Variable empty_headers : Headers.
Variable has_set : Headers -> bool.
Variable headers_set : string -> option string -> Headers -> Headers.
Variable assign : Headers -> list (string * string) -> Headers.

Local Abbreviation Action :=
  (RequestCollection.Action (Error := Error) (Headers := Headers)).
Local Abbreviation run :=
  (RequestCollection.run normalizeUrl computeStackTrace toStackTraceString
     empty_headers has_set headers_set assign).

(** C1: take any call of the wrapped [send], after any history.  If
    afterwards its readiness observer sees DONE and its loadend listener
    runs, in any order, any number of times and interleaved with anything
    else happening on the page, exactly one complete event carries the
    request id of the call. *)
Theorem xhr_reported_once (before after : list Action)
    (observables : RequestCollection.RequestObservables)
    (window : SpanCollection.Window) (random : nat -> byte) (now : Z)
    (this : SpanCollection.XMLHttpRequest) :
  let s0 := run before RequestCollection.initial in
  let i := length (RequestCollection.xhrCalls s0) in
  let requestId := RequestCollection.nextRequestId s0 in
  let s1 := (RequestCollection.send observables window random now this s0).2 in
  Forall (fun a => completes i a = true -> opened a) after ->
  (exists this' now',
     RequestCollection.ReadyStateChange i this' now' ∈ after
     /\ SpanCollection.readyState this' = SpanCollection.DONE) ->
  (exists this' now', RequestCollection.LoadEnd i this' now' ∈ after) ->
  exists e,
    RequestCollection.completed requestId (run after s1) = [e]
    /\ RequestCollection.requestId e = requestId
    /\ RequestCollection.type e = RequestCollection.XHR
    /\ length (RequestCollection.completed requestId (run after s1)) = 1%nat.
Proof.
  intros s0 i requestId s1 Hopened _ (this' & now' & Hloadend).
  assert (Hs0 : consistent s0) by (apply consistent_run, consistent_initial).
  assert (Hs1 : consistent s1).
  { eapply consistent_effect; [exact Hs0|].
    apply (step_effect normalizeUrl computeStackTrace toStackTraceString
             empty_headers has_set headers_set assign
             (RequestCollection.Send observables window random now this)). }
  destruct (send_creates observables window random now this s0)
    as (call & Hi & Hid & Hlatch & _ & _ & Hlog).
  fold s1 i in Hi, Hlog. fold requestId in Hid.
  assert (Hnone : RequestCollection.completed requestId s1 = []).
  { unfold RequestCollection.completed. rewrite Hlog.
    apply (fresh_id_not_completed s0); [exact Hs0 | reflexivity]. }
  rewrite <- Hid in Hnone |- *.
  destruct (pending_reports normalizeUrl computeStackTrace toStackTraceString
              empty_headers has_set headers_set assign
              i after s1 call Hs1 Hi Hlatch Hnone Hopened)
    as (e & He & Hre & Htype & _).
  { apply Exists_exists. eexists. split; [exact Hloadend|].
    cbn. by rewrite bool_decide_eq_true_2. }
  exists e. rewrite He. by repeat split.
Qed.

(** C8: take any call of the wrapped [fetch] that reaches the original
    [fetch], after any history.  When the returned promise is rejected with
    an error, exactly one complete event carries the request id of the
    call; its status is 0 and its response is the formatted stack trace of
    the error, which is not empty as long as the formatter returns no empty
    string. *)
Theorem fetch_rejection_reported_once (before after1 after2 : list Action)
    (observables : RequestCollection.RequestObservables)
    (window : SpanCollection.Window) (random : nat -> byte) (now now' : Z)
    (input : RequestCollection.RequestInfo)
    (init init' : option (SpanCollection.RequestInit (Headers := Headers)))
    (s1 : RequestCollection.Requests) (err : Error) :
  let s0 := run before RequestCollection.initial in
  let i := length (RequestCollection.fetchCalls s0) in
  let requestId := RequestCollection.nextRequestId s0 in
  let rejected :=
    RequestCollection.Settle i (RequestCollection.ErrorValue err) now' in
  RequestCollection.fetch empty_headers has_set headers_set assign
    observables window random now input init s0 = (s1, JS.Normal init') ->
  Forall (fun a => settles i a = false) after1 ->
  (forall stackTrace, toStackTraceString stackTrace <> EmptyString) ->
  exists e,
    RequestCollection.completed requestId
      (run (after1 ++ rejected :: after2) s1) = [e]
    /\ RequestCollection.requestId e = requestId
    /\ RequestCollection.type e = RequestCollection.FETCH
    /\ RequestCollection.status e = 0
    /\ RequestCollection.response e
       = Some (toStackTraceString (computeStackTrace err))
    /\ RequestCollection.response e <> Some EmptyString.
Proof.
  intros s0 i requestId rejected Hfetch Hpending Hformat.
  assert (Hs0 : consistent s0) by (apply consistent_run, consistent_initial).
  assert (Hs1 : consistent s1).
  { eapply consistent_effect; [exact Hs0|].
    pose proof (step_effect normalizeUrl computeStackTrace toStackTraceString
                  empty_headers has_set headers_set assign
                  (RequestCollection.Fetch observables window random now
                     input init) s0) as Heffect.
    cbn in Heffect. rewrite Hfetch in Heffect. exact Heffect. }
  destruct (fetch_creates empty_headers has_set headers_set assign
              observables window random now input init init' s0 s1 Hfetch)
    as (call & Hi & Hid & Hpromise & Hlog).
  fold i in Hi. fold requestId in Hid.
  assert (Hnone : RequestCollection.completed requestId s1 = []).
  { unfold RequestCollection.completed. rewrite Hlog.
    apply (fresh_id_not_completed s0); [exact Hs0 | reflexivity]. }
  rewrite <- Hid in Hnone |- *.
  rewrite run_app, run_cons.
  destruct (pending_stays normalizeUrl computeStackTrace toStackTraceString
              empty_headers has_set headers_set assign
              i after1 s1 call Hs1 Hi Hpending) as [Hi2 Hsame].
  set (s2 := run after1 s1) in *.
  assert (Hs2 : consistent s2) by (by apply consistent_run).
  destruct (rejection_publishes normalizeUrl computeStackTrace
              toStackTraceString empty_headers has_set headers_set assign
              i err now' s2 call Hi2 Hpromise)
    as (e & Hstep & Hre & Htype & Hstatus & Hresponse & _).
  fold rejected in Hstep.
  set (s3 := RequestCollection.step normalizeUrl computeStackTrace
               toStackTraceString empty_headers has_set headers_set assign
               rejected s2) in *.
  assert (Hs3 : consistent s3).
  { eapply consistent_effect; [exact Hs2 | apply step_effect]. }
  assert (Hi3 : RequestCollection.fetchCalls s3 !! i
                = Some (RequestCollection.set_promise
                          RequestCollection.Settled call)).
  { rewrite Hstep. cbn. apply list_lookup_insert_eq.
    by eapply lookup_lt_Some. }
  pose proof (settled_stays normalizeUrl computeStackTrace toStackTraceString
                empty_headers has_set headers_set assign
                i after2 s3 _ Hs3 Hi3 eq_refl) as Hstay.
  change (RequestCollection.fetch_requestId
            (RequestCollection.set_promise RequestCollection.Settled call))
    with (RequestCollection.fetch_requestId call) in Hstay.
  exists e. rewrite Hstay, Hstep, completed_notify.
  change (RequestCollection.completed ?r (RequestCollection.set_fetchCalls ?l s2))
    with (RequestCollection.completed r s2).
  rewrite Hsame, Hnone, decide_True by done.
  repeat split; try done.
  rewrite Hresponse. intros [= Hempty]. exact (Hformat _ Hempty).
Qed.

End RequestClaims.

Lemma xhr_reported_once_witness :
  let after :=
    [RequestCollection.ReadyStateChange 0 example_done 12;
     RequestCollection.LoadEnd 0 example_done 13;
     RequestCollection.ReadyStateChange 0 example_done 14] in
  let s1 :=
    (RequestCollection.send (0%nat, 1%nat) (example_window None) example_random
       10 (example_xhr "app.example.com") RequestCollection.initial).2 in
  length (RequestCollection.completed 1 (example_run after s1)) = 1%nat.
Proof.
  intros after s1.
  assert (Hopened : Forall (fun a => completes 0 a = true -> opened a) after).
  { repeat constructor; intros _; discriminate. }
  assert (Hdone : exists this' now',
             RequestCollection.ReadyStateChange 0 this' now' ∈ after
             /\ SpanCollection.readyState this' = SpanCollection.DONE).
  { exists example_done, 12. split; [constructor | reflexivity]. }
  assert (Hloadend : exists this' now',
             RequestCollection.LoadEnd 0 this' now' ∈ after).
  { exists example_done, 13. constructor. constructor. }
  destruct (xhr_reported_once example_normalizeUrl (fun e : string => e)
              example_toStackTraceString [] (fun _ => false)
              example_headers_set example_assign
              [] after (0%nat, 1%nat) (example_window None) example_random 10
              (example_xhr "app.example.com") Hopened Hdone Hloadend)
    as (e & _ & _ & _ & Hlength).
  exact Hlength.
Defined.

Lemma fetch_rejection_reported_once_witness :
  let window := example_window None in
  let input := RequestCollection.UrlString example_page in
  let started :=
    RequestCollection.fetch [] (fun _ => false) example_headers_set
      example_assign (0%nat, 1%nat) window example_random 10 input None
      RequestCollection.initial in
  let after :=
    [RequestCollection.Settle 0
       (RequestCollection.ErrorValue "TypeError: Failed to fetch"%string) 25;
     RequestCollection.Settle 0
       (RequestCollection.ErrorValue "TypeError: Failed to fetch"%string) 26] in
  exists e,
    RequestCollection.completed 1 (example_run after started.1) = [e]
    /\ RequestCollection.status e = 0
    /\ RequestCollection.response e
       = Some "Error: TypeError: Failed to fetch"%string.
Proof.
  intros window input started after.
  assert (Hformat : forall stackTrace : string,
             example_toStackTraceString stackTrace <> EmptyString).
  { intros stackTrace. unfold example_toStackTraceString.
    rewrite string_append_cons. discriminate. }
  destruct (fetch_rejection_reported_once example_normalizeUrl
              (fun e : string => e) example_toStackTraceString []
              (fun _ => false) example_headers_set example_assign
              [] []
              [RequestCollection.Settle 0
                 (RequestCollection.ErrorValue
                    "TypeError: Failed to fetch"%string) 26]
              (0%nat, 1%nat) window example_random 10 25 input None
              (match started.2 with JS.Normal init' => init' | _ => None end)
              started.1 "TypeError: Failed to fetch"%string
              eq_refl (Forall_nil_2 _) Hformat)
    as (e & He & _ & _ & Hstatus & Hresponse & _).
  exists e. split; [exact He|]. split; [exact Hstatus | exact Hresponse].
Defined.

(** * Further properties *)

(** ** Trace identifiers *)

Lemma u8_inj (a b : byte) : TraceIdentifier.u8 a = TraceIdentifier.u8 b -> a = b.
Proof.
  unfold TraceIdentifier.u8. intros H. apply N2Z.inj in H.
  pose proof (Byte.of_to_N a) as Ha. rewrite H, Byte.of_to_N in Ha. congruence.
Qed.

Lemma land_127_mod (b : byte) :
  Z.land (TraceIdentifier.u8 b) 127 = TraceIdentifier.u8 b mod 128.
Proof. destruct b; reflexivity. Qed.

(** The buffer built by the constructor: byte 0 masked, the others as drawn. *)
Lemma new_buffer (random : nat -> byte) :
  TraceIdentifier.buffer (TraceIdentifier.new random)
  = [TraceIdentifier.to_u8 (JS.band (TraceIdentifier.u8 (random 0%nat)) 127);
     random 1%nat; random 2%nat; random 3%nat; random 4%nat; random 5%nat;
     random 6%nat; random 7%nat].
Proof. reflexivity. Qed.

Lemma value_eight_bytes (b0 b1 b2 b3 b4 b5 b6 b7 : byte) :
  let this := {| TraceIdentifier.buffer := [b0; b1; b2; b3; b4; b5; b6; b7] |} in
  TraceIdentifier.value this
  = TraceIdentifier.readInt32 this 0 * 2 ^ 32 + TraceIdentifier.readInt32 this 4
  /\ TraceIdentifier.value this
     = TraceIdentifier.u8 b0 * 2 ^ 56 + TraceIdentifier.u8 b1 * 2 ^ 48
       + TraceIdentifier.u8 b2 * 2 ^ 40 + TraceIdentifier.u8 b3 * 2 ^ 32
       + TraceIdentifier.u8 b4 * 2 ^ 24 + TraceIdentifier.u8 b5 * 2 ^ 16
       + TraceIdentifier.u8 b6 * 2 ^ 8 + TraceIdentifier.u8 b7.
Proof.
  intros this. destruct (readInt32_half b0 b1 b2 b3 b4 b5 b6 b7) as [H0 H4].
  fold this in H0, H4. unfold TraceIdentifier.value. rewrite <- H0, <- H4.
  split; [reflexivity|]. rewrite !readInt32_eq.
  unfold this, TraceIdentifier.get. simpl. lia.
Qed.

Lemma value_new (random : nat -> byte) :
  let this := TraceIdentifier.new random in
  TraceIdentifier.value this
  = TraceIdentifier.readInt32 this 0 * 2 ^ 32 + TraceIdentifier.readInt32 this 4
  /\ TraceIdentifier.value this
     = TraceIdentifier.value (TraceIdentifier.of_bytes random) mod 2 ^ 63
  /\ 0 <= TraceIdentifier.value this < 2 ^ 63.
Proof.
  intros this.
  assert (Hthis : this = {| TraceIdentifier.buffer :=
                              TraceIdentifier.buffer this |})
    by (destruct this; reflexivity).
  unfold this in Hthis at 2. rewrite new_buffer in Hthis.
  destruct (value_eight_bytes
              (TraceIdentifier.to_u8
                 (JS.band (TraceIdentifier.u8 (random 0%nat)) 127))
              (random 1%nat) (random 2%nat) (random 3%nat) (random 4%nat)
              (random 5%nat) (random 6%nat) (random 7%nat)) as [Hwords Hbytes].
  rewrite <- Hthis in Hwords, Hbytes.
  destruct (value_eight_bytes (random 0%nat)
              (random 1%nat) (random 2%nat) (random 3%nat) (random 4%nat)
              (random 5%nat) (random 6%nat) (random 7%nat)) as [_ Hdrawn].
  change {| TraceIdentifier.buffer :=
              [random 0%nat; random 1%nat; random 2%nat; random 3%nat;
               random 4%nat; random 5%nat; random 6%nat; random 7%nat] |}
    with (TraceIdentifier.of_bytes random) in Hdrawn.
  destruct (to_u8_band_127 (random 0%nat)) as (Hb & Hrange & _).
  rewrite Hb in Hbytes.
  pose proof (land_127_mod (random 0%nat)) as Hmask.
  pose proof (u8_range (random 0%nat)). pose proof (u8_range (random 1%nat)).
  pose proof (u8_range (random 2%nat)). pose proof (u8_range (random 3%nat)).
  pose proof (u8_range (random 4%nat)). pose proof (u8_range (random 5%nat)).
  pose proof (u8_range (random 6%nat)). pose proof (u8_range (random 7%nat)).
  split; [exact Hwords|]. split; [|lia].
  rewrite Hbytes, Hdrawn, Hmask.
  pose proof (Z.div_mod (TraceIdentifier.u8 (random 0%nat)) 128 ltac:(lia)) as Hd.
  pose proof (Z.mod_pos_bound (TraceIdentifier.u8 (random 0%nat)) 128 ltac:(lia)).
  apply (Z.mod_unique_pos _ _ (TraceIdentifier.u8 (random 0%nat) / 128)); lia.
Qed.

Lemma digit_char_zero (d : Z) :
  0 <= d < 36 -> JS.digit_char d = "0"%char -> d = 0.
Proof.
  intros Hd Hc. pose proof (digit_value_char d Hd) as Hv.
  rewrite Hc in Hv. vm_compute in Hv. congruence.
Qed.

(** The digits produced by the loop: at most [S n] of them for a value below
    [radix ^ S n], the first of them 0 only for the value 0. *)
Lemma toString_loop_digits (n : nat) :
  forall (fuel : nat) (radix high low : Z) (str : string),
    2 <= radix <= 36 -> 0 <= high -> 0 <= low ->
    high * 2 ^ 32 + low < radix ^ Z.of_nat (S n) ->
    (n <= fuel)%nat ->
    exists digits : string,
      TraceIdentifier.toString_loop (S fuel) radix high low str
      = TraceIdentifier.Returned (String.append digits str)
      /\ (1 <= String.length digits <= S n)%nat
      /\ exists c rest,
           digits = String c rest
           /\ (c = "0"%char -> rest = EmptyString /\ high * 2 ^ 32 + low = 0).
Proof.
  induction n as [|n IH]; intros fuel radix high low str Hr Hh Hl Hv Hfuel;
    rewrite toString_loop_unfold by assumption;
    set (v := high * 2 ^ 32 + low) in *;
    set (c := JS.digit_char (v mod radix));
    assert (Hq : 0 <= v / radix) by (apply Z.div_pos; unfold v; lia);
    pose proof (Z.div_mod v radix ltac:(lia)) as Hdm;
    pose proof (Z.mod_pos_bound v radix ltac:(lia)) as Hm;
    destruct (Z.eqb_spec (v / radix) 0) as [E|E].
  - exists (String c EmptyString). split; [reflexivity|]. split; [cbn; lia|].
    exists c, EmptyString. split; [reflexivity|]. intros Hc.
    apply digit_char_zero in Hc; [|lia]. split; [reflexivity | lia].
  - exfalso. change (radix ^ Z.of_nat 1) with (radix ^ 1) in Hv.
    rewrite Z.pow_1_r in Hv. apply E. apply Z.div_small. unfold v. lia.
  - exists (String c EmptyString). split; [reflexivity|]. split; [cbn; lia|].
    exists c, EmptyString. split; [reflexivity|]. intros Hc.
    apply digit_char_zero in Hc; [|lia]. split; [reflexivity | lia].
  - destruct fuel as [|fuel]; [lia|].
    destruct (toString_step radix high low ltac:(lia) Hh Hl)
      as (Hh' & Hl' & Hdiv & _).
    fold v in Hdiv.
    assert (Hv' : v / radix < radix ^ Z.of_nat (S n)).
    { apply Z.div_lt_upper_bound; [lia|].
      rewrite (Nat2Z.inj_succ (S n)), Z.pow_succ_r in Hv by lia. exact Hv. }
    rewrite <- Hdiv in Hv'.
    destruct (IH fuel radix _ _ (String c str) Hr Hh' Hl' Hv' ltac:(lia))
      as (digits & Hrun & Hlen & c' & rest & Hdigits & Hzero).
    exists (String.append digits (String c EmptyString)). split.
    { rewrite Hrun, string_append_assoc. reflexivity. }
    split.
    { rewrite string_length_append. cbn. lia. }
    exists c', (String.append rest (String c EmptyString)). split.
    { rewrite Hdigits. reflexivity. }
    intros Hc'. destruct (Hzero Hc') as [_ Hzero']. rewrite Hdiv in Hzero'.
    contradiction.
Qed.

Lemma pow_64_le (radix : Z) : 2 <= radix -> 2 ^ 64 <= radix ^ 64.
Proof. intros Hr. apply Z.pow_le_mono_l. lia. Qed.

(** The digits of [toString]. *)
Lemma toString_digits (this : TraceIdentifier.t) (radix : Z) (n : nat) :
  2 <= radix <= 36 -> (1 <= n)%nat ->
  TraceIdentifier.readInt32 this 0 * 2 ^ 32 + TraceIdentifier.readInt32 this 4
  < radix ^ Z.of_nat n ->
  exists c rest,
    TraceIdentifier.toString this radix
    = TraceIdentifier.Returned (String c rest)
    /\ (String.length (String c rest) <= n)%nat
    /\ (String.length (String c rest) <= 64)%nat
    /\ (c = "0"%char ->
        rest = EmptyString
        /\ TraceIdentifier.readInt32 this 0 * 2 ^ 32
           + TraceIdentifier.readInt32 this 4 = 0).
Proof.
  intros Hr Hn Hv. unfold TraceIdentifier.toString.
  pose proof (readInt32_range this 0) as H0.
  pose proof (readInt32_range this 4) as H4.
  set (v := TraceIdentifier.readInt32 this 0 * 2 ^ 32
            + TraceIdentifier.readInt32 this 4) in *.
  assert (Hv64 : v < radix ^ Z.of_nat 64).
  { pose proof (pow_64_le radix ltac:(lia)).
    change (Z.of_nat 64) with 64. unfold v.
    change (2 ^ 64) with (2 ^ 32 * 2 ^ 32) in *. nia. }
  destruct (le_lt_dec n 64) as [Hsmall|Hlarge].
  - destruct n as [|n]; [lia|].
    destruct (toString_loop_digits n 63 radix _ _ EmptyString Hr
                (proj1 H0) (proj1 H4) Hv ltac:(lia))
      as (digits & Hrun & Hlen & c & rest & Hdigits & Hzero).
    rewrite string_append_empty_r in Hrun. subst digits.
    exists c, rest.
    split; [exact Hrun|]. split; [lia|]. split; [lia | exact Hzero].
  - destruct (toString_loop_digits 63 63 radix _ _ EmptyString Hr
                (proj1 H0) (proj1 H4) Hv64 ltac:(lia))
      as (digits & Hrun & Hlen & c & rest & Hdigits & Hzero).
    rewrite string_append_empty_r in Hrun. subst digits.
    exists c, rest.
    split; [exact Hrun|]. split; [lia|]. split; [lia | exact Hzero].
Qed.

Lemma word_bytes_inj (a b c d a' b' c' d' : Z) :
  0 <= a < 256 -> 0 <= b < 256 -> 0 <= c < 256 -> 0 <= d < 256 ->
  0 <= a' < 256 -> 0 <= b' < 256 -> 0 <= c' < 256 -> 0 <= d' < 256 ->
  a * 2 ^ 24 + b * 2 ^ 16 + c * 2 ^ 8 + d
  = a' * 2 ^ 24 + b' * 2 ^ 16 + c' * 2 ^ 8 + d' ->
  a = a' /\ b = b' /\ c = c' /\ d = d'.
Proof.
  intros.
  assert (d = d') by lia. assert (c = c') by lia. assert (b = b') by lia. lia.
Qed.

Lemma readInt32_inj (this1 this2 : TraceIdentifier.t) (offset : nat) :
  TraceIdentifier.readInt32 this1 offset = TraceIdentifier.readInt32 this2 offset ->
  nth offset (TraceIdentifier.buffer this1) x00
  = nth offset (TraceIdentifier.buffer this2) x00
  /\ nth (offset + 1) (TraceIdentifier.buffer this1) x00
     = nth (offset + 1) (TraceIdentifier.buffer this2) x00
  /\ nth (offset + 2) (TraceIdentifier.buffer this1) x00
     = nth (offset + 2) (TraceIdentifier.buffer this2) x00
  /\ nth (offset + 3) (TraceIdentifier.buffer this1) x00
     = nth (offset + 3) (TraceIdentifier.buffer this2) x00.
Proof.
  rewrite !readInt32_eq. unfold TraceIdentifier.get. intros Heq.
  destruct (word_bytes_inj _ _ _ _ _ _ _ _ (u8_range _) (u8_range _)
              (u8_range _) (u8_range _) (u8_range _) (u8_range _)
              (u8_range _) (u8_range _) Heq) as (H0 & H1 & H2 & H3).
  split; [by apply u8_inj|]. split; [by apply u8_inj|].
  split; by apply u8_inj.
Qed.

(** X1: for a radix from 2 to 36, two 8-byte contents with the same string
    are the same content. *)
Theorem toString_injective (content1 content2 : nat -> byte) (radix : Z) :
  2 <= radix <= 36 ->
  TraceIdentifier.toString (TraceIdentifier.of_bytes content1) radix
  = TraceIdentifier.toString (TraceIdentifier.of_bytes content2) radix ->
  TraceIdentifier.buffer (TraceIdentifier.of_bytes content1)
  = TraceIdentifier.buffer (TraceIdentifier.of_bytes content2).
Proof.
  intros Hr Heq.
  destruct (toString_returns (TraceIdentifier.of_bytes content1) radix Hr)
    as (s1 & Hrun1 & _ & Hparse1).
  destruct (toString_returns (TraceIdentifier.of_bytes content2) radix Hr)
    as (s2 & Hrun2 & _ & Hparse2).
  rewrite Hrun1, Hrun2 in Heq. injection Heq as <-.
  rewrite Hparse1 in Hparse2. injection Hparse2 as Hvalue.
  pose proof (readInt32_range (TraceIdentifier.of_bytes content1) 0).
  pose proof (readInt32_range (TraceIdentifier.of_bytes content1) 4).
  pose proof (readInt32_range (TraceIdentifier.of_bytes content2) 0).
  pose proof (readInt32_range (TraceIdentifier.of_bytes content2) 4).
  assert (Hhigh : TraceIdentifier.readInt32 (TraceIdentifier.of_bytes content1) 0
                  = TraceIdentifier.readInt32 (TraceIdentifier.of_bytes content2) 0)
    by lia.
  assert (Hlow : TraceIdentifier.readInt32 (TraceIdentifier.of_bytes content1) 4
                 = TraceIdentifier.readInt32 (TraceIdentifier.of_bytes content2) 4)
    by lia.
  destruct (readInt32_inj _ _ 0 Hhigh) as (E0 & E1 & E2 & E3).
  destruct (readInt32_inj _ _ 4 Hlow) as (E4 & E5 & E6 & E7).
  cbn in E0, E1, E2, E3, E4, E5, E6, E7.
  change (TraceIdentifier.buffer (TraceIdentifier.of_bytes content1))
    with [content1 0%nat; content1 1%nat; content1 2%nat; content1 3%nat;
          content1 4%nat; content1 5%nat; content1 6%nat; content1 7%nat].
  change (TraceIdentifier.buffer (TraceIdentifier.of_bytes content2))
    with [content2 0%nat; content2 1%nat; content2 2%nat; content2 3%nat;
          content2 4%nat; content2 5%nat; content2 6%nat; content2 7%nat].
  congruence.
Qed.

Lemma toString_injective_witness :
  let content := fun i : nat => if decide (i = 7)%nat then x2a else x00 in
  TraceIdentifier.buffer (TraceIdentifier.of_bytes content)
  = TraceIdentifier.buffer (TraceIdentifier.of_bytes content).
Proof.
  intros content.
  exact (toString_injective content content 16 ltac:(lia) eq_refl).
Defined.

(** X2: the string of an identifier whose value is below [radix ^ n] has at
    most [n] digits, and never more than 64. *)
Theorem toString_length (content : nat -> byte) (radix : Z) (n : nat) :
  2 <= radix <= 36 -> (1 <= n)%nat ->
  TraceIdentifier.value (TraceIdentifier.of_bytes content) < radix ^ Z.of_nat n ->
  exists str : string,
    TraceIdentifier.toString (TraceIdentifier.of_bytes content) radix
    = TraceIdentifier.Returned str
    /\ (1 <= String.length str <= n)%nat
    /\ (String.length str <= 64)%nat.
Proof.
  intros Hr Hn Hv. rewrite value_of_bytes in Hv.
  destruct (toString_digits _ radix n Hr Hn Hv)
    as (c & rest & Hrun & Hlen & Hlen64 & _).
  exists (String c rest). split; [exact Hrun|].
  change (String.length (String c rest)) with (S (String.length rest)) in *.
  lia.
Qed.

Lemma toString_length_witness :
  let content := fun i : nat => if decide (i = 7)%nat then xff else x00 in
  exists str : string,
    TraceIdentifier.toString (TraceIdentifier.of_bytes content) 16
    = TraceIdentifier.Returned str
    /\ (1 <= String.length str <= 2)%nat
    /\ (String.length str <= 64)%nat.
Proof.
  intros content.
  apply (toString_length content 16 2); [lia | lia | reflexivity].
Defined.

(** X3: the string of an identifier has no leading zero: its first digit is
    0 only when it is the one digit of the value 0. *)
Theorem toString_no_leading_zero (content : nat -> byte) (radix : Z) :
  2 <= radix <= 36 ->
  exists c rest,
    TraceIdentifier.toString (TraceIdentifier.of_bytes content) radix
    = TraceIdentifier.Returned (String c rest)
    /\ (c = "0"%char ->
        rest = EmptyString
        /\ TraceIdentifier.value (TraceIdentifier.of_bytes content) = 0).
Proof.
  intros Hr.
  pose proof (readInt32_range (TraceIdentifier.of_bytes content) 0) as H0.
  pose proof (readInt32_range (TraceIdentifier.of_bytes content) 4) as H4.
  destruct (toString_digits (TraceIdentifier.of_bytes content) radix 64 Hr
              ltac:(lia)) as (c & rest & Hrun & _ & _ & Hzero).
  { pose proof (pow_64_le radix ltac:(lia)).
    change (Z.of_nat 64) with 64.
    change (2 ^ 64) with (2 ^ 32 * 2 ^ 32) in *. nia. }
  exists c, rest. split; [exact Hrun|].
  rewrite value_of_bytes. exact Hzero.
Qed.

Lemma toString_no_leading_zero_witness :
  exists c rest,
    TraceIdentifier.toString (TraceIdentifier.of_bytes (fun _ => x01)) 10
    = TraceIdentifier.Returned (String c rest)
    /\ (c = "0"%char ->
        rest = EmptyString
        /\ TraceIdentifier.value (TraceIdentifier.of_bytes (fun _ => x01)) = 0).
Proof.
  apply (toString_no_leading_zero (fun _ => x01) 10). lia.
Defined.

(** X4: [toString] throws a RangeError exactly for the radices below 2 or
    above 36, whatever the buffer holds, and then on its first iteration. *)
Theorem toString_throws_iff (this : TraceIdentifier.t) (radix : Z) :
  (exists e, TraceIdentifier.toString this radix = TraceIdentifier.Thrown e)
  <-> (radix < 2 \/ 36 < radix).
Proof.
  split.
  - intros [e Hthrown].
    destruct (Z_lt_le_dec radix 2) as [|Hlow]; [by left|].
    destruct (Z_lt_le_dec 36 radix) as [|Hhigh]; [by right|].
    destruct (toString_returns this radix ltac:(lia)) as (str & Hrun & _).
    congruence.
  - intros Hradix. exists JS.RangeError.
    by apply toString_invalid_radix.
Qed.

(** X5: the constructor keeps the 63 low bits of the eight bytes drawn from
    the random source: the value of the identifier is their value modulo
    2^63. *)
Theorem constructor_keeps_low_bits (random : nat -> byte) :
  TraceIdentifier.value (TraceIdentifier.new random)
  = TraceIdentifier.value (TraceIdentifier.of_bytes random) mod 2 ^ 63.
Proof. exact (proj1 (proj2 (value_new random))). Qed.

Lemma pow_63_lt : 2 ^ 63 < 10 ^ Z.of_nat 19.
Proof. reflexivity. Qed.

(** The decimal string of an identifier built by the constructor. *)
Lemma decimal_of_new (random : nat -> byte) :
  let this := TraceIdentifier.new random in
  exists str : string,
    TraceIdentifier.toString this 10 = TraceIdentifier.Returned str
    /\ TraceIdentifier.toString_value this 10 = str
    /\ TraceIdentifier.parse 10 str = Some (TraceIdentifier.value this)
    /\ (1 <= String.length str <= 19)%nat.
Proof.
  intros this. destruct (value_new random) as (Hwords & _ & Hrange).
  fold this in Hwords, Hrange.
  destruct (toString_returns this 10 ltac:(lia)) as (str & Hrun & _ & Hparse).
  destruct (toString_digits this 10 19 ltac:(lia) ltac:(lia))
    as (c & rest & Hrun' & Hlen & _).
  { rewrite <- Hwords. pose proof pow_63_lt. lia. }
  exists str. split; [exact Hrun|].
  split; [unfold TraceIdentifier.toString_value; by rewrite Hrun|].
  split; [by rewrite Hparse, Hwords|].
  rewrite Hrun in Hrun'. injection Hrun' as ->.
  change (String.length (String c rest)) with (S (String.length rest)) in *.
  lia.
Qed.

(** X6: [toJSON] of an identifier built by the constructor is a decimal
    string of 1 to 19 digits that reads back as the value of the
    identifier. *)
Theorem toJSON_of_new (random : nat -> byte) :
  exists str : string,
    TraceIdentifier.toJSON (TraceIdentifier.new random)
    = TraceIdentifier.Returned str
    /\ TraceIdentifier.parse 10 str
       = Some (TraceIdentifier.value (TraceIdentifier.new random))
    /\ (1 <= String.length str <= 19)%nat.
Proof.
  destruct (decimal_of_new random) as (str & Hrun & _ & Hparse & Hlen).
  exists str. split; [exact Hrun|]. split; [exact Hparse | exact Hlen].
Qed.

(** ** Header injection, continued *)

Lemma tracer_cases (window : SpanCollection.Window) :
  (exists tracerId, SpanCollection.ddtrace window = Some (Some tracerId))
  \/ SpanCollection.ddtrace window = None
  \/ SpanCollection.ddtrace window = Some None.
Proof. destruct (SpanCollection.ddtrace window) as [[tracerId|]|]; eauto. Qed.

(** X7: [traceXhr] either leaves the headers of the request as they are, or
    appends exactly the five headers, in one go; the trace id and the parent
    id are then the decimal string (1 to 19 digits) of the identifier it
    returns, which is below 2^63.  It never touches the other fields of the
    request. *)
Theorem traceXhr_all_or_nothing (window : SpanCollection.Window)
    (random : nat -> byte) (xhr : SpanCollection.XMLHttpRequest) :
  let result := SpanCollection.traceXhr window random xhr in
  SpanCollection._datadog_xhr result.2 = SpanCollection._datadog_xhr xhr
  /\ (SpanCollection.requestHeaders result.2 = SpanCollection.requestHeaders xhr
      \/ exists str : string,
           result.1 = Some (TraceIdentifier.new random)
           /\ SpanCollection.requestHeaders result.2
              = SpanCollection.requestHeaders xhr
                ++ [("x-datadog-trace-id", str); ("x-datadog-parent-id", str);
                    ("x-datadog-origin", "rum");
                    ("x-datadog-sampling-priority", "1");
                    ("x-datadog-sampled", "1")]%string
           /\ TraceIdentifier.parse 10 str
              = Some (TraceIdentifier.value (TraceIdentifier.new random))
           /\ TraceIdentifier.value (TraceIdentifier.new random) < 2 ^ 63
           /\ (1 <= String.length str <= 19)%nat).
Proof.
  intros result. unfold result.
  destruct (tracer_cases window) as [[tracerId Htracer]|Htracer].
  { rewrite (traceXhr_tracer window random xhr tracerId Htracer). by split; [|left]. }
  destruct (decide (SpanCollection.origin window
                    = SpanCollection.location_origin window)) as [Horigin|Horigin].
  - destruct (traceXhr_injects window random xhr Htracer Horigin)
      as [Hid Hheaders].
    split.
    + unfold SpanCollection.traceXhr, SpanCollection.traceAndInject.
      rewrite Horigin, String.eqb_refl.
      by destruct Htracer as [-> | ->].
    + right. destruct (decimal_of_new random)
        as (str & _ & Hstr & Hparse & Hlen).
      exists str. rewrite Hstr in Hheaders.
      split; [exact Hid|]. split; [exact Hheaders|]. split; [exact Hparse|].
      split; [apply (value_new random) | exact Hlen].
  - rewrite (traceXhr_guarded window random xhr Htracer Horigin).
    by split; [|left].
Qed.

(** X8: what [traceXhr] returns and the headers it sets do not depend on the
    method or the url the request was opened with. *)
Theorem traceXhr_ignores_destination (window : SpanCollection.Window)
    (random : nat -> byte) (xhr : SpanCollection.XMLHttpRequest)
    (method : string) (url : SpanCollection.Url) :
  let opened := RequestCollection.open xhr method url in
  (SpanCollection.traceXhr window random opened).1
  = (SpanCollection.traceXhr window random xhr).1
  /\ SpanCollection.requestHeaders (SpanCollection.traceXhr window random opened).2
     = SpanCollection.requestHeaders (SpanCollection.traceXhr window random xhr).2.
Proof.
  intros opened.
  destruct (tracer_cases window) as [[tracerId Htracer]|Htracer].
  { rewrite !(traceXhr_tracer window random _ tracerId Htracer). by split. }
  destruct (decide (SpanCollection.origin window
                    = SpanCollection.location_origin window)) as [Horigin|Horigin].
  - destruct (traceXhr_injects window random xhr Htracer Horigin) as [-> ->].
    destruct (traceXhr_injects window random opened Htracer Horigin)
      as [-> ->].
    by split.
  - rewrite !(traceXhr_guarded window random _ Htracer Horigin). by split.
Qed.

Section TraceFetch.

Context {Headers : Type}.
Variable empty_headers : Headers.
Variable has_set : Headers -> bool.
Variable headers_set : string -> option string -> Headers -> Headers.
Variable assign : Headers -> list (string * string) -> Headers.

(** The three ways [traceFetch] ends. *)
Lemma traceFetch_cases (window : SpanCollection.Window) (random : nat -> byte)
    (init : option (SpanCollection.RequestInit (Headers := Headers))) :
  let result :=
    SpanCollection.traceFetch empty_headers has_set headers_set assign
      window random init in
  match SpanCollection.ddtrace window with
  | Some (Some tracerId) => result = SpanCollection.TracerId tracerId
  | _ =>
      if String.eqb (SpanCollection.origin window)
           (SpanCollection.location_origin window)
      then exists init',
             result
             = SpanCollection.InitAndTraceId init' (TraceIdentifier.new random)
             /\ SpanCollection.init_method init'
                = init ≫= SpanCollection.init_method
      else result = SpanCollection.Init init
  end.
Proof.
  intros result. unfold result, SpanCollection.traceFetch,
    SpanCollection.traceAndInject.
  destruct (SpanCollection.ddtrace window) as [[tracerId|]|]; [reflexivity|..];
    destruct (String.eqb (SpanCollection.origin window)
                (SpanCollection.location_origin window)); cbn;
    try reflexivity; eexists; (split; [reflexivity|]); by destruct init.
Qed.

(** X9: when the [headers] of the [init] have a [set] method and the global
    [name] is the empty string, [traceFetch] returns the new identifier but
    hands the headers back as they were: [set] is never called. *)
Theorem traceFetch_headers_with_set (window : SpanCollection.Window)
    (random : nat -> byte)
    (init : SpanCollection.RequestInit (Headers := Headers)) (h : Headers) :
  (SpanCollection.ddtrace window = None
   \/ SpanCollection.ddtrace window = Some None) ->
  SpanCollection.origin window = SpanCollection.location_origin window ->
  SpanCollection.name window = EmptyString ->
  SpanCollection.init_headers init = Some h ->
  has_set h = true ->
  SpanCollection.traceFetch empty_headers has_set headers_set assign
    window random (Some init)
  = SpanCollection.InitAndTraceId
      {| SpanCollection.init_method := SpanCollection.init_method init;
         SpanCollection.init_headers := Some h |}
      (TraceIdentifier.new random).
Proof.
  intros Htracer Horigin Hname Hheaders Hset.
  unfold SpanCollection.traceFetch, SpanCollection.traceAndInject,
    SpanCollection.keys_of_name.
  rewrite Horigin, String.eqb_refl, Hname, Hheaders.
  destruct Htracer as [-> | ->]; cbn; by rewrite Hset.
Qed.

End TraceFetch.

Lemma traceFetch_headers_with_set_witness :
  let init := {| SpanCollection.init_method := Some "POST"%string;
                 SpanCollection.init_headers :=
                   Some [("accept", "text/plain")]%string |} in
  SpanCollection.traceFetch [] (fun _ => true) example_headers_set
    example_assign (example_window None) example_random (Some init)
  = SpanCollection.InitAndTraceId init (TraceIdentifier.new example_random).
Proof.
  intros init.
  exact (traceFetch_headers_with_set [] (fun _ => true) example_headers_set
           example_assign (example_window None) example_random init
           [("accept", "text/plain")]%string
           (or_introl eq_refl) eq_refl eq_refl eq_refl eq_refl).
Defined.

(** ** Request events, continued *)

Section RequestEvents.

Context {Error StackTrace Headers : Type}.
Variable normalizeUrl : SpanCollection.Url -> string.
Variable computeStackTrace : Error -> StackTrace.
Variable toStackTraceString : StackTrace -> string.
Variable empty_headers : Headers.
Variable has_set : Headers -> bool.
Variable headers_set : string -> option string -> Headers -> Headers.
Variable assign : Headers -> list (string * string) -> Headers.

Local Abbreviation Action :=
  (RequestCollection.Action (Error := Error) (Headers := Headers)).
Local Abbreviation step :=
  (RequestCollection.step normalizeUrl computeStackTrace toStackTraceString
     empty_headers has_set headers_set assign).
Local Abbreviation run :=
  (RequestCollection.run normalizeUrl computeStackTrace toStackTraceString
     empty_headers has_set headers_set assign).

Lemma reported_once_initial : reported_once RequestCollection.initial.
Proof.
  split; cbn.
  - apply NoDup_nil_2.
  - intros x Hx. by apply elem_of_nil in Hx.
  - intros j call Hj. by rewrite lookup_nil in Hj.
  - intros j call Hj. by rewrite lookup_nil in Hj.
Qed.

Lemma lookup_snoc_cases {A : Type} (l : list A) (x y : A) (j : nat) :
  (l ++ [x]) !! j = Some y -> l !! j = Some y \/ y = x.
Proof.
  intros Hj. destruct (decide (j < length l)%nat) as [Hlt|Hge].
  - left. by rewrite lookup_app_l in Hj.
  - right. rewrite lookup_app_r in Hj by lia.
    destruct (j - length l)%nat; cbn in Hj; [congruence | done].
Qed.

Lemma lookup_insert_cases {A : Type} (l : list A) (i j : nat) (x y : A) :
  <[i := x]> l !! j = Some y -> (j = i /\ y = x) \/ (j <> i /\ l !! j = Some y).
Proof.
  intros Hj. destruct (decide (j = i)) as [->|Hne].
  - left. split; [done|].
    assert (i < length l)%nat.
    { apply lookup_lt_Some in Hj. by rewrite length_insert in Hj. }
    rewrite list_lookup_insert_eq in Hj by done. congruence.
  - right. split; [done|]. by rewrite list_lookup_insert_ne in Hj.
Qed.

Lemma reported_once_effect (a : Action) (s s' : RequestCollection.Requests) :
  consistent s -> reported_once s -> effect a s s' -> reported_once s'.
Proof.
  intros Hs [Hnodup Howned Hlatch Hpending] Heffect.
  pose proof (log_below s Hs) as Hlog.
  destruct Heffect as [ | | o e call Hid Hopen | o e call Hid Hpromise
                      | j call Ha Hj Hopen | j call e Ha Hj Hopen He
                      | j call Ha Hj Hpromise | j call e Ha Hj Hpromise He].
  - by split.
  - by split.
  - split; unfold xhr_ids, fetch_ids, log_ids in *; cbn; try done.
    + intros x Hx. rewrite fmap_app.
      apply Howned in Hx. apply elem_of_app in Hx as [Hx|Hx];
        rewrite !elem_of_app; auto.
    + intros k c Hk Hc. apply lookup_snoc_cases in Hk as [Hk | ->]; [eauto|].
      rewrite Hid. by apply below_fresh.
  - split; unfold xhr_ids, fetch_ids, log_ids in *; cbn; try done.
    + intros x Hx. rewrite fmap_app.
      apply Howned in Hx. apply elem_of_app in Hx as [Hx|Hx];
        rewrite !elem_of_app; auto.
    + intros k c Hk Hc. apply lookup_snoc_cases in Hk as [Hk | ->]; [eauto|].
      rewrite Hid. by apply below_fresh.
  - split; unfold xhr_ids, fetch_ids, log_ids in *; cbn;
      rewrite ?(xhr_ids_latch _ _ _ _ Hj); try done.
    intros k c Hk Hc. apply lookup_insert_cases in Hk as [[_ ->]|[_ Hk]];
      [discriminate | eauto].
  - assert (Hfresh : RequestCollection.xhr_requestId call ∉ log_ids s)
      by eauto.
    split; unfold xhr_ids, fetch_ids, log_ids in *; cbn;
      rewrite ?(xhr_ids_latch _ _ _ _ Hj), ?fmap_app; cbn; rewrite ?He.
    + apply NoDup_app. split; [done|]. split; [|apply NoDup_singleton].
      intros x Hx ->%list_elem_of_singleton. done.
    + intros x [Hx | ->%list_elem_of_singleton]%elem_of_app; [eauto|].
      apply elem_of_app. left. apply list_elem_of_fmap.
      exists call. split; [done|]. by eapply list_elem_of_lookup_2.
    + intros k c Hk Hc. apply lookup_insert_cases in Hk as [[_ ->]|[Hne Hk]];
        [discriminate|].
      intros [Hx | Hx%list_elem_of_singleton]%elem_of_app;
        [by eapply Hlatch|].
      apply Hne. by eapply (xhr_id_unique s k j c call).
    + intros k c Hk Hc.
      intros [Hx | Hx%list_elem_of_singleton]%elem_of_app;
        [by eapply Hpending|].
      by eapply (xhr_fetch_id_apart s j k call c).
  - split; unfold xhr_ids, fetch_ids, log_ids in *; cbn;
      rewrite ?(fetch_ids_settle _ _ _ _ Hj); try done.
    intros k c Hk Hc. apply lookup_insert_cases in Hk as [[_ ->]|[_ Hk]];
      [discriminate | eauto].
  - assert (Hfresh : RequestCollection.fetch_requestId call ∉ log_ids s)
      by eauto.
    split; unfold xhr_ids, fetch_ids, log_ids in *; cbn;
      rewrite ?(fetch_ids_settle _ _ _ _ Hj), ?fmap_app; cbn; rewrite ?He.
    + apply NoDup_app. split; [done|]. split; [|apply NoDup_singleton].
      intros x Hx ->%list_elem_of_singleton. done.
    + intros x [Hx | ->%list_elem_of_singleton]%elem_of_app; [eauto|].
      apply elem_of_app. right. apply list_elem_of_fmap.
      exists call. split; [done|]. by eapply list_elem_of_lookup_2.
    + intros k c Hk Hc.
      intros [Hx | Hx%list_elem_of_singleton]%elem_of_app;
        [by eapply Hlatch|].
      by eapply (xhr_fetch_id_apart s k j c call).
    + intros k c Hk Hc. apply lookup_insert_cases in Hk as [[_ ->]|[Hne Hk]];
        [discriminate|].
      intros [Hx | Hx%list_elem_of_singleton]%elem_of_app;
        [by eapply Hpending|].
      apply Hne. by eapply (fetch_id_unique s k j c call).
Qed.

Lemma reported_once_run (actions : list Action) :
  forall s, consistent s -> reported_once s ->
            reported_once (run actions s).
Proof.
  induction actions as [|a actions IH]; intros s Hs Hr; [done|].
  rewrite run_cons. pose proof (step_effect normalizeUrl computeStackTrace
    toStackTraceString empty_headers has_set headers_set assign a s) as He.
  apply IH; [by eapply consistent_effect | by eapply reported_once_effect].
Qed.

Lemma filter_none {A : Type} (f : A -> Z) (r : Z) (l : list A) :
  r ∉ f <$> l -> filter (fun x => f x = r) l = [].
Proof.
  induction l as [|x l IH]; [done|].
  rewrite fmap_cons. intros Hr. apply not_elem_of_cons in Hr as [Hx Hl].
  rewrite filter_cons_False by (cbn; congruence). by apply IH.
Qed.

Lemma filter_nodup_length {A : Type} (f : A -> Z) (r : Z) (l : list A) :
  NoDup (f <$> l) -> (length (filter (fun x => f x = r) l) <= 1)%nat.
Proof.
  induction l as [|x l IH]; [cbn; lia|].
  rewrite fmap_cons. intros [Hx Hl]%NoDup_cons.
  destruct (decide (f x = r)) as [Hr|Hr].
  - rewrite filter_cons_True by done. cbn.
    rewrite filter_none by congruence. cbn. lia.
  - rewrite filter_cons_False by done. by apply IH.
Qed.

Lemma reportXhr_start (i : nat) (this : SpanCollection.XMLHttpRequest)
    (now : Z) (s : RequestCollection.Requests) :
  let s' := (RequestCollection.monitor
               (RequestCollection.reportXhr normalizeUrl i this now s)).1 in
  start_ids s' = start_ids s /\ xhr_ids s' = xhr_ids s
  /\ fetch_ids s' = fetch_ids s
  /\ RequestCollection.nextRequestId s' = RequestCollection.nextRequestId s.
Proof.
  unfold RequestCollection.reportXhr.
  destruct (RequestCollection.xhrCalls s !! i) as [call|] eqn:Hcall; [|done].
  destruct (RequestCollection.hasBeenReported call); [done|].
  destruct (SpanCollection._datadog_xhr this) as [[method url]|]; cbn;
    unfold start_ids, xhr_ids, fetch_ids; cbn;
    by rewrite (xhr_ids_latch _ _ _ _ Hcall).
Qed.

(** An action publishes no start event and creates no closure, or it
    publishes the start event of the next request id and creates its
    closure. *)
Lemma step_start (a : Action) (s : RequestCollection.Requests) :
  (start_ids (step a s) = start_ids s
   /\ xhr_ids (step a s) = xhr_ids s
   /\ fetch_ids (step a s) = fetch_ids s
   /\ RequestCollection.nextRequestId s
      <= RequestCollection.nextRequestId (step a s))
  \/ (start_ids (step a s)
      = start_ids s ++ [RequestCollection.nextRequestId s]
      /\ RequestCollection.nextRequestId (step a s)
         = RequestCollection.nextRequestId s + 1
      /\ xhr_ids (step a s) ++ fetch_ids (step a s)
         ≡ₚ (xhr_ids s ++ fetch_ids s) ++ [RequestCollection.nextRequestId s]).
Proof.
  destruct a as [[o1 o2] window random now this | i this now | i this now
                | [o1 o2] window random now input init | i value now].
  - right. cbn. destruct (SpanCollection.traceXhr window random this) as [t x].
    unfold start_ids, xhr_ids, fetch_ids. cbn. rewrite !fmap_app. cbn.
    split; [done|]. split; [done|].
    rewrite <- !app_assoc. apply Permutation_app_head, Permutation_app_comm.
  - left. cbn. unfold RequestCollection.onreadystatechange.
    destruct (SpanCollection.readyState this =? SpanCollection.DONE);
      [|repeat split; lia].
    destruct (reportXhr_start i this now s) as (-> & -> & -> & ->).
    repeat split; lia.
  - left. cbn. unfold RequestCollection.loadend.
    destruct (reportXhr_start i this now s) as (-> & -> & -> & ->).
    repeat split; lia.
  - cbn. unfold RequestCollection.fetch. cbn.
    destruct (SpanCollection.traceFetch _ _ _ _ window random init)
      as [tracerId | [init'|] | init' traceId]; cbn;
      unfold start_ids, xhr_ids, fetch_ids; cbn; rewrite ?fmap_app; cbn;
      first [ right; split; [done|]; split; [done|]; by rewrite app_assoc
            | left; repeat split; lia ].
  - left. cbn. unfold RequestCollection.settle.
    destruct (RequestCollection.fetchCalls s !! i) as [call|] eqn:Hcall;
      [|repeat split; lia].
    destruct (RequestCollection.promise call); [|repeat split; lia].
    destruct value as [e | r |]; cbn; unfold start_ids, xhr_ids, fetch_ids;
      cbn; rewrite (fetch_ids_settle _ _ _ _ Hcall); repeat split; lia.
Qed.

Lemma started_initial : started RequestCollection.initial.
Proof. split; cbn; [lia | constructor | constructor | done]. Qed.

Lemma started_step (a : Action) (s : RequestCollection.Requests) :
  started s -> started (step a s).
Proof.
  intros [Hnext Hsorted Hbelow Hcalls].
  destruct (step_start a s) as [(Hs & Hx & Hf & Hn) | (Hs & Hn & Hp)].
  - split; rewrite ?Hs, ?Hx, ?Hf; try done; [lia|].
    eapply Forall_impl; [exact Hbelow|]. intros x Hx'. cbn in *. lia.
  - split; rewrite ?Hs, ?Hn; [lia | | |].
    + apply StronglySorted_app. split; [|split; [done | repeat constructor]].
      intros x1 x2 Hx1 ->%list_elem_of_singleton.
      rewrite Forall_forall in Hbelow. apply Hbelow in Hx1. lia.
    + apply Forall_app. split; [|apply Forall_singleton; lia].
      eapply Forall_impl; [exact Hbelow|]. intros x Hx'. cbn in *. lia.
    + by rewrite Hp, Hcalls.
Qed.

Lemma started_run (actions : list Action) :
  forall s, started s -> started (run actions s).
Proof.
  induction actions as [|a actions IH]; intros s Hs; [done|].
  rewrite run_cons. by apply IH, started_step.
Qed.

(** X10: in every state the page can reach, no request id has more than one
    complete event, whether the request is an XHR or a fetch. *)
Theorem complete_at_most_once (actions : list Action) (requestId : Z) :
  (length (RequestCollection.completed requestId
             (run actions RequestCollection.initial)) <= 1)%nat.
Proof.
  unfold RequestCollection.completed.
  pose proof (reported_once_run actions RequestCollection.initial
                consistent_initial reported_once_initial) as [Hnodup _ _ _].
  unfold log_ids in Hnodup.
  apply filter_nodup_length. rewrite <- list_fmap_compose. exact Hnodup.
Qed.

(** X11: the start events carry increasing request ids, from 1 on and below
    [nextRequestId], and there is exactly one of them for every closure the
    wrapped [send] and [fetch] have created. *)
Theorem start_events_increase (actions : list Action) :
  let s := run actions RequestCollection.initial in
  StronglySorted Z.lt (start_ids s)
  /\ Forall (fun x => 1 <= x < RequestCollection.nextRequestId s) (start_ids s)
  /\ start_ids s ≡ₚ xhr_ids s ++ fetch_ids s
  /\ length (RequestCollection.notifiedStart s)
     = (length (RequestCollection.xhrCalls s)
        + length (RequestCollection.fetchCalls s))%nat.
Proof.
  intros s.
  destruct (started_run actions RequestCollection.initial started_initial)
    as [_ Hsorted Hbelow Hcalls].
  fold s in Hsorted, Hbelow, Hcalls.
  split; [exact Hsorted|]. split; [exact Hbelow|]. split; [exact Hcalls|].
  apply Permutation_length in Hcalls.
  unfold start_ids, xhr_ids, fetch_ids in Hcalls.
  by rewrite length_app, !length_fmap in Hcalls.
Qed.

(** X12: in every state the page can reach, every complete event has the
    request id of a start event published before. *)
Theorem complete_after_start (actions : list Action) :
  let s := run actions RequestCollection.initial in
  Forall (fun oe => RequestCollection.requestId oe.2 ∈ start_ids s)
         (RequestCollection.notifiedComplete s).
Proof.
  intros s.
  destruct (started_run actions RequestCollection.initial started_initial)
    as [_ _ _ Hcalls].
  pose proof (reported_once_run actions RequestCollection.initial
                consistent_initial reported_once_initial) as [_ Howned _ _].
  fold s in Hcalls, Howned.
  apply Forall_forall. intros oe Hoe. rewrite Hcalls. apply Howned.
  unfold log_ids. apply list_elem_of_fmap. by exists oe.
Qed.

(** *** The life of one XHR call *)

Lemma unsignalled_stays (i : nat) (after : list Action) :
  forall (s : RequestCollection.Requests) (call : RequestCollection.XhrCall),
    consistent s ->
    RequestCollection.xhrCalls s !! i = Some call ->
    Forall (fun a => completes i a = false) after ->
    RequestCollection.xhrCalls (run after s) !! i = Some call
    /\ RequestCollection.completed (RequestCollection.xhr_requestId call)
         (run after s)
       = RequestCollection.completed (RequestCollection.xhr_requestId call) s.
Proof.
  induction after as [|a after IH]; intros s call Hs Hi Hafter; [done|].
  rewrite run_cons. apply Forall_cons in Hafter as [Ha Hafter].
  pose proof (step_effect normalizeUrl computeStackTrace toStackTraceString
                empty_headers has_set headers_set assign a s) as Heffect.
  destruct (effect_xhr_call a s _ i call Heffect Hi)
    as [Hi' | (Hc & _)]; [|congruence].
  destruct (effect_xhr_completed a s _ i call Hs Heffect Hi)
    as [Hsame | (Hc & _)]; [|congruence].
  cbn in Hsame. rewrite <- Hsame.
  apply IH; [|done..]. by eapply consistent_effect.
Qed.

(** What a completion signal does when it finds the latch open. *)
Lemma signal_step (a : Action) (i : nat) (s : RequestCollection.Requests)
    (call : RequestCollection.XhrCall) :
  completes i a = true ->
  RequestCollection.xhrCalls s !! i = Some call ->
  RequestCollection.hasBeenReported call = false ->
  exists this now,
    signal_of a = Some (this, now)
    /\ step a s
       = let latched :=
           RequestCollection.set_xhrCalls
             (<[i := RequestCollection.set_hasBeenReported true call]>
                (RequestCollection.xhrCalls s)) s in
         match SpanCollection._datadog_xhr this with
         | None => latched
         | Some (method, url) =>
             RequestCollection.notify_complete
               (RequestCollection.xhr_complete call)
               {| RequestCollection.requestId :=
                    RequestCollection.xhr_requestId call;
                  RequestCollection.type := RequestCollection.XHR;
                  RequestCollection.method := method;
                  RequestCollection.url := normalizeUrl url;
                  RequestCollection.status := SpanCollection.status this;
                  RequestCollection.response := SpanCollection.response this;
                  RequestCollection.responseType := None;
                  RequestCollection.startTime :=
                    RequestCollection.xhr_startTime call;
                  RequestCollection.duration :=
                    now - RequestCollection.xhr_startTime call;
                  RequestCollection.traceId :=
                    RequestCollection.xhr_traceId call |}
               latched
         end.
Proof.
  intros Ha Hi Hlatch.
  destruct a as [observables window random now this | j this now
                | j this now | observables window random now input init
                | j value now]; try discriminate Ha; cbn in Ha.
  - apply andb_prop in Ha as [Hj Hdone].
    apply bool_decide_eq_true in Hj as ->.
    exists this, now. split; [reflexivity|].
    cbn. unfold RequestCollection.onreadystatechange. rewrite Hdone.
    unfold RequestCollection.reportXhr. rewrite Hi, Hlatch.
    by destruct (SpanCollection._datadog_xhr this) as [[method url]|].
  - apply bool_decide_eq_true in Ha as ->.
    exists this, now. split; [reflexivity|].
    cbn. unfold RequestCollection.loadend, RequestCollection.reportXhr.
    rewrite Hi, Hlatch.
    by destruct (SpanCollection._datadog_xhr this) as [[method url]|].
Qed.

(** The closure a call of the wrapped [send] creates, in the state it
    leaves. *)
Lemma send_call (before : list Action)
    (observables : RequestCollection.RequestObservables)
    (window : SpanCollection.Window) (random : nat -> byte) (now : Z)
    (this : SpanCollection.XMLHttpRequest) :
  let s0 := run before RequestCollection.initial in
  let s1 := (RequestCollection.send observables window random now this s0).2 in
  let call :=
    {| RequestCollection.xhr_complete := observables.2;
       RequestCollection.xhr_requestId := RequestCollection.nextRequestId s0;
       RequestCollection.xhr_startTime := now;
       RequestCollection.xhr_traceId :=
         (SpanCollection.traceXhr window random this).1;
       RequestCollection.hasBeenReported := false |} in
  consistent s1
  /\ RequestCollection.xhrCalls s1 !! length (RequestCollection.xhrCalls s0)
     = Some call
  /\ RequestCollection.completed (RequestCollection.nextRequestId s0) s1 = [].
Proof.
  intros s0 s1 call.
  assert (Hs0 : consistent s0) by (apply consistent_run, consistent_initial).
  split; [|split].
  - eapply consistent_effect; [exact Hs0|].
    apply (step_effect normalizeUrl computeStackTrace toStackTraceString
             empty_headers has_set headers_set assign
             (RequestCollection.Send observables window random now this)).
  - unfold s1, call. destruct observables as [o1 o2].
    unfold RequestCollection.send. cbn.
    destruct (SpanCollection.traceXhr window random this) as [t x]. cbn.
    by apply list_lookup_middle.
  - destruct (send_creates observables window random now this s0)
      as (c & _ & _ & _ & _ & _ & Hlog).
    fold s1 in Hlog. unfold RequestCollection.completed. rewrite Hlog.
    apply (fresh_id_not_completed s0); [exact Hs0 | reflexivity].
Qed.

(** Before the first completion signal nothing is published for the call;
    the first one decides what is published, for good. *)
Lemma first_signal (i : nat) (after1 after2 : list Action) (a : Action)
    (s : RequestCollection.Requests) (call : RequestCollection.XhrCall) :
  consistent s ->
  RequestCollection.xhrCalls s !! i = Some call ->
  RequestCollection.hasBeenReported call = false ->
  Forall (fun a => completes i a = false) after1 ->
  completes i a = true ->
  RequestCollection.xhrCalls (run after1 s) !! i = Some call
  /\ RequestCollection.completed (RequestCollection.xhr_requestId call)
       (run (after1 ++ a :: after2) s)
     = RequestCollection.completed (RequestCollection.xhr_requestId call)
         (step a (run after1 s)).
Proof.
  intros Hs Hi Hlatch Hafter1 Ha.
  destruct (unsignalled_stays i after1 s call Hs Hi Hafter1) as [Hi2 _].
  split; [exact Hi2|]. rewrite run_app, run_cons.
  set (s2 := run after1 s) in *.
  assert (Hs2 : consistent s2) by (by apply consistent_run).
  assert (Hs3 : consistent (step a s2)).
  { eapply consistent_effect; [exact Hs2 | apply step_effect]. }
  assert (Hi3 : RequestCollection.xhrCalls (step a s2) !! i
                = Some (RequestCollection.set_hasBeenReported true call)).
  { destruct (signal_step a i s2 call Ha Hi2 Hlatch)
      as (this & now & _ & ->).
    destruct (SpanCollection._datadog_xhr this) as [[method url]|]; cbn;
      apply list_lookup_insert_eq; by eapply lookup_lt_Some. }
  exact (latched_stays normalizeUrl computeStackTrace toStackTraceString
           empty_headers has_set headers_set assign
           i after2 (step a s2) _ Hs3 Hi3 eq_refl).
Qed.

(** X13: a call of the wrapped [send] that gets no completion signal (the
    request is aborted, or still under way) has no complete event, whatever
    else happens on the page. *)
Theorem xhr_without_signal (before after : list Action)
    (observables : RequestCollection.RequestObservables)
    (window : SpanCollection.Window) (random : nat -> byte) (now : Z)
    (this : SpanCollection.XMLHttpRequest) :
  let s0 := run before RequestCollection.initial in
  let i := length (RequestCollection.xhrCalls s0) in
  let s1 := (RequestCollection.send observables window random now this s0).2 in
  Forall (fun a => completes i a = false) after ->
  RequestCollection.completed (RequestCollection.nextRequestId s0)
    (run after s1) = [].
Proof.
  intros s0 i s1 Hafter.
  destruct (send_call before observables window random now this)
    as (Hs1 & Hi & Hnone).
  fold s0 s1 i in Hs1, Hi, Hnone.
  destruct (unsignalled_stays i after s1 _ Hs1 Hi Hafter) as [_ Hsame].
  cbn in Hsame. by rewrite Hsame.
Qed.

(** X14: the first completion signal of a call decides its complete event:
    status and response are those of the request at that signal, method and
    url those of its last [open], the duration runs from the [send] to that
    signal, and the trace id is the one [traceXhr] returned at the [send].
    Later signals change nothing. *)
Theorem xhr_first_signal_wins (before after1 after2 : list Action) (a : Action)
    (observables : RequestCollection.RequestObservables)
    (window : SpanCollection.Window) (random : nat -> byte) (now now' : Z)
    (this this' : SpanCollection.XMLHttpRequest)
    (method : string) (url : SpanCollection.Url) :
  let s0 := run before RequestCollection.initial in
  let i := length (RequestCollection.xhrCalls s0) in
  let s1 := (RequestCollection.send observables window random now this s0).2 in
  Forall (fun a => completes i a = false) after1 ->
  completes i a = true ->
  signal_of a = Some (this', now') ->
  SpanCollection._datadog_xhr this' = Some (method, url) ->
  RequestCollection.completed (RequestCollection.nextRequestId s0)
    (run (after1 ++ a :: after2) s1)
  = [{| RequestCollection.requestId := RequestCollection.nextRequestId s0;
        RequestCollection.type := RequestCollection.XHR;
        RequestCollection.method := method;
        RequestCollection.url := normalizeUrl url;
        RequestCollection.status := SpanCollection.status this';
        RequestCollection.response := SpanCollection.response this';
        RequestCollection.responseType := None;
        RequestCollection.startTime := now;
        RequestCollection.duration := now' - now;
        RequestCollection.traceId :=
          (SpanCollection.traceXhr window random this).1 |}].
Proof.
  intros s0 i s1 Hafter1 Ha Hsignal Hopened.
  destruct (send_call before observables window random now this)
    as (Hs1 & Hi & Hnone).
  fold s0 s1 i in Hs1, Hi, Hnone.
  destruct (first_signal i after1 after2 a s1 _ Hs1 Hi eq_refl Hafter1 Ha)
    as [Hi2 Hfinal].
  cbn in Hfinal. rewrite Hfinal.
  destruct (unsignalled_stays i after1 s1 _ Hs1 Hi Hafter1) as [_ Hsame].
  cbn in Hsame.
  destruct (signal_step a i (run after1 s1) _ Ha Hi2 eq_refl)
    as (this0 & now0 & Hsignal0 & ->).
  rewrite Hsignal in Hsignal0. injection Hsignal0 as <- <-.
  rewrite Hopened. cbn zeta. rewrite completed_notify.
  change (RequestCollection.completed ?r
            (RequestCollection.set_xhrCalls ?l (run after1 s1)))
    with (RequestCollection.completed r (run after1 s1)).
  rewrite Hsame, Hnone. cbn. by rewrite decide_True.
Qed.

(** X15: when the first completion signal of a call comes on a request that
    did not go through the wrapped [open], the latch is set but nothing is
    published, then or later: the call never gets a complete event. *)
Theorem xhr_unopened_never_reported (before after1 after2 : list Action)
    (a : Action) (observables : RequestCollection.RequestObservables)
    (window : SpanCollection.Window) (random : nat -> byte) (now now' : Z)
    (this this' : SpanCollection.XMLHttpRequest) :
  let s0 := run before RequestCollection.initial in
  let i := length (RequestCollection.xhrCalls s0) in
  let s1 := (RequestCollection.send observables window random now this s0).2 in
  Forall (fun a => completes i a = false) after1 ->
  completes i a = true ->
  signal_of a = Some (this', now') ->
  SpanCollection._datadog_xhr this' = None ->
  RequestCollection.completed (RequestCollection.nextRequestId s0)
    (run (after1 ++ a :: after2) s1) = [].
Proof.
  intros s0 i s1 Hafter1 Ha Hsignal Hunopened.
  destruct (send_call before observables window random now this)
    as (Hs1 & Hi & Hnone).
  fold s0 s1 i in Hs1, Hi, Hnone.
  destruct (first_signal i after1 after2 a s1 _ Hs1 Hi eq_refl Hafter1 Ha)
    as [Hi2 Hfinal].
  cbn in Hfinal. rewrite Hfinal.
  destruct (unsignalled_stays i after1 s1 _ Hs1 Hi Hafter1) as [_ Hsame].
  cbn in Hsame.
  destruct (signal_step a i (run after1 s1) _ Ha Hi2 eq_refl)
    as (this0 & now0 & Hsignal0 & ->).
  rewrite Hsignal in Hsignal0. injection Hsignal0 as <- <-.
  rewrite Hunopened. cbn zeta.
  change (RequestCollection.completed ?r
            (RequestCollection.set_xhrCalls ?l (run after1 s1)))
    with (RequestCollection.completed r (run after1 s1)).
  by rewrite Hsame.
Qed.

(** *** The life of one fetch call *)

Lemma truthy_nonempty (o : option string) (m : string) :
  RequestCollection.truthy o = Some m -> m <> EmptyString.
Proof.
  destruct o as [str|]; [|discriminate]. cbn.
  destruct (String.eqb_spec str EmptyString); [discriminate|]. congruence.
Qed.

(** The method the wrapped [fetch] records is never the empty string. *)
Lemma fetch_method_nonempty
    (init : option (SpanCollection.RequestInit (Headers := Headers)))
    (input : RequestCollection.RequestInfo) :
  match RequestCollection.truthy (init ≫= SpanCollection.init_method) with
  | Some m => m
  | None =>
      match input with
      | RequestCollection.RequestObject _ m =>
          match RequestCollection.truthy (Some m) with
          | Some m => m
          | None => "GET"%string
          end
      | RequestCollection.UrlString _ => "GET"%string
      end
  end <> EmptyString.
Proof.
  destruct (RequestCollection.truthy (init ≫= SpanCollection.init_method))
    as [m|] eqn:Hm; [by eapply truthy_nonempty|].
  destruct input as [u | u m]; [done|].
  destruct (RequestCollection.truthy (Some m)) as [m'|] eqn:Hm';
    [by eapply truthy_nonempty | done].
Qed.

(** The closure a call of the wrapped [fetch] creates when it reaches the
    original [fetch], in the state it leaves. *)
Lemma fetch_call (before : list Action)
    (observables : RequestCollection.RequestObservables)
    (window : SpanCollection.Window) (random : nat -> byte) (now : Z)
    (input : RequestCollection.RequestInfo)
    (init init' : option (SpanCollection.RequestInit (Headers := Headers)))
    (s1 : RequestCollection.Requests) :
  let s0 := run before RequestCollection.initial in
  RequestCollection.fetch empty_headers has_set headers_set assign
    observables window random now input init s0 = (s1, JS.Normal init') ->
  consistent s1
  /\ RequestCollection.completed (RequestCollection.nextRequestId s0) s1 = []
  /\ exists call,
       RequestCollection.fetchCalls s1 !! length (RequestCollection.fetchCalls s0)
       = Some call
       /\ RequestCollection.fetch_requestId call
          = RequestCollection.nextRequestId s0
       /\ RequestCollection.promise call = RequestCollection.Pending
       /\ RequestCollection.fetch_startTime call = now
       /\ RequestCollection.fetch_method call <> EmptyString.
Proof.
  intros s0 Hfetch.
  assert (Hs0 : consistent s0) by (apply consistent_run, consistent_initial).
  split; [|split].
  - eapply consistent_effect; [exact Hs0|].
    pose proof (step_effect normalizeUrl computeStackTrace toStackTraceString
                  empty_headers has_set headers_set assign
                  (RequestCollection.Fetch observables window random now
                     input init) s0) as Heffect.
    cbn in Heffect. fold s0 in Heffect. rewrite Hfetch in Heffect.
    exact Heffect.
  - destruct (fetch_creates empty_headers has_set headers_set assign
                observables window random now input init init' s0 s1 Hfetch)
      as (c & _ & _ & _ & Hlog).
    unfold RequestCollection.completed. rewrite Hlog.
    apply (fresh_id_not_completed s0); [exact Hs0 | reflexivity].
  - revert Hfetch. destruct observables as [o1 o2].
    unfold RequestCollection.fetch. cbn.
    destruct (SpanCollection.traceFetch _ _ _ _ window random init)
      as [tracerId | [init0|] | init0 traceId]; cbn; intros [= <- _];
      (eexists; split; [apply list_lookup_middle; reflexivity|]);
      (split; [reflexivity|]); (split; [reflexivity|]);
      (split; [reflexivity|]); exact (fetch_method_nonempty init input).
Qed.

(** Before its promise settles nothing is published for a fetch call; the
    settlement decides what is published, for good. *)
Lemma first_settle (i : nat) (after1 after2 : list Action)
    (value : RequestCollection.SettledValue (Error := Error)) (now' : Z)
    (s : RequestCollection.Requests) (call : RequestCollection.FetchCall) :
  consistent s ->
  RequestCollection.fetchCalls s !! i = Some call ->
  RequestCollection.promise call = RequestCollection.Pending ->
  Forall (fun a => settles i a = false) after1 ->
  let r := RequestCollection.fetch_requestId call in
  RequestCollection.completed r (run after1 s) = RequestCollection.completed r s
  /\ RequestCollection.completed r
       (run (after1 ++ RequestCollection.Settle i value now' :: after2) s)
     = RequestCollection.completed r
         (RequestCollection.reportFetch normalizeUrl computeStackTrace
            toStackTraceString call value now' (run after1 s)).
Proof.
  intros Hs Hi Hpromise Hafter1 r.
  destruct (pending_stays normalizeUrl computeStackTrace toStackTraceString
              empty_headers has_set headers_set assign
              i after1 s call Hs Hi Hafter1) as [Hi2 Hsame].
  split; [exact Hsame|]. rewrite run_app, run_cons.
  set (s2 := run after1 s) in *.
  assert (Hs2 : consistent s2) by (by apply consistent_run).
  set (a := RequestCollection.Settle i value now').
  assert (Hs3 : consistent (step a s2)).
  { eapply consistent_effect; [exact Hs2 | apply step_effect]. }
  assert (Hstep : step a s2
                  = RequestCollection.reportFetch normalizeUrl
                      computeStackTrace toStackTraceString call value now'
                      (RequestCollection.set_fetchCalls
                         (<[i := RequestCollection.set_promise
                                   RequestCollection.Settled call]>
                            (RequestCollection.fetchCalls s2)) s2)).
  { cbn. unfold RequestCollection.settle. by rewrite Hi2, Hpromise. }
  assert (Hi3 : RequestCollection.fetchCalls (step a s2) !! i
                = Some (RequestCollection.set_promise
                          RequestCollection.Settled call)).
  { rewrite Hstep. destruct value as [e | resp |]; cbn;
      apply list_lookup_insert_eq; by eapply lookup_lt_Some. }
  pose proof (settled_stays normalizeUrl computeStackTrace toStackTraceString
                empty_headers has_set headers_set assign
                i after2 (step a s2) _ Hs3 Hi3 eq_refl) as Hstay.
  change (RequestCollection.fetch_requestId
            (RequestCollection.set_promise RequestCollection.Settled call))
    with r in Hstay.
  rewrite Hstay, Hstep. by destruct value as [e | resp |].
Qed.


(** X17: a fetch call whose promise does not settle, or settles with a value
    that is neither an error nor a response, never has a complete event. *)
Theorem fetch_without_report (before after1 after2 : list Action)
    (observables : RequestCollection.RequestObservables)
    (window : SpanCollection.Window) (random : nat -> byte) (now now' : Z)
    (input : RequestCollection.RequestInfo)
    (init init' : option (SpanCollection.RequestInit (Headers := Headers)))
    (s1 : RequestCollection.Requests) :
  let s0 := run before RequestCollection.initial in
  let i := length (RequestCollection.fetchCalls s0) in
  let requestId := RequestCollection.nextRequestId s0 in
  let settled := RequestCollection.Settle i RequestCollection.OtherValue now' in
  RequestCollection.fetch empty_headers has_set headers_set assign
    observables window random now input init s0 = (s1, JS.Normal init') ->
  Forall (fun a => settles i a = false) after1 ->
  RequestCollection.completed requestId (run after1 s1) = []
  /\ RequestCollection.completed requestId
       (run (after1 ++ settled :: after2) s1) = [].
Proof.
  intros s0 i requestId settled Hfetch Hafter1.
  destruct (fetch_call before observables window random now input init init'
              s1 Hfetch)
    as (Hs1 & Hnone & call & Hi & Hid & Hpromise & _).
  fold s0 i requestId in Hnone, Hi, Hid.
  destruct (first_settle i after1 after2 RequestCollection.OtherValue
              now' s1 call Hs1 Hi Hpromise Hafter1) as [Hsame Hfinal].
  cbn zeta in Hsame, Hfinal. rewrite Hid in Hsame, Hfinal.
  fold settled in Hfinal. rewrite Hfinal.
  cbn [RequestCollection.reportFetch]. by rewrite Hsame.
Qed.

(** X18: the complete event of a fetch call whose promise is rejected with
    an error counts as rejected ([isRejected]) and not as a server error
    ([isServerError]). *)
Theorem fetch_rejection_is_rejected (before after1 after2 : list Action)
    (observables : RequestCollection.RequestObservables)
    (window : SpanCollection.Window) (random : nat -> byte) (now now' : Z)
    (input : RequestCollection.RequestInfo)
    (init init' : option (SpanCollection.RequestInit (Headers := Headers)))
    (s1 : RequestCollection.Requests) (err : Error) :
  let s0 := run before RequestCollection.initial in
  let i := length (RequestCollection.fetchCalls s0) in
  let requestId := RequestCollection.nextRequestId s0 in
  let rejected :=
    RequestCollection.Settle i (RequestCollection.ErrorValue err) now' in
  RequestCollection.fetch empty_headers has_set headers_set assign
    observables window random now input init s0 = (s1, JS.Normal init') ->
  Forall (fun a => settles i a = false) after1 ->
  exists e,
    RequestCollection.completed requestId
      (run (after1 ++ rejected :: after2) s1) = [e]
    /\ RequestCollection.isRejected e = true
    /\ RequestCollection.isServerError e = false.
Proof.
  intros s0 i requestId rejected Hfetch Hafter1.
  destruct (fetch_call before observables window random now input init init'
              s1 Hfetch)
    as (Hs1 & Hnone & call & Hi & Hid & Hpromise & _).
  fold s0 i requestId in Hnone, Hi, Hid.
  destruct (first_settle i after1 after2 (RequestCollection.ErrorValue err)
              now' s1 call Hs1 Hi Hpromise Hafter1) as [Hsame Hfinal].
  cbn zeta in Hsame, Hfinal. rewrite Hid in Hsame, Hfinal.
  fold rejected in Hfinal. rewrite Hfinal.
  cbn [RequestCollection.reportFetch].
  rewrite completed_notify, Hsame, Hnone.
  rewrite decide_True by exact Hid.
  eexists. split; [reflexivity|]. by split.
Qed.


(** X19: what the wrapped [fetch] hands to the original [fetch].  With an
    active scope of the upstream tracer the caller's [init] is dropped.
    Without one, when the global [origin] is the origin of the page, an
    [init] with the caller's method is handed over; otherwise the caller's
    [init] is dropped when there is one, and when there is none the wrapper
    fails before the original [fetch] is called: it publishes no start
    event and creates no closure, but the request id is used up. *)
Theorem fetch_init_forwarding
    (observables : RequestCollection.RequestObservables)
    (window : SpanCollection.Window) (random : nat -> byte) (now : Z)
    (input : RequestCollection.RequestInfo)
    (init : option (SpanCollection.RequestInit (Headers := Headers)))
    (s : RequestCollection.Requests) :
  let result :=
    RequestCollection.fetch empty_headers has_set headers_set assign
      observables window random now input init s in
  match SpanCollection.ddtrace window with
  | Some (Some tracerId) => result.2 = JS.Normal None
  | _ =>
      if String.eqb (SpanCollection.origin window)
           (SpanCollection.location_origin window)
      then exists init',
             result.2 = JS.Normal (Some init')
             /\ SpanCollection.init_method init'
                = init ≫= SpanCollection.init_method
      else match init with
           | Some _ => result.2 = JS.Normal None
           | None =>
               result
               = ((RequestCollection.getNextRequestId s).2,
                  JS.Throw JS.TypeError)
           end
  end.
Proof.
  intros result. unfold result, RequestCollection.fetch.
  destruct observables as [o1 o2]. cbn.
  pose proof (traceFetch_cases empty_headers has_set headers_set assign
                window random init) as Hcases.
  cbn zeta in Hcases.
  destruct (SpanCollection.ddtrace window) as [[tracerId|]|];
    [by rewrite Hcases|..];
    (destruct (String.eqb (SpanCollection.origin window)
                 (SpanCollection.location_origin window));
     [ destruct Hcases as (init' & -> & Hmethod); cbn; by exists init'
     | rewrite Hcases; by destruct init ]).
Qed.

End RequestEvents.

(** X28: no complete event counts both as rejected ([isRejected]) and as
    a server error ([isServerError]). *)
Theorem rejected_or_server_error (request : RequestCollection.RequestCompleteEvent) :
  RequestCollection.isRejected request
  && RequestCollection.isServerError request = false.
Proof.
  unfold RequestCollection.isRejected, RequestCollection.isServerError.
  destruct (Z.eqb_spec (RequestCollection.status request) 0) as [->|_];
    [|reflexivity].
  by rewrite andb_false_r.
Qed.


Lemma xhr_without_signal_witness :
  let after :=
    [RequestCollection.ReadyStateChange 0 (example_xhr "app.example.com") 11;
     RequestCollection.LoadEnd 1 example_done 12] in
  let s1 :=
    (RequestCollection.send (0%nat, 1%nat) (example_window None) example_random
       10 (example_xhr "app.example.com") RequestCollection.initial).2 in
  RequestCollection.completed 1 (example_run after s1) = [].
Proof.
  intros after s1.
  assert (Hafter : Forall (fun a => completes 0 a = false) after).
  { repeat constructor. }
  exact (xhr_without_signal example_normalizeUrl (fun e : string => e)
           example_toStackTraceString [] (fun _ => false)
           example_headers_set example_assign
           [] after (0%nat, 1%nat) (example_window None) example_random 10
           (example_xhr "app.example.com") Hafter).
Defined.

Lemma xhr_first_signal_wins_witness :
  let after :=
    [RequestCollection.ReadyStateChange 0 (example_xhr "app.example.com") 11;
     RequestCollection.ReadyStateChange 0 example_done 12;
     RequestCollection.LoadEnd 0 example_unopened 13] in
  let s1 :=
    (RequestCollection.send (0%nat, 1%nat) (example_window None) example_random
       10 (example_xhr "app.example.com") RequestCollection.initial).2 in
  (fun e => (RequestCollection.status e, RequestCollection.duration e))
    <$> RequestCollection.completed 1 (example_run after s1)
  = [(200, 2)].
Proof.
  intros after s1.
  assert (Hafter1 :
            Forall (fun a => completes 0 a = false)
              [RequestCollection.ReadyStateChange (Error := string)
                 (Headers := list (string * string))
                 0 (example_xhr "app.example.com") 11]).
  { repeat constructor. }
  exact (f_equal
           (fmap (fun e => (RequestCollection.status e,
                            RequestCollection.duration e)))
           (xhr_first_signal_wins example_normalizeUrl (fun e : string => e)
              example_toStackTraceString [] (fun _ => false)
              example_headers_set example_assign
              [] _ [RequestCollection.LoadEnd 0 example_unopened 13]
              (RequestCollection.ReadyStateChange 0 example_done 12)
              (0%nat, 1%nat) (example_window None) example_random 10 12
              (example_xhr "app.example.com") example_done "GET"%string
              {| SpanCollection.scheme := "https";
                 SpanCollection.host := "app.example.com";
                 SpanCollection.port := "";
                 SpanCollection.path := "/api/items" |}
              Hafter1 eq_refl eq_refl eq_refl)).
Defined.

Lemma xhr_unopened_never_reported_witness :
  let after :=
    [RequestCollection.ReadyStateChange 0 (example_xhr "app.example.com") 11;
     RequestCollection.LoadEnd 0 example_unopened 12;
     RequestCollection.ReadyStateChange 0 example_done 13] in
  let s1 :=
    (RequestCollection.send (0%nat, 1%nat) (example_window None) example_random
       10 (example_xhr "app.example.com") RequestCollection.initial).2 in
  RequestCollection.completed 1 (example_run after s1) = [].
Proof.
  intros after s1.
  assert (Hafter1 :
            Forall (fun a => completes 0 a = false)
              [RequestCollection.ReadyStateChange (Error := string)
                 (Headers := list (string * string))
                 0 (example_xhr "app.example.com") 11]).
  { repeat constructor. }
  exact (xhr_unopened_never_reported example_normalizeUrl
           (fun e : string => e) example_toStackTraceString []
           (fun _ => false) example_headers_set example_assign
           [] _ [RequestCollection.ReadyStateChange 0 example_done 13]
           (RequestCollection.LoadEnd 0 example_unopened 12)
           (0%nat, 1%nat) (example_window None) example_random 10 12
           (example_xhr "app.example.com") example_unopened
           Hafter1 eq_refl eq_refl eq_refl).
Defined.


Lemma fetch_without_report_witness :
  let after :=
    [RequestCollection.Settle 0 RequestCollection.OtherValue 25;
     RequestCollection.Settle 0
       (RequestCollection.ResponseValue example_response) 26] in
  RequestCollection.completed 1 (example_run after example_fetch.1) = [].
Proof.
  intros after.
  exact (proj2
           (fetch_without_report example_normalizeUrl
              (fun e : string => e) example_toStackTraceString []
              (fun _ => false) example_headers_set example_assign
              [] []
              [RequestCollection.Settle 0
                 (RequestCollection.ResponseValue example_response) 26]
              (0%nat, 1%nat) (example_window None) example_random 10 25
              (RequestCollection.UrlString example_page) None
              (match example_fetch.2 with
               | JS.Normal init' => init'
               | _ => None
               end)
              example_fetch.1 eq_refl (Forall_nil_2 _))).
Defined.

Lemma fetch_rejection_is_rejected_witness :
  let after :=
    [RequestCollection.Settle 0
       (RequestCollection.ErrorValue "TypeError: Failed to fetch"%string) 25] in
  exists e,
    RequestCollection.completed 1 (example_run after example_fetch.1) = [e]
    /\ RequestCollection.isRejected e = true
    /\ RequestCollection.isServerError e = false.
Proof.
  intros after.
  exact (fetch_rejection_is_rejected example_normalizeUrl
           (fun e : string => e) example_toStackTraceString []
           (fun _ => false) example_headers_set example_assign
           [] [] []
           (0%nat, 1%nat) (example_window None) example_random 10 25
           (RequestCollection.UrlString example_page) None
           (match example_fetch.2 with
            | JS.Normal init' => init'
            | _ => None
            end)
           example_fetch.1 "TypeError: Failed to fetch"%string
           eq_refl (Forall_nil_2 _)).
Defined.

(** ** Deliveries of a batch *)

Section BatchDeliveries.

Context {Message Context_ : Type}.
Variable stringify : Message -> Context_ -> string.
Variable request : Transport.HttpRequest.
Variables maxSize bytesLimit : Z.

Local Abbreviation start := (Transport.new request maxSize bytesLimit).

Lemma batched_new : batched request maxSize bytesLimit start [] [].
Proof.
  split; cbn.
  - rewrite app_nil_r. by destruct request.
  - by split.
  - reflexivity.
  - reflexivity.
  - constructor.
Qed.

Lemma bounded_new : bounded start [].
Proof.
  split; cbn.
  - by left.
  - constructor.
  - intros Hmax. split; [lia | constructor].
Qed.

Lemma batched_flush (this : Transport.Batch) (chunks : list (list string))
    (records : list string) :
  batched request maxSize bytesLimit this chunks records ->
  batched request maxSize bytesLimit (Transport.flush this)
    (chunks ++ flushed this) records.
Proof.
  intros [Hreq Hlim Hrec Hacc Hne]. unfold flushed.
  destruct (Transport.buffer this) as [|r rest] eqn:Hb.
  - rewrite flush_empty by exact Hb. rewrite app_nil_r.
    split; try assumption. by rewrite Hb.
  - rewrite flush_nonempty by congruence. rewrite Hb.
    unfold accounted in Hacc. rewrite Hb in Hacc.
    split; cbn [Transport.request Transport.buffer Transport.bufferBytesSize
                Transport.maxSize Transport.bytesLimit].
    + rewrite Hreq. unfold Transport.send.
      cbn [Transport.deliveries Transport.endpointUrl Transport.sendBeacon
           Transport.request_bytesLimit].
      rewrite fmap_app, <- app_assoc, Hacc. reflexivity.
    + exact Hlim.
    + rewrite concat_app, app_nil_r. cbn [concat]. by rewrite app_nil_r.
    + reflexivity.
    + apply Forall_app. split; [exact Hne|]. by constructor.
Qed.

Lemma batched_push (record : string) (this : Transport.Batch)
    (chunks : list (list string)) (records : list string) :
  batched request maxSize bytesLimit this chunks records ->
  batched request maxSize bytesLimit
    (Transport.push record (Transport.sizeInBytes record) this)
    chunks (records ++ [record]).
Proof.
  intros [Hreq Hlim Hrec Hacc Hne].
  split; try assumption.
  - cbn [Transport.push Transport.buffer]. by rewrite app_assoc, Hrec.
  - by apply accounted_push.
Qed.

Lemma batched_add (context : Context_) (message : Message)
    (this : Transport.Batch) (chunks : list (list string))
    (records : list string) :
  batched request maxSize bytesLimit this chunks records ->
  batched request maxSize bytesLimit
    (Transport.add stringify context message this)
    (chunks ++ add_flushed stringify context message this)
    (records ++ [stringify message context]).
Proof.
  intros Hthis. unfold Transport.add, Transport.process, add_flushed.
  cbv zeta.
  destruct (Transport.willReachedBytesLimitWith _ this);
    match goal with
    | |- context [if Transport.isFull ?b then _ else _] =>
        destruct (Transport.isFull b)
    end;
    rewrite ?app_nil_r, ?app_nil_l, ?app_assoc;
    auto using batched_flush, batched_push.
Qed.

Lemma payload_size_snoc (records : list string) (record : string) :
  payload_size (records ++ [record])
  = Transport.total_bytes records + Transport.sizeInBytes record
    + Z.of_nat (length records).
Proof.
  unfold payload_size. rewrite total_bytes_snoc, length_app. cbn. lia.
Qed.

Lemma total_bytes_nonneg (records : list string) :
  0 <= Transport.total_bytes records.
Proof.
  induction records as [|r records IH]; [done|].
  change (Transport.total_bytes (r :: records))
    with (Transport.sizeInBytes r + Transport.total_bytes records).
  unfold Transport.sizeInBytes. lia.
Qed.

Lemma bounded_flush (this : Transport.Batch) (chunks : list (list string)) :
  bounded this chunks ->
  bounded (Transport.flush this) (chunks ++ flushed this).
Proof.
  intros [Hbuf Hbytes Hcount]. unfold flushed.
  destruct (Transport.buffer this) as [|r rest] eqn:Hb.
  - rewrite flush_empty by exact Hb. rewrite app_nil_r.
    split; try assumption; rewrite Hb; assumption.
  - rewrite flush_nonempty by congruence.
    split; cbn [Transport.request Transport.buffer Transport.bufferBytesSize
                Transport.maxSize Transport.bytesLimit].
    + by left.
    + apply Forall_app. split; [exact Hbytes|].
      constructor; [|constructor]. left.
      destruct Hbuf as [Hbuf|Hbuf]; [discriminate | exact Hbuf].
    + intros Hmax. destruct (Hcount Hmax) as [Hlen Hall].
      split; [cbn; lia|].
      apply Forall_app. split; [exact Hall|].
      constructor; [lia | constructor].
Qed.

Lemma bounded_add (context : Context_) (message : Message)
    (this : Transport.Batch) (chunks : list (list string)) :
  accounted this ->
  bounded this chunks ->
  bounded (Transport.add stringify context message this)
    (chunks ++ add_flushed stringify context message this).
Proof.
  intros Hacc Hthis. unfold Transport.add, Transport.process, add_flushed.
  cbv zeta.
  set (record := stringify message context).
  set (m := Transport.sizeInBytes record).
  destruct (Transport.willReachedBytesLimitWith m this) eqn:Hwill.
  - pose proof (bounded_flush this chunks Hthis) as [_ Hbytes Hcount].
    pose proof (accounted_flush this Hacc) as Hacc1.
    pose proof (flush_buffer this) as Hb1.
    destruct (flush_limits this) as [Hmax1 Hlim1].
    unfold accounted in Hacc1. rewrite Hb1 in Hacc1. cbn in Hacc1.
    set (this1 := Transport.flush this) in *.
    set (this2 := Transport.push record m this1).
    assert (Hb2 : Transport.buffer this2 = [record])
      by (unfold this2; cbn; by rewrite Hb1).
    assert (Hs2 : Transport.bufferBytesSize this2 = m)
      by (unfold this2; cbn; lia).
    destruct (Transport.isFull this2) eqn:Hfull.
    + unfold flushed. rewrite Hb2.
      rewrite flush_nonempty by (rewrite Hb2; discriminate).
      rewrite app_assoc.
      split; cbn [Transport.request Transport.buffer Transport.maxSize
                  Transport.bufferBytesSize Transport.bytesLimit].
      * by left.
      * apply Forall_app. split; [exact Hbytes|].
        constructor; [by right | constructor].
      * change (Transport.maxSize this2) with (Transport.maxSize this1).
        intros Hmax. destruct (Hcount Hmax) as [_ Hall].
        split; [cbn [length]; lia|].
        apply Forall_app. split; [exact Hall|].
        constructor; [cbn [length]; lia | constructor].
    + rewrite app_nil_r. unfold Transport.isFull in Hfull.
      rewrite Hb2, Hs2 in Hfull.
      apply orb_false_elim in Hfull as [Hn Hl].
      split.
      * right. rewrite Hb2. unfold payload_size. cbn. fold m.
        change (Transport.bytesLimit this2) with (Transport.bytesLimit this1)
          in *. lia.
      * exact Hbytes.
      * change (Transport.maxSize this2) with (Transport.maxSize this1) in *.
        intros Hmax. destruct (Hcount Hmax) as [_ Hall].
        split; [|exact Hall].
        rewrite Hb2. apply Z.eqb_neq in Hn. cbn [length] in *. lia.
  - destruct Hthis as [_ Hbytes Hcount]. rewrite app_nil_l.
    unfold Transport.willReachedBytesLimitWith in Hwill.
    unfold accounted in Hacc.
    set (this2 := Transport.push record m this).
    assert (Hb2 : Transport.buffer this2 = Transport.buffer this ++ [record])
      by reflexivity.
    assert (Hs2 : Transport.bufferBytesSize this2
                  = Transport.total_bytes (Transport.buffer this) + m)
      by (unfold this2; cbn; by rewrite Hacc).
    assert (Hp2 : payload_size (Transport.buffer this2)
                  < Transport.bytesLimit this)
      by (rewrite Hb2, payload_size_snoc; fold m; lia).
    destruct (Transport.isFull this2) eqn:Hfull.
    + assert (Hlen2 : length (Transport.buffer this2)
                      = S (length (Transport.buffer this)))
        by (rewrite Hb2, length_app; cbn; lia).
      clear Hb2. unfold flushed.
      destruct (Transport.buffer this2) as [|r rest] eqn:Hb3;
        [discriminate|].
      rewrite flush_nonempty by (rewrite Hb3; discriminate).
      split; cbn [Transport.request Transport.buffer Transport.maxSize
                  Transport.bufferBytesSize Transport.bytesLimit].
      * by left.
      * apply Forall_app. split; [exact Hbytes|].
        constructor; [|constructor]. left. exact Hp2.
      * change (Transport.maxSize this2) with (Transport.maxSize this).
        intros Hmax. destruct (Hcount Hmax) as [Hlen Hall].
        split; [cbn [length]; lia|].
        apply Forall_app. split; [exact Hall|].
        constructor; [|constructor]. rewrite Hlen2. lia.
    + rewrite app_nil_r. unfold Transport.isFull in Hfull.
      apply orb_false_elim in Hfull as [Hn Hl].
      split.
      * right. exact Hp2.
      * exact Hbytes.
      * change (Transport.maxSize this2) with (Transport.maxSize this) in *.
        intros Hmax. destruct (Hcount Hmax) as [Hlen Hall].
        split; [|exact Hall].
        apply Z.eqb_neq in Hn. rewrite Hb2, length_app in *.
        cbn [length] in *. lia.
Qed.

Lemma calls_snoc (cs : list (Transport.Call (Message := Message)))
    (c : Transport.Call) (this : Transport.Batch) :
  Transport.calls stringify (cs ++ [c]) this
  = Transport.call stringify c (Transport.calls stringify cs this).
Proof. unfold Transport.calls. by rewrite foldl_app. Qed.

Lemma added_snoc (cs : list (Transport.Call (Message := Message)))
    (c : Transport.Call) :
  added stringify (cs ++ [c]) = added stringify cs ++ added stringify [c].
Proof.
  induction cs as [|c' cs IH]; [by rewrite app_nil_l|].
  destruct c'; cbn [app added]; by rewrite IH.
Qed.

(** What a batch has delivered and what it still holds, after any calls. *)
Lemma calls_batched (cs : list (Transport.Call (Message := Message))) :
  exists chunks,
    batched request maxSize bytesLimit (Transport.calls stringify cs start)
      chunks (added stringify cs)
    /\ bounded (Transport.calls stringify cs start) chunks.
Proof.
  induction cs as [|c cs (chunks & Hbatched & Hbounded)] using rev_ind.
  - exists []. split; [apply batched_new | apply bounded_new].
  - rewrite calls_snoc, added_snoc.
    destruct c as [context message|]; cbn [Transport.call added].
    + exists (chunks ++ add_flushed stringify context message
                          (Transport.calls stringify cs start)).
      split; [by apply batched_add|].
      apply bounded_add; [apply Hbatched | exact Hbounded].
    + exists (chunks ++ flushed (Transport.calls stringify cs start)).
      rewrite app_nil_r.
      split; [by apply batched_flush | by apply bounded_flush].
Qed.

End BatchDeliveries.

Section BatchTheorems.

Context {Message Context_ : Type}.
Variable stringify : Message -> Context_ -> string.
Variable request : Transport.HttpRequest.
Variables maxSize bytesLimit : Z.

Local Abbreviation start := (Transport.new request maxSize bytesLimit).

Lemma sent_batched (this : Transport.Batch) (chunks : list (list string))
    (records : list string) :
  batched request maxSize bytesLimit this chunks records ->
  sent request this = delivery_of request <$> chunks.
Proof.
  intros [Hreq _ _ _ _]. unfold sent. rewrite Hreq.
  cbn [Transport.deliveries]. by rewrite drop_app_length.
Qed.

Lemma data_delivery_of (chunks : list (list string)) :
  Transport.data <$> (delivery_of request <$> chunks)
  = Transport.join Transport.newline <$> chunks.
Proof. rewrite <- list_fmap_compose. reflexivity. Qed.

(** X20: a batch loses, duplicates and reorders nothing.  After any calls
    of [add] and [flush], the payloads sent so far are the joins of groups
    of records, none of them empty, and these groups followed by the buffer
    are exactly the records added, in the order they were added. *)
Theorem batch_keeps_every_record
    (cs : list (Transport.Call (Message := Message) (Context_ := Context_))) :
  let this := Transport.calls stringify cs start in
  exists chunks,
    Transport.data <$> sent request this
    = Transport.join Transport.newline <$> chunks
    /\ concat chunks ++ Transport.buffer this = added stringify cs
    /\ Forall (fun chunk => chunk <> []) chunks.
Proof.
  intros this. destruct (calls_batched stringify request maxSize bytesLimit cs)
    as (chunks & Hbatched & _).
  exists chunks. split; [|split].
  - unfold this. rewrite (sent_batched _ _ _ Hbatched).
    apply data_delivery_of.
  - apply Hbatched.
  - apply Hbatched.
Qed.

(** X21: the size a batch passes to [send] is the size in bytes of the
    payload it passes with it, separators included. *)
Theorem delivery_size_is_payload_size
    (cs : list (Transport.Call (Message := Message) (Context_ := Context_))) :
  Forall (fun d => Transport.size d = Transport.sizeInBytes (Transport.data d))
         (sent request (Transport.calls stringify cs start)).
Proof.
  destruct (calls_batched stringify request maxSize bytesLimit cs)
    as (chunks & Hbatched & _).
  rewrite (sent_batched _ _ _ Hbatched).
  apply Forall_fmap. eapply Forall_impl; [apply Hbatched|].
  intros chunk Hne. cbn. symmetry. by apply join_size.
Qed.

(** X22: every payload a batch sends is smaller than its byte limit, unless
    it is one of the added records sent by itself. *)
Theorem delivery_below_byte_limit
    (cs : list (Transport.Call (Message := Message) (Context_ := Context_))) :
  Forall (fun d => Transport.size d < bytesLimit
                   \/ Transport.data d ∈ added stringify cs)
         (sent request (Transport.calls stringify cs start)).
Proof.
  destruct (calls_batched stringify request maxSize bytesLimit cs)
    as (chunks & Hbatched & Hbounded).
  rewrite (sent_batched _ _ _ Hbatched).
  apply Forall_fmap, Forall_forall. intros chunk Hin.
  destruct Hbounded as [_ Hbytes _].
  rewrite Forall_forall in Hbytes. specialize (Hbytes chunk Hin).
  rewrite (proj2 (batched_limits _ _ _ _ _ _ Hbatched)) in Hbytes.
  destruct Hbytes as [Hlt|Hone]; [by left | right].
  destruct chunk as [|record [|? ?]]; try discriminate.
  cbn. rewrite <- (batched_records _ _ _ _ _ _ Hbatched).
  apply elem_of_app. left. apply list_elem_of_In, in_concat.
  exists [record]. split; [by apply list_elem_of_In | by left].
Qed.

(** X23: with a positive [maxSize], every payload a batch sends joins at
    least one and at most [maxSize] of the added records. *)
Theorem delivery_record_count
    (cs : list (Transport.Call (Message := Message) (Context_ := Context_))) :
  1 <= maxSize ->
  let this := Transport.calls stringify cs start in
  exists chunks,
    Transport.data <$> sent request this
    = Transport.join Transport.newline <$> chunks
    /\ concat chunks ++ Transport.buffer this = added stringify cs
    /\ Forall (fun chunk => 1 <= Z.of_nat (length chunk) <= maxSize) chunks.
Proof.
  intros Hmax this.
  destruct (calls_batched stringify request maxSize bytesLimit cs)
    as (chunks & Hbatched & Hbounded).
  exists chunks. split; [|split].
  - unfold this. rewrite (sent_batched _ _ _ Hbatched).
    apply data_delivery_of.
  - apply Hbatched.
  - destruct Hbounded as [_ _ Hcount].
    rewrite (proj1 (batched_limits _ _ _ _ _ _ Hbatched)) in Hcount.
    destruct (Hcount Hmax) as [_ Hall].
    pose proof (batched_nonempty _ _ _ _ _ _ Hbatched) as Hne.
    rewrite Forall_forall in *. intros chunk Hin.
    specialize (Hall chunk Hin). specialize (Hne chunk Hin).
    destruct chunk; [done | cbn [length] in *; lia].
Qed.

(** X24: a payload leaves through [navigator.sendBeacon] exactly when the
    browser has it and the size is below the byte limit of the request;
    every other payload leaves in a POST request. *)
Theorem delivery_channel
    (cs : list (Transport.Call (Message := Message) (Context_ := Context_))) :
  Forall (fun d =>
            (Transport.channel d = Transport.Beacon
             <-> Transport.sendBeacon request = true
                 /\ Transport.size d < Transport.request_bytesLimit request)
            /\ (Transport.channel d = Transport.Post
                \/ Transport.channel d = Transport.Beacon))
         (sent request (Transport.calls stringify cs start)).
Proof.
  destruct (calls_batched stringify request maxSize bytesLimit cs)
    as (chunks & Hbatched & _).
  rewrite (sent_batched _ _ _ Hbatched).
  apply Forall_fmap, Forall_forall. intros chunk _.
  cbn [delivery_of Transport.channel Transport.size compose].
  unfold delivery_of. cbn [Transport.channel Transport.size].
  destruct (Transport.sendBeacon request); cbn [andb].
  - destruct (Z.ltb_spec
                (Transport.total_bytes chunk + Z.of_nat (length chunk) - 1)
                (Transport.request_bytesLimit request)) as [Hlt|Hge].
    + split; [|by right]. split; [by intros _ | done].
    + split; [|by left]. split; [done | intros [_ Hlt]; lia].
  - split; [|by left]. split; [done | by intros [? _]].
Qed.

(** X25: a record whose size reaches the byte limit of the batch is sent by
    itself at once: [add] first sends what the buffer holds, then the record
    alone, and leaves the buffer empty. *)
Theorem large_record_sent_alone
    (cs : list (Transport.Call (Message := Message) (Context_ := Context_)))
    (context : Context_) (message : Message) :
  bytesLimit <= Transport.sizeInBytes (stringify message context) ->
  let before := Transport.calls stringify cs start in
  let after := Transport.add stringify context message before in
  Transport.buffer after = []
  /\ Transport.bufferBytesSize after = 0
  /\ Transport.data <$> sent request after
     = (Transport.data <$> sent request before)
       ++ (Transport.join Transport.newline <$> flushed before)
       ++ [stringify message context].
Proof.
  intros Hlarge before after.
  destruct (calls_batched stringify request maxSize bytesLimit cs)
    as (chunks & Hbatched & _). fold before in Hbatched.
  pose proof (batched_add stringify request maxSize bytesLimit
                context message before chunks _ Hbatched) as Hafter.
  fold after in Hafter.
  destruct (batched_limits _ _ _ _ _ _ Hbatched) as [_ Hlimit].
  pose proof (batched_accounted _ _ _ _ _ _ Hbatched) as Hacc.
  pose proof (total_bytes_nonneg (Transport.buffer before)) as Hpos.
  set (record := stringify message context) in *.
  set (m := Transport.sizeInBytes record) in *.
  assert (Hwill : Transport.willReachedBytesLimitWith m before = true).
  { unfold Transport.willReachedBytesLimitWith. unfold accounted in Hacc.
    rewrite Hlimit, Hacc. apply Z.leb_le. lia. }
  set (this2 := Transport.push record m (Transport.flush before)).
  assert (Hb2 : Transport.buffer this2 = [record])
    by (unfold this2; cbn; by rewrite flush_buffer).
  assert (Hfull : Transport.isFull this2 = true).
  { unfold Transport.isFull. apply orb_true_iff. right.
    pose proof (accounted_flush _ Hacc) as Hacc1. unfold accounted in Hacc1.
    rewrite flush_buffer in Hacc1. cbn in Hacc1.
    unfold this2. cbn [Transport.push Transport.bytesLimit
                       Transport.bufferBytesSize].
    rewrite (proj2 (flush_limits before)), Hlimit, Hacc1.
    apply Z.leb_le. lia. }
  assert (Hflushed : add_flushed stringify context message before
                     = flushed before ++ [[record]]).
  { unfold add_flushed. cbv zeta. fold record. fold m. rewrite Hwill.
    fold this2. rewrite Hfull. unfold flushed at 2. by rewrite Hb2. }
  assert (Hadd : after = Transport.flush this2).
  { unfold after, Transport.add, Transport.process. fold record. fold m.
    rewrite Hwill. fold this2. by rewrite Hfull. }
  split; [rewrite Hadd; apply flush_buffer|].
  split.
  - rewrite Hadd, flush_nonempty by (rewrite Hb2; discriminate). reflexivity.
  - rewrite (sent_batched _ _ _ Hafter), (sent_batched _ _ _ Hbatched).
    rewrite Hflushed, !data_delivery_of, !fmap_app. reflexivity.
Qed.

(** X26: a second [flush] right after a [flush] sends nothing and changes
    nothing. *)
Theorem flush_twice (this : Transport.Batch) :
  Transport.flush (Transport.flush this) = Transport.flush this.
Proof. apply flush_empty, flush_buffer. Qed.

End BatchTheorems.

Lemma delivery_record_count_witness :
  let cs := [Transport.Add tt "aa"; Transport.Add tt "bb";
             Transport.Add tt "cc"]%string in
  let this :=
    Transport.calls example_stringify cs (Transport.new example_endpoint 2 10) in
  exists chunks,
    Transport.data <$> sent example_endpoint this
    = Transport.join Transport.newline <$> chunks
    /\ concat chunks ++ Transport.buffer this = ["aa"; "bb"; "cc"]%string
    /\ Forall (fun chunk => 1 <= Z.of_nat (length chunk) <= 2) chunks.
Proof.
  intros cs this.
  assert (Hmax : 1 <= 2) by lia.
  exact (delivery_record_count example_stringify example_endpoint 2 10 cs Hmax).
Defined.

Lemma large_record_sent_alone_witness :
  let before :=
    Transport.calls example_stringify [Transport.Add tt "aa"%string]
      (Transport.new example_endpoint 2 10) in
  let after := Transport.add example_stringify tt "0123456789"%string before in
  Transport.buffer after = []
  /\ Transport.data <$> sent example_endpoint after
     = ["aa"; "0123456789"]%string.
Proof.
  intros before after.
  assert (Hlarge : 10 <= Transport.sizeInBytes
                          (example_stringify "0123456789"%string tt))
    by (vm_compute; discriminate).
  destruct (large_record_sent_alone example_stringify example_endpoint 2 10
              [Transport.Add tt "aa"%string] tt "0123456789"%string Hlarge)
    as (Hbuffer & _ & Hdata).
  split; [exact Hbuffer | exact Hdata].
Defined.
